(** * JTP (Janky Transfer Protocol): encoder and decoder

    A shallow embedding of [lib/constants.js], [lib/Encoder.js] and
    [lib/Decoder.js] (and of the packet builder of [test/decoder.test.js]),
    followed by the properties of the fragmentation and reassembly pair.

    Conventions of the embedding.
    - A JavaScript number that the code only uses as an integer is a [Z].
    - A Node [Buffer] is a [list byte]; reads and writes go through the
      functions of module [Buffer], which keep Node's offsets and widths.
      A Node call that throws returns [None].
    - [EventEmitter.emit] appends to an output trace ([list] of events);
      listeners are taken not to call back into the emitting object.
    - [setImmediate] callbacks are returned to the caller as data (a callback to
      run on a later turn of the event loop) instead of being run. *)

From Stdlib Require Import ZArith Lia List Bool.
From stdpp Require Import gmap list fin_maps fin_sets.
From coqutil Require Import Byte Word.LittleEndianList Z.bitblast.
Local Open Scope Z_scope.

(** ** lib/constants.js *)

Definition VERSION : Z := 0.
Definition MAGIC_BYTE : Z := 0x4A.
Definition MAX_PAYLOAD_SIZE : Z := 1200.
Definition HEADER_SIZE : Z := 12.
Definition MAX_PACKET_TYPES : Z := 64.
Definition MAX_MESSAGE_ID : Z := 0xFFFF.
Definition MAX_FRAGMENT_COUNT : Z := 0xFFFF.
Definition MAX_MESSAGE_SIZE : Z := MAX_PAYLOAD_SIZE * MAX_FRAGMENT_COUNT.

(** ** Node's Buffer, as far as the library uses it *)

Module Buffer.

Definition length (b : list byte) : Z := Z.of_nat (List.length b).

(** [Buffer.allocUnsafe(size)]: the contents are unspecified in Node; the
    model fills with zero bytes.  A negative size throws. *)
Definition allocUnsafe (size : Z) : option (list byte) :=
  if size <? 0 then None else Some (replicate (Z.to_nat size) Byte.x00).

(** How [subarray] reads an index: a negative one counts from the end, and
    the result is clamped to the buffer. *)
Definition clamp_index (len i : Z) : Z :=
  if i <? 0 then Z.max (len + i) 0 else Z.min i len.

(** [buf.subarray(start, end)] *)
Definition subarray (b : list byte) (start end_ : Z) : list byte :=
  let s := clamp_index (length b) start in
  let e := clamp_index (length b) end_ in
  take (Z.to_nat (e - s)) (drop (Z.to_nat s) b).

(** [buf.subarray(start)] *)
Definition subarray_from (b : list byte) (start : Z) : list byte :=
  subarray b start (length b).

(** Overwrite [target] from offset [off] with the bytes of [src], as many
    as fit; the length of [target] never changes. *)
Definition blit (src target : list byte) (off : nat) : list byte :=
  let copied := take (List.length target - off) src in
  take off target ++ copied ++ drop (off + List.length copied) target.

(** [source.copy(target, targetStart, sourceStart, sourceEnd)]; the value is
    the target after the call.  Node throws [ERR_OUT_OF_RANGE] on a negative
    index and on a [sourceStart] beyond the source; it copies what fits. *)
Definition copy (source target : list byte)
    (targetStart sourceStart sourceEnd : Z) : option (list byte) :=
  if (targetStart <? 0) || (sourceStart <? 0)
     || (sourceStart >? length source) || (sourceEnd <? 0)
  then None
  else Some (blit (take (Z.to_nat (sourceEnd - sourceStart))
                     (drop (Z.to_nat sourceStart) source))
               target (Z.to_nat targetStart)).

(** Unsigned little-endian reads.  Node throws when the read leaves the
    buffer; every read of the library is behind a length check, and the
    model reads missing bytes as zero. *)
Definition readUIntLE (width : nat) (b : list byte) (offset : Z) : Z :=
  le_combine (take width (drop (Z.to_nat offset) b ++ replicate width Byte.x00)).

Definition readUInt8 := readUIntLE 1.
Definition readUInt16LE := readUIntLE 2.
Definition readUInt32LE := readUIntLE 4.

(** Unsigned little-endian writes: Node throws [ERR_OUT_OF_RANGE] when the
    value does not fit the width or the write leaves the buffer. *)
Definition writeUIntLE (width : nat) (b : list byte) (value offset : Z)
    : option (list byte) :=
  if (0 <=? value) && (value <? 2 ^ (8 * Z.of_nat width))
     && (0 <=? offset) && (offset + Z.of_nat width <=? length b)
  then Some (blit (le_split width value) b (Z.to_nat offset))
  else None.

Definition writeUInt8 := writeUIntLE 1.
Definition writeUInt16LE := writeUIntLE 2.
Definition writeUInt32LE := writeUIntLE 4.

End Buffer.

(** An argument that the caller may or may not have passed as a Buffer
    ([Buffer.isBuffer]). *)
Inductive JsValue :=
| JsBuffer (b : list byte)
| JsOther.

(** ** lib/Encoder.js *)

Module Encoder.

Record t := {
  source_id : Z;
  message_id : Z;
  _buffer_pool : list (list byte)
}.

Inductive Error :=
| InvalidMessageType (message_type : Z)
| InvalidInputType (message_type : Z)
| MessageTooLarge (message_type message_length : Z)
| Thrown (message_id message_type : Z).

Inductive Event :=
| EvPacket (packet_buffer : list byte)
    (message_id message_type fragment_index fragment_count fragment_size : Z)
| EvEncoded (message_id message_type fragment_count total_bytes : Z)
| EvCallback (message_id message_type fragment_count total_bytes : Z)
| EvError (e : Error).

(** What [encode_message] hands to [setImmediate]. *)
Inductive Immediate :=
| ImmError (e : Error)
| ImmEncode (message_buffer : list byte)
    (message_type message_id fragment_count : Z) (callback : bool).

Definition new (source_id : Z) : t :=
  {| source_id := source_id; message_id := 0; _buffer_pool := [] |}.

Definition increment_message_id (e : t) : t :=
  {| source_id := source_id e;
     message_id := (message_id e + 1) mod 0x10000;
     _buffer_pool := _buffer_pool e |}.

(** The pool is searched front to back for the first buffer that is long
    enough; it is taken out of the pool and cut to [size]. *)
Fixpoint _get_buffer (pool : list (list byte)) (size : Z)
    : option (list byte * list (list byte)) :=
  match pool with
  | [] => b ← Buffer.allocUnsafe size; Some (b, [])
  | buffer :: rest =>
      if Buffer.length buffer >=? size
      then Some (if size =? Buffer.length buffer then buffer
                 else Buffer.subarray buffer 0 size, rest)
      else '(b, rest') ← _get_buffer rest size; Some (b, buffer :: rest')
  end.

Definition _return_buffer (e : t) (buffer : list byte) : t :=
  if (Buffer.length buffer <=? 64 * 1024)
     && (Z.of_nat (List.length (_buffer_pool e)) <? 10)
  then {| source_id := source_id e; message_id := message_id e;
          _buffer_pool := _buffer_pool e ++ [buffer] |}
  else e.

(** [Math.max(1, Math.ceil(message_length / MAX_PAYLOAD_SIZE))]; the
    quotient of two integers below 2^53 is rounded up exactly. *)
Definition fragment_count_of (message_length : Z) : Z :=
  Z.max 1 ((message_length + MAX_PAYLOAD_SIZE - 1) / MAX_PAYLOAD_SIZE).

(** The body of the loop of [_encode_message_async] up to the [emit]: the
    packet of fragment [fragment_index], written into [packet_buffer]. *)
Definition write_packet (source_id : Z) (message_buffer packet_buffer : list byte)
    (message_type message_id fragment_count fragment_index : Z)
    (frag_start frag_end : Z) : option (list byte) :=
  let header_length := 12 in
  let version_and_type :=
    Z.lor (Z.shiftl VERSION 6) (Z.land message_type 0x3F) in
  b ← Buffer.writeUInt8 packet_buffer MAGIC_BYTE 0;
  b ← Buffer.writeUInt8 b version_and_type 1;
  b ← Buffer.writeUInt16LE b message_id 2;
  b ← Buffer.writeUInt16LE b fragment_index 4;
  b ← Buffer.writeUInt16LE b fragment_count 6;
  b ← Buffer.writeUInt32LE b source_id 8;
  Buffer.copy message_buffer b header_length frag_start frag_end.

(** The [for] loop of [_encode_message_async], [n] iterations from
    [fragment_index] on.  The Boolean tells whether the loop ran to its end
    ([false]: a call threw and the [catch] took over). *)
Fixpoint fragment_loop (source_id : Z) (pool : list (list byte))
    (message_buffer : list byte) (message_type message_id fragment_count : Z)
    (fragment_index : Z) (n : nat) : list Event * list (list byte) * bool :=
  match n with
  | O => ([], pool, true)
  | S n' =>
      let message_length := Buffer.length message_buffer in
      let frag_start := fragment_index * MAX_PAYLOAD_SIZE in
      let frag_end := Z.min (frag_start + MAX_PAYLOAD_SIZE) message_length in
      let frag_payload_length := frag_end - frag_start in
      let header_length := 12 in
      match _get_buffer pool (header_length + frag_payload_length) with
      | None => ([], pool, false)
      | Some (packet_buffer, pool1) =>
          match write_packet source_id message_buffer packet_buffer
                  message_type message_id fragment_count fragment_index
                  frag_start frag_end with
          | None => ([], pool1, false)
          | Some packet =>
              let '(evs, pool2, ok) :=
                fragment_loop source_id pool1 message_buffer message_type
                  message_id fragment_count (fragment_index + 1) n' in
              (EvPacket packet message_id message_type fragment_index
                 fragment_count frag_payload_length :: evs, pool2, ok)
          end
      end
  end.

(** The events of one run of [_encode_message_async], in order, and the
    encoder afterwards.  The [await]s between fragments only hand control
    to the event loop; they do not change what is emitted. *)
Definition _encode_message_async (e : t) (message_buffer : list byte)
    (message_type message_id fragment_count : Z) (callback : bool)
    : list Event * t :=
  let message_length := Buffer.length message_buffer in
  let '(evs, pool, ok) :=
    fragment_loop (source_id e) (_buffer_pool e) message_buffer message_type
      message_id fragment_count 0 (Z.to_nat fragment_count) in
  let e' := {| source_id := source_id e; message_id := Encoder.message_id e;
               _buffer_pool := pool |} in
  if ok then
    (evs ++ EvEncoded message_id message_type fragment_count message_length
         :: (if callback
             then [EvCallback message_id message_type fragment_count message_length]
             else []), e')
  else (evs ++ [EvError (Thrown message_id message_type)], e').

(** [encode_message]: the returned value ([None] is [null]), the encoder
    after the call, and the callback given to [setImmediate]. *)
Definition encode_message (e : t) (message_buffer : JsValue)
    (message_type : Z) (callback : bool) : option Z * t * Immediate :=
  if (message_type <? 0) || (message_type >? 63) then
    (None, e, ImmError (InvalidMessageType message_type))
  else
    match message_buffer with
    | JsOther => (None, e, ImmError (InvalidInputType message_type))
    | JsBuffer message_buffer =>
        let message_length := Buffer.length message_buffer in
        let fragment_count := fragment_count_of message_length in
        if fragment_count >? 0xFFFF then
          (None, e, ImmError (MessageTooLarge message_type message_length))
        else
          let message_id := message_id e in
          let e := increment_message_id e in
          (Some message_id, e,
           ImmEncode message_buffer message_type message_id fragment_count
             callback)
    end.

(** Running the callback that [encode_message] scheduled. *)
Definition run_immediate (e : t) (i : Immediate) : list Event * t :=
  match i with
  | ImmError err => ([EvError err], e)
  | ImmEncode message_buffer message_type message_id fragment_count callback =>
      _encode_message_async e message_buffer message_type message_id
        fragment_count callback
  end.

(** [encode_message] together with the callback it scheduled, run to its
    end: the value returned to the caller, every event of the message in
    order of emission, and the encoder afterwards. *)
Definition encode (e : t) (message_buffer : JsValue) (message_type : Z)
    (callback : bool) : option Z * list Event * t :=
  let '(returned, e, immediate) :=
    encode_message e message_buffer message_type callback in
  let '(evs, e) := run_immediate e immediate in
  (returned, evs, e).

(** The packets among the events, in the order of emission. *)
Definition packets (evs : list Event) : list (list byte) :=
  omap (fun ev => match ev with EvPacket p _ _ _ _ _ => Some p | _ => None end) evs.

End Encoder.

(** ** lib/Decoder.js *)

Module Decoder.

Record Accumulator := {
  message_id : Z;
  fragment_count : Z;
  fragments_received : Z;
  fragments : gmap Z (list byte);
  message_len : Z;
  valid : bool
}.

Record t := {
  source_id : Z;
  message_types : option (gset Z);
  _accumulators : gmap Z Accumulator
}.

(** Why a reassembly was given up ([e.message] of the caught exception). *)
Inductive Failure :=
| MissingFragment (i : Z)
| BufferError.

Inductive Error :=
| PacketTooShort
| UnsupportedVersion (version : Z)
| InvalidFragment (idx cnt size : Z)
| MessageIdMismatch (expected got : Z)
| DuplicateFragment (fragment_index message_id : Z)
| FragmentCountExceeded (fragments_received fragment_count : Z)
| ReassemblyFailed (message_id : Z) (why : Failure).

Inductive Event :=
| EvError (e : Error)
| EvMessageIncomplete (message_type message_id fragments_received fragment_count : Z)
| EvMessageStart (message_type message_id fragment_count : Z)
| EvFragmentReceived
    (message_type message_id fragment_index fragment_count fragments_received : Z)
| EvMessage (message_buffer : list byte)
    (message_type message_id fragment_count total_bytes : Z)
| EvMessageComplete (message_type message_id fragment_count total_bytes : Z).

(** What one call of [decode_packet] does: the value it returns, the events
    it emits in order, the reassemblies [(message_type, message_id)] it
    hands to [setImmediate], and the decoder after the call. *)
Record Outcome := {
  returned : bool;
  emitted : list Event;
  deferred : list (Z * Z);
  after : t
}.

(** [new JTPDecoder({ source_id, message_types })]; an absent or [null]
    list of types is [None]. *)
Definition new (source_id : Z) (message_types : option (list Z)) : t :=
  {| source_id := source_id;
     message_types := list_to_set <$> message_types;
     _accumulators := ∅ |}.

Definition with_accumulators (d : t) (m : gmap Z Accumulator) : t :=
  {| source_id := source_id d; message_types := message_types d;
     _accumulators := m |}.

Definition reset_message_state (d : t) (message_type : option Z) : t :=
  match message_type with
  | None => with_accumulators d ∅
  | Some message_type =>
      with_accumulators d (delete message_type (_accumulators d))
  end.

Definition _is_newer_message (new_id old_id : Z) : bool :=
  let diff := Z.land (new_id - old_id) 0xFFFF in
  (0 <? diff) && (diff <? 0x8000).

(** The [for] loop of [_reassemble_message], [n] iterations from index [i]
    on; [inl] is the exception that left the loop. *)
Fixpoint reassemble_loop (fragments : gmap Z (list byte))
    (message_buffer : list byte) (offset i : Z) (n : nat)
    : Failure + list byte :=
  match n with
  | O => inr message_buffer
  | S n' =>
      match fragments !! i with
      | None => inl (MissingFragment i)
      | Some fragment =>
          match Buffer.copy fragment message_buffer offset 0
                  (Buffer.length fragment) with
          | None => inl BufferError
          | Some message_buffer =>
              reassemble_loop fragments message_buffer
                (offset + Buffer.length fragment) (i + 1) n'
          end
      end
  end.

Definition _reassemble_message (d : t) (message_type expected_message_id : Z)
    : list Event * t :=
  match _accumulators d !! message_type with
  | None => ([], d)
  | Some accumulator =>
      if negb (message_id accumulator =? expected_message_id) then ([], d)
      else
        let result :=
          match Buffer.allocUnsafe (message_len accumulator) with
          | None => inl BufferError
          | Some message_buffer =>
              reassemble_loop (fragments accumulator) message_buffer 0 0
                (Z.to_nat (fragment_count accumulator))
          end in
        let evs :=
          match result with
          | inr message_buffer =>
              [EvMessage message_buffer message_type expected_message_id
                 (fragment_count accumulator) (message_len accumulator);
               EvMessageComplete message_type expected_message_id
                 (fragment_count accumulator) (message_len accumulator)]
          | inl why => [EvError (ReassemblyFailed expected_message_id why)]
          end in
        (evs, reset_message_state d (Some message_type))
  end.

Definition ignored (d : t) (evs : list Event) : Outcome :=
  {| returned := false; emitted := evs; deferred := []; after := d |}.

Definition fresh_accumulator (message_id fragment_count : Z) : Accumulator :=
  {| message_id := message_id; fragment_count := fragment_count;
     fragments_received := 0; fragments := ∅; message_len := 0;
     valid := true |}.

(** Storing a fragment: [fragments.set], [fragments_received++],
    [message_len += payload_length]. *)
Definition store (accumulator : Accumulator) (fragment_index : Z)
    (fragment_copy : list byte) : Accumulator :=
  {| message_id := message_id accumulator;
     fragment_count := fragment_count accumulator;
     fragments_received := fragments_received accumulator + 1;
     fragments := <[fragment_index := fragment_copy]> (fragments accumulator);
     message_len := message_len accumulator + Buffer.length fragment_copy;
     valid := valid accumulator |}.

(** [decode_packet] from "Get or create accumulator" on: the message-ID
    check, the duplicate check, the store and the reassembly, for a packet
    that passed the filters with the header fields given. *)
Definition accumulate (d : t)
    (message_type message_id fragment_index fragment_count : Z)
    (payload : list byte) : Outcome :=
  let payload_length := Buffer.length payload in
  let accumulator := _accumulators d !! message_type in
  if match accumulator with
     | Some a => _is_newer_message (Decoder.message_id a) message_id
     | None => false
     end
  then ignored d []
  else
    (* a fresh accumulator, or the one already there *)
    let '(evs, accumulator, d) :=
      match accumulator with
      | Some a =>
          if _is_newer_message message_id (Decoder.message_id a)
          then
            let a' := fresh_accumulator message_id fragment_count in
            ([EvMessageIncomplete message_type (Decoder.message_id a)
                (fragments_received a) (Decoder.fragment_count a);
              EvMessageStart message_type message_id fragment_count],
             a',
             with_accumulators d (<[message_type := a']> (_accumulators d)))
          else ([], a, d)
      | None =>
          let a' := fresh_accumulator message_id fragment_count in
          ([EvMessageStart message_type message_id fragment_count],
           a',
           with_accumulators d (<[message_type := a']> (_accumulators d)))
      end in
    if negb (message_id =? Decoder.message_id accumulator)
    then ignored d
           (evs ++ [EvError (MessageIdMismatch
                               (Decoder.message_id accumulator) message_id)])
    else if bool_decide (is_Some (fragments accumulator !! fragment_index))
    then ignored d
           (evs ++ [EvError (DuplicateFragment fragment_index message_id)])
    else
      let fragment_copy := payload in
      let accumulator := store accumulator fragment_index fragment_copy in
      let d :=
        with_accumulators d
          (<[message_type := accumulator]> (_accumulators d)) in
      if fragments_received accumulator >? Decoder.fragment_count accumulator
      then ignored (reset_message_state d (Some message_type))
             (evs ++ [EvError (FragmentCountExceeded
                                 (fragments_received accumulator)
                                 (Decoder.fragment_count accumulator))])
      else
        let evs :=
          evs ++ [EvFragmentReceived message_type message_id
                    fragment_index fragment_count
                    (fragments_received accumulator)] in
        if fragments_received accumulator =? Decoder.fragment_count accumulator
        then
          if (Decoder.fragment_count accumulator >? 100)
             || (message_len accumulator >? 64 * 1024)
          then {| returned := true; emitted := evs;
                  deferred := [(message_type, message_id)]; after := d |}
          else
            let '(evs', d) := _reassemble_message d message_type message_id in
            {| returned := true; emitted := evs ++ evs';
               deferred := []; after := d |}
        else {| returned := true; emitted := evs; deferred := [];
                after := d |}.

(** [decode_packet]: the filters, in the order of the code, then
    [accumulate]. *)
Definition decode_packet (d : t) (packet : list byte) : Outcome :=
  if (Buffer.length packet <? 1)
     || negb (Buffer.readUInt8 packet 0 =? MAGIC_BYTE)
  then ignored d []
  else if Buffer.length packet <? 12
  then ignored d [EvError PacketTooShort]
  else
    let version_and_type := Buffer.readUInt8 packet 1 in
    let version := Z.land (Z.shiftr version_and_type 6) 0x03 in
    let message_type := Z.land version_and_type 0x3F in
    if negb (version =? VERSION)
    then ignored d [EvError (UnsupportedVersion version)]
    else
      let message_id := Buffer.readUInt16LE packet 2 in
      let fragment_index := Buffer.readUInt16LE packet 4 in
      let fragment_count := Buffer.readUInt16LE packet 6 in
      let source_id := Buffer.readUInt32LE packet 8 in
      let payload := Buffer.subarray_from packet 12 in
      let payload_length := Buffer.length payload in
      if negb (source_id =? Decoder.source_id d) then ignored d []
      else if match message_types d with
              | Some types => negb (bool_decide (message_type ∈ types))
              | None => false
              end
      then ignored d []
      else if (fragment_index >=? fragment_count) || (fragment_count =? 0)
              || (payload_length >? MAX_PAYLOAD_SIZE)
      then ignored d
             [EvError (InvalidFragment fragment_index fragment_count payload_length)]
      else
        accumulate d message_type message_id fragment_index fragment_count
          payload.

(** *** The decoder inside the event loop

    The host delivers packets, may reset the decoder, and between two such
    calls the event loop may run the oldest callback that [decode_packet]
    gave to [setImmediate]. *)

Inductive Action :=
| Accept (packet : list byte)
| Reset (message_type : option Z)
| Turn.

Record Loop := {
  decoder : t;
  immediates : list (Z * Z)
}.

Definition step (w : Loop) (a : Action) : list Event * Loop :=
  match a with
  | Accept packet =>
      let o := decode_packet (decoder w) packet in
      (emitted o,
       {| decoder := after o; immediates := immediates w ++ deferred o |})
  | Reset message_type =>
      ([], {| decoder := reset_message_state (decoder w) message_type;
              immediates := immediates w |})
  | Turn =>
      match immediates w with
      | [] => ([], w)
      | (message_type, message_id) :: rest =>
          let '(evs, d) := _reassemble_message (decoder w) message_type message_id in
          (evs, {| decoder := d; immediates := rest |})
      end
  end.

Fixpoint run (w : Loop) (actions : list Action) : list Event * Loop :=
  match actions with
  | [] => ([], w)
  | a :: rest =>
      let '(evs, w) := step w a in
      let '(evs', w) := run w rest in
      (evs ++ evs', w)
  end.

Definition start (d : t) : Loop := {| decoder := d; immediates := [] |}.

(** Delivering a list of packets one after the other with no turn of the
    event loop in between: the events of all calls, in order, the deferred
    reassemblies and the decoder at the end. *)
Fixpoint decode_all (d : t) (packets : list (list byte))
    : list Event * list (Z * Z) * t :=
  match packets with
  | [] => ([], [], d)
  | packet :: rest =>
      let o := decode_packet d packet in
      let '(evs, imm, d') := decode_all (after o) rest in
      (emitted o ++ evs, deferred o ++ imm, d')
  end.

(** *** The header of a packet, as [decode_packet] reads it *)

Definition packet_version (packet : list byte) : Z :=
  Z.land (Z.shiftr (Buffer.readUInt8 packet 1) 6) 0x03.
Definition packet_type (packet : list byte) : Z :=
  Z.land (Buffer.readUInt8 packet 1) 0x3F.
Definition packet_message_id (packet : list byte) : Z :=
  Buffer.readUInt16LE packet 2.
Definition packet_fragment_index (packet : list byte) : Z :=
  Buffer.readUInt16LE packet 4.
Definition packet_fragment_count (packet : list byte) : Z :=
  Buffer.readUInt16LE packet 6.
Definition packet_source_id (packet : list byte) : Z :=
  Buffer.readUInt32LE packet 8.
Definition packet_payload (packet : list byte) : list byte :=
  Buffer.subarray_from packet 12.

(** A packet that passes every filter of [decode_packet] (magic byte,
    length, version, source, accepted types, index, count and size). *)
Definition accepted (d : t) (packet : list byte) : bool :=
  (1 <=? Buffer.length packet)
  && (Buffer.readUInt8 packet 0 =? MAGIC_BYTE)
  && (12 <=? Buffer.length packet)
  && (packet_version packet =? VERSION)
  && (packet_source_id packet =? source_id d)
  && match message_types d with
     | Some types => bool_decide (packet_type packet ∈ types)
     | None => true
     end
  && (packet_fragment_index packet <? packet_fragment_count packet)
  && negb (packet_fragment_count packet =? 0)
  && (Buffer.length (packet_payload packet) <=? MAX_PAYLOAD_SIZE).


(** The completed messages among the events, in order: payload, type and
    the metadata [message_id], [fragment_count], [total_bytes]. *)
Definition completed (evs : list Event) : list (list byte * Z * Z * Z * Z) :=
  omap (fun ev => match ev with
                  | EvMessage b t i c n => Some (b, t, i, c, n)
                  | _ => None
                  end) evs.

(** The errors among the events, in order. *)
Definition errors (evs : list Event) : list Error :=
  omap (fun ev => match ev with EvError e => Some e | _ => None end) evs.

(** A packet that passes the filters and joins the accumulator of its type
    (same message ID) has its index below the fragment count of that
    accumulator; this holds in particular when it carries the fragment count
    the accumulator was started with. *)
Definition fits (d : t) (packet : list byte) : bool :=
  if accepted d packet then
    match _accumulators d !! packet_type packet with
    | Some a =>
        if message_id a =? packet_message_id packet
        then packet_fragment_index packet <? fragment_count a
        else true
    | None => true
    end
  else true.

(** Every packet of the run fits the decoder it is delivered to. *)
Fixpoint well_behaved (w : Loop) (actions : list Action) : bool :=
  match actions with
  | [] => true
  | a :: rest =>
      match a with Accept packet => fits (decoder w) packet | _ => true end
      && well_behaved (step w a).2 rest
  end.

End Decoder.

(** ** test/decoder.test.js: the packet builder of the decoder tests *)

Module DecoderTest.

Definition createValidPacket
    (source_id message_type message_id fragment_index fragment_count : Z)
    (payload : list byte) : option (list byte) :=
  let header_size := 12 in
  packet ← Buffer.allocUnsafe (header_size + Buffer.length payload);
  let version_and_type :=
    Z.lor (Z.shiftl VERSION 6) (Z.land message_type 0x3F) in
  packet ← Buffer.writeUInt8 packet MAGIC_BYTE 0;
  packet ← Buffer.writeUInt8 packet version_and_type 1;
  packet ← Buffer.writeUInt16LE packet message_id 2;
  packet ← Buffer.writeUInt16LE packet fragment_index 4;
  packet ← Buffer.writeUInt16LE packet fragment_count 6;
  packet ← Buffer.writeUInt32LE packet source_id 8;
  Buffer.copy payload packet header_size 0 (Buffer.length payload).

End DecoderTest.

(** * Vocabulary of the statements *)

(** The 12 bytes of the wire header, in wire order: magic, version and type,
    then message ID, fragment index, fragment count (16 bits each) and source
    ID (32 bits), least significant byte first. *)
Definition wire_header
    (version message_type message_id fragment_index fragment_count source_id : Z)
    : list byte :=
  [byte.of_Z MAGIC_BYTE;
   byte.of_Z (Z.lor (Z.shiftl version 6) (Z.land message_type 0x3F))]
  ++ le_split 2 message_id ++ le_split 2 fragment_index
  ++ le_split 2 fragment_count ++ le_split 4 source_id.

(** Bytes [i * 1200, min ((i + 1) * 1200, len)) of a message. *)
Definition fragment_payload (message_buffer : list byte) (fragment_index : Z)
    : list byte :=
  Buffer.subarray message_buffer (fragment_index * MAX_PAYLOAD_SIZE)
    (Z.min ((fragment_index + 1) * MAX_PAYLOAD_SIZE)
       (Buffer.length message_buffer)).

Definition expected_packet (source_id : Z) (message_buffer : list byte)
    (message_type message_id fragment_count fragment_index : Z) : list byte :=
  wire_header VERSION message_type message_id fragment_index fragment_count
    source_id
  ++ fragment_payload message_buffer fragment_index.

Definition expected_event (source_id : Z) (message_buffer : list byte)
    (message_type message_id fragment_count fragment_index : Z) : Encoder.Event :=
  Encoder.EvPacket
    (expected_packet source_id message_buffer message_type message_id
       fragment_count fragment_index)
    message_id message_type fragment_index fragment_count
    (Buffer.length (fragment_payload message_buffer fragment_index)).

(** An encoder as [new JTPEncoder] and [encode_message] leave it: a 32-bit
    source ID and a 16-bit message ID. *)
Definition encoder_ok (e : Encoder.t) : Prop :=
  0 <= Encoder.source_id e < 2 ^ 32 ∧ 0 <= Encoder.message_id e < 2 ^ 16.

(** The sum of the lengths of the stored payloads. *)
Definition total_length (m : gmap Z (list byte)) : Z :=
  map_fold (λ _ fragment s, s + Buffer.length fragment) 0 m.

Definition accumulator_ok (a : Decoder.Accumulator) : Prop :=
  Decoder.fragments_received a = Z.of_nat (size (Decoder.fragments a))
  ∧ Decoder.message_len a = total_length (Decoder.fragments a)
  ∧ Decoder.fragments_received a <= Decoder.fragment_count a.

Definition decoder_ok (d : Decoder.t) : Prop :=
  map_Forall (λ _ a, accumulator_ok a) (Decoder._accumulators d).

Definition indices_in_range (a : Decoder.Accumulator) : Prop :=
  ∀ i, is_Some (Decoder.fragments a !! i) → 0 <= i < Decoder.fragment_count a.

Definition decoder_in_range (d : Decoder.t) : Prop :=
  map_Forall (λ _ a, accumulator_ok a ∧ indices_in_range a)
    (Decoder._accumulators d).

(** The stored payloads of indices [first, first + count), concatenated in
    index order. *)
Definition in_order (m : gmap Z (list byte)) (first count : Z) : list byte :=
  concat ((λ i, default [] (m !! i)) <$> seqZ first count).

(** The decoder is configured for source [src] and accepts type [T]. *)
Definition listens (src T : Z) (d : Decoder.t) : Prop :=
  Decoder.source_id d = src
  ∧ match Decoder.message_types d with
    | Some types => T ∈ types
    | None => True
    end.

(** How [accumulate] arrives at the accumulator it stores into, and the
    events emitted on the way. *)
Inductive entry (d : Decoder.t) (T id cnt : Z)
    : list Decoder.Event → Decoder.Accumulator → Prop :=
| entry_fresh :
    Decoder._accumulators d !! T = None →
    entry d T id cnt [Decoder.EvMessageStart T id cnt]
      (Decoder.fresh_accumulator id cnt)
| entry_newer old :
    Decoder._accumulators d !! T = Some old →
    Decoder._is_newer_message id (Decoder.message_id old) = true →
    entry d T id cnt
      [Decoder.EvMessageIncomplete T (Decoder.message_id old)
         (Decoder.fragments_received old) (Decoder.fragment_count old);
       Decoder.EvMessageStart T id cnt]
      (Decoder.fresh_accumulator id cnt)
| entry_same a :
    Decoder._accumulators d !! T = Some a → Decoder.message_id a = id →
    entry d T id cnt [] a.

(** The rest of [accumulate] once the fragment is stored in [a']. *)
Definition stored (d : Decoder.t) (T id idx cnt : Z)
    (evs : list Decoder.Event) (a' : Decoder.Accumulator) : Decoder.Outcome :=
  let d' :=
    Decoder.with_accumulators d (<[T := a']> (Decoder._accumulators d)) in
  if Decoder.fragments_received a' >? Decoder.fragment_count a' then
    Decoder.ignored (Decoder.reset_message_state d' (Some T))
      (evs ++ [Decoder.EvError
                 (Decoder.FragmentCountExceeded (Decoder.fragments_received a')
                    (Decoder.fragment_count a'))])
  else
    let evs :=
      evs ++ [Decoder.EvFragmentReceived T id idx cnt
                (Decoder.fragments_received a')] in
    if Decoder.fragments_received a' =? Decoder.fragment_count a' then
      if (Decoder.fragment_count a' >? 100)
         || (Decoder.message_len a' >? 64 * 1024) then
        {| Decoder.returned := true; Decoder.emitted := evs;
           Decoder.deferred := [(T, id)]; Decoder.after := d' |}
      else
        {| Decoder.returned := true;
           Decoder.emitted := evs ++ (Decoder._reassemble_message d' T id).1;
           Decoder.deferred := [];
           Decoder.after := (Decoder._reassemble_message d' T id).2 |}
    else {| Decoder.returned := true; Decoder.emitted := evs;
            Decoder.deferred := []; Decoder.after := d' |}.

(** The accumulator holds exactly the fragments of [msg] with index in [D],
    for message [id]. *)
Definition holds (id : Z) (msg : list byte) (a : Decoder.Accumulator)
    (D : list Z) : Prop :=
  Decoder.message_id a = id
  ∧ Decoder.fragment_count a = Encoder.fragment_count_of (Buffer.length msg)
  ∧ Decoder.fragments_received a = Z.of_nat (List.length D)
  ∧ accumulator_ok a
  ∧ ∀ k, Decoder.fragments a !! k
         = if decide (k ∈ D) then Some (fragment_payload msg k) else None.

Definition collecting (src T id : Z) (msg : list byte) (d : Decoder.t)
    (D : list Z) : Prop :=
  listens src T d
  ∧ match D with
    | [] => Decoder._accumulators d !! T = None
    | _ => ∃ a, Decoder._accumulators d !! T = Some a ∧ holds id msg a D
    end.

(** The events of a delivery in the order [ks] of fragment indices. *)
Definition opening (T id cnt : Z) (D : list Z) : list Decoder.Event :=
  match D with [] => [Decoder.EvMessageStart T id cnt] | _ => [] end.

Fixpoint receipts (T id cnt : Z) (n : Z) (ks : list Z) : list Decoder.Event :=
  match ks with
  | [] => []
  | k :: ks =>
      Decoder.EvFragmentReceived T id k cnt (n + 1)
      :: receipts T id cnt (n + 1) ks
  end.

Definition closing (T id cnt : Z) (msg : list byte) : list Decoder.Event :=
  [Decoder.EvMessage msg T id cnt (Buffer.length msg);
   Decoder.EvMessageComplete T id cnt (Buffer.length msg)].

(** Events that [accumulate] emits before it looks at the fragment. *)
Definition lifecycle (ev : Decoder.Event) : Prop :=
  match ev with
  | Decoder.EvMessageStart _ _ _ | Decoder.EvMessageIncomplete _ _ _ _ => True
  | _ => False
  end.

(** A run that completes message 5 of type 1 in 101 fragments, then, before
    the deferred reassembly runs, moves on through newer messages until ID 5
    is the newest again. *)
Definition burst (message_id fragment_count : Z) : list Decoder.Action :=
  (λ i, Decoder.Accept (wire_header VERSION 1 message_id i fragment_count 7))
  <$> seqZ 0 fragment_count.

Definition late : list Decoder.Action :=
  burst 5 101
  ++ [Decoder.Accept (wire_header VERSION 1 20000 0 2 7);
      Decoder.Accept (wire_header VERSION 1 40000 0 2 7);
      Decoder.Accept (wire_header VERSION 1 60000 0 2 7);
      Decoder.Accept (wire_header VERSION 1 5 0 101 7);
      Decoder.Turn].

(** ** Vocabulary of the further properties *)

(** [encode_message] called for each [(message_buffer, message_type)] of a
    list, one call after the other: the returned values, in order, and the
    encoder after the last call.  The callbacks given to [setImmediate] run
    later and do not touch the counter. *)
Fixpoint encode_messages (e : Encoder.t) (calls : list (JsValue * Z))
    : list (option Z) * Encoder.t :=
  match calls with
  | [] => ([], e)
  | (message_buffer, message_type) :: rest =>
      let '(returned, e, _) :=
        Encoder.encode_message e message_buffer message_type false in
      let '(rs, e) := encode_messages e rest in
      (returned :: rs, e)
  end.

(** The message IDs among the returned values ([null] left out). *)
Definition assigned (returned : list (option Z)) : list Z :=
  omap (λ r, r) returned.

(** The [fragment_size] of the packet events, in order. *)
Definition fragment_sizes (evs : list Encoder.Event) : list Z :=
  omap (λ ev, match ev with
              | Encoder.EvPacket _ _ _ _ _ size => Some size
              | _ => None
              end) evs.

(** The sum of a list of sizes. *)
Definition total_of (l : list Z) : Z := foldr Z.add 0 l.

(** The bounds that [_return_buffer] enforces on the pool. *)
Definition pool_bounded (pool : list (list byte)) : Prop :=
  (List.length pool ≤ 10)%nat
  ∧ Forall (λ buffer, Buffer.length buffer <= 64 * 1024) pool.

(** The packet carries the source ID of the decoder and a type the decoder
    accepts. *)
Definition addressed (d : Decoder.t) (packet : list byte) : Prop :=
  listens (Decoder.packet_source_id packet) (Decoder.packet_type packet) d.

(** The bounds that the header fields and the checks of [decode_packet] put
    on an accumulator: 16-bit message ID, fragment count and indices, and
    stored payloads of at most [MAX_PAYLOAD_SIZE] bytes. *)
Definition accumulator_bounded (a : Decoder.Accumulator) : Prop :=
  0 <= Decoder.message_id a <= MAX_MESSAGE_ID
  ∧ 1 <= Decoder.fragment_count a <= MAX_FRAGMENT_COUNT
  ∧ map_Forall (λ i fragment,
                  0 <= i < MAX_FRAGMENT_COUNT
                  ∧ Buffer.length fragment <= MAX_PAYLOAD_SIZE)
      (Decoder.fragments a).

(** The accumulators are filed under types of 6 bits that the decoder
    accepts. *)
Definition keys_accepted (d : Decoder.t) : Prop :=
  ∀ T, is_Some (Decoder._accumulators d !! T) →
       0 <= T < MAX_PACKET_TYPES
       ∧ match Decoder.message_types d with
         | Some types => T ∈ types
         | None => True
         end.

(** A [message] event carries a Buffer of [total_bytes] bytes and is followed
    at once by the [message_complete] event of the same message, which never
    comes otherwise. *)
Inductive paired : list Decoder.Event → Prop :=
| paired_nil : paired []
| paired_message b T id c n rest :
    Buffer.length b = n → paired rest →
    paired (Decoder.EvMessage b T id c n
            :: Decoder.EvMessageComplete T id c n :: rest)
| paired_other ev rest :
    match ev with
    | Decoder.EvMessage _ _ _ _ _ | Decoder.EvMessageComplete _ _ _ _ => False
    | _ => True
    end →
    paired rest → paired (ev :: rest).

(** No message of type [T] is in flight, or one that message [id] is newer
    than. *)
Definition vacant (T id : Z) (d : Decoder.t) : Prop :=
  match Decoder._accumulators d !! T with
  | None => True
  | Some old => Decoder._is_newer_message id (Decoder.message_id old) = true
  end.

(** The events that come before the first [fragment_received] of a new
    message: the notice for the message it replaces, if any, and the start. *)
Definition prelude (T id cnt : Z) (d : Decoder.t) : list Decoder.Event :=
  match Decoder._accumulators d !! T with
  | None => [Decoder.EvMessageStart T id cnt]
  | Some old =>
      [Decoder.EvMessageIncomplete T (Decoder.message_id old)
         (Decoder.fragments_received old) (Decoder.fragment_count old);
       Decoder.EvMessageStart T id cnt]
  end.

(** The decoder has received the fragments of [msg] with index in [D] and
    nothing else of message [id]. *)
Definition gathering (src T id : Z) (msg : list byte) (d : Decoder.t)
    (D : list Z) : Prop :=
  listens src T d
  ∧ match D with
    | [] => vacant T id d
    | _ => ∃ a, Decoder._accumulators d !! T = Some a ∧ holds id msg a D
    end.

Definition overture (T id cnt : Z) (d : Decoder.t) (D : list Z)
    : list Decoder.Event :=
  match D with [] => prelude T id cnt d | _ => [] end.

(** Whether a message of [cnt] fragments and [len] bytes is reassembled on a
    later turn of the event loop. *)
Definition reassembly_deferred (cnt len : Z) : bool :=
  (cnt >? 100) || (len >? 64 * 1024).

(** Two decoders with the same configuration and the same accumulators for
    every type but [T]. *)
Definition same_elsewhere (T : Z) (d d' : Decoder.t) : Prop :=
  Decoder.source_id d' = Decoder.source_id d
  ∧ Decoder.message_types d' = Decoder.message_types d
  ∧ ∀ T', T' ≠ T →
          Decoder._accumulators d' !! T' = Decoder._accumulators d !! T'.

(** The elements of [ks] that occur in [seen] or earlier in [ks], in
    order: the fragment indices that arrive a second time. *)
Fixpoint repeats (seen ks : list Z) : list Z :=
  match ks with
  | [] => []
  | k :: ks =>
      if decide (k ∈ seen) then k :: repeats seen ks
      else repeats (k :: seen) ks
  end.

(** The packets of a list of messages of one type that the encoder encodes
    one after the other, message by message. *)
Fixpoint send_all (e : Encoder.t) (messages : list (list byte)) (T : Z)
    : list (list (list byte)) :=
  match messages with
  | [] => []
  | message_buffer :: rest =>
      let '(_, evs, e) := Encoder.encode e (JsBuffer message_buffer) T false in
      Encoder.packets evs :: send_all e rest T
  end.

(** What [completed] shows when the messages arrive one after the other,
    numbered from [id] on. *)
Fixpoint expected_messages (id T : Z) (messages : list (list byte))
    : list (list byte * Z * Z * Z * Z) :=
  match messages with
  | [] => []
  | message_buffer :: rest =>
      (message_buffer, T, id,
       Encoder.fragment_count_of (Buffer.length message_buffer),
       Buffer.length message_buffer)
      :: expected_messages ((id + 1) mod 0x10000) T rest
  end.

(** The arrival of the packets of each message in turn, each followed by a
    turn of the event loop. *)
Definition arrival (deliveries : list (list (list byte)))
    : list Decoder.Action :=
  concat ((λ delivered, (Decoder.Accept <$> delivered) ++ [Decoder.Turn])
          <$> deliveries).

(** The packets whose type field reads [T], in order. *)
Definition of_type (T : Z) (packets : list (list byte)) : list (list byte) :=
  filter (λ packet, Decoder.packet_type packet = T) packets.

(** The completed messages of type [T] among the events, in order. *)
Definition completed_of (T : Z) (evs : list Decoder.Event)
    : list (list byte * Z * Z * Z * Z) :=
  filter (λ message, message.1.1.1.2 = T) (Decoder.completed evs).

(** Two decoders with the same configuration and the same accumulator, or
    none, for type [T]. *)
Definition same_at (T : Z) (d d' : Decoder.t) : Prop :=
  Decoder.source_id d' = Decoder.source_id d
  ∧ Decoder.message_types d' = Decoder.message_types d
  ∧ Decoder._accumulators d' !! T = Decoder._accumulators d !! T.
(** * Properties *)
Import Decoder.

Local Arguments byte.of_Z : simpl never.
Local Arguments Z.shiftr : simpl never.
Local Arguments Z.shiftl : simpl never.
Local Arguments Z.land : simpl never.
Local Arguments Z.lor : simpl never.

(** ** Buffers *)

Lemma blit_length src target off :
  List.length (Buffer.blit src target off) = List.length target.
Proof.
  unfold Buffer.blit. rewrite !length_app, !length_take, length_drop. lia.
Qed.

Lemma blit_app (prefix src rest : list byte) :
  (List.length src ≤ List.length rest)%nat →
  Buffer.blit src (prefix ++ rest) (List.length prefix)
  = prefix ++ src ++ drop (List.length src) rest.
Proof.
  intros H. unfold Buffer.blit.
  rewrite length_app.
  replace (List.length prefix + List.length rest - List.length prefix)%nat
    with (List.length rest) by lia.
  rewrite (take_ge src) by lia.
  rewrite take_app_length.
  rewrite drop_app_add'; [|done]. done.
Qed.

Lemma copy_whole (fragment prefix rest : list byte) :
  (List.length fragment ≤ List.length rest)%nat →
  Buffer.copy fragment (prefix ++ rest) (Buffer.length prefix) 0
    (Buffer.length fragment)
  = Some ((prefix ++ fragment) ++ drop (List.length fragment) rest).
Proof.
  intros H. unfold Buffer.copy, Buffer.length.
  replace (_ || _ || _ || _) with false.
  2: { symmetry. rewrite !orb_false_iff, !Z.ltb_ge, Z.gtb_ltb, Z.ltb_ge. lia. }
  rewrite Z.sub_0_r, !Nat2Z.id. simpl. rewrite (take_ge fragment) by lia.
  rewrite blit_app by done. by rewrite <- app_assoc.
Qed.

Lemma writeUIntLE_ok width b value offset :
  0 <= value < 2 ^ (8 * Z.of_nat width) →
  0 <= offset → offset + Z.of_nat width <= Buffer.length b →
  Buffer.writeUIntLE width b value offset
  = Some (Buffer.blit (le_split width value) b (Z.to_nat offset)).
Proof.
  intros. unfold Buffer.writeUIntLE.
  replace (_ && _ && _ && _) with true; [done|].
  symmetry. rewrite !andb_true_iff, !Z.leb_le, Z.ltb_lt. lia.
Qed.

Lemma write_next width (written rest : list byte) value offset :
  offset = Buffer.length written →
  0 <= value < 2 ^ (8 * Z.of_nat width) →
  (width ≤ List.length rest)%nat →
  Buffer.writeUIntLE width (written ++ rest) value offset
  = Some ((written ++ le_split width value) ++ drop width rest).
Proof.
  intros -> Hv Hw. unfold Buffer.length.
  rewrite writeUIntLE_ok; [|done|lia|].
  - rewrite Nat2Z.id, blit_app by (rewrite length_le_split; lia).
    by rewrite length_le_split, <- app_assoc.
  - unfold Buffer.length. rewrite length_app. lia.
Qed.

Lemma readUIntLE_eq width p offset v :
  take width (drop (Z.to_nat offset) p) = le_split width v →
  Buffer.readUIntLE width p offset = v mod 2 ^ (Z.of_nat width * 8).
Proof.
  intros H. unfold Buffer.readUIntLE.
  assert (width ≤ List.length (drop (Z.to_nat offset) p))%nat.
  { apply (f_equal List.length) in H.
    rewrite length_take, length_le_split in H. lia. }
  rewrite take_app_le by done. rewrite H. apply le_combine_split.
Qed.

(** ** Bit fields of the second header byte *)

Lemma land_63_range t : 0 <= Z.land t 0x3F < 64.
Proof.
  change 0x3F with (Z.ones 6). rewrite Z.land_ones by lia.
  apply Z.mod_pos_bound. lia.
Qed.

Lemma land_63_id message_type :
  0 <= message_type <= 63 → Z.land message_type 0x3F = message_type.
Proof.
  intros. change 0x3F with (Z.ones 6). rewrite Z.land_ones by lia.
  apply Z.mod_small. lia.
Qed.

Lemma version_and_type_bits version message_type :
  0 <= version <= 3 →
  let b := Z.lor (Z.shiftl version 6) (Z.land message_type 0x3F) in
  0 <= b < 256 ∧ Z.land (Z.shiftr b 6) 0x03 = version
  ∧ Z.land b 0x3F = Z.land message_type 0x3F.
Proof.
  intros Hv. simpl.
  assert (version = Z.land version (Z.ones 2)) as ->.
  { rewrite Z.land_ones by lia. rewrite Z.mod_small; lia. }
  change 3 with (Z.ones 2). change 63 with (Z.ones 6).
  split_and!.
  - apply Z.lor_nonneg. split.
    + apply Z.shiftl_nonneg. apply Z.land_nonneg. right. done.
    + apply Z.land_nonneg. right. done.
  - match goal with |- ?x < _ => assert (x = Z.land x (Z.ones 8)) as -> end.
    { Z.bitblast. }
    rewrite (Z.land_ones _ 8) by lia. apply Z.mod_pos_bound. lia.
  - Z.bitblast.
  - Z.bitblast.
Qed.

(** ** Arithmetic of message IDs *)

Lemma is_newer_spec (a b : Z) :
  _is_newer_message a b = true ↔ 0 < (a - b) mod 65536 < 32768.
Proof.
  unfold _is_newer_message.
  change 0xFFFF with (Z.ones 16).
  rewrite Z.land_ones by lia.
  change (2 ^ 16) with 65536.
  rewrite andb_true_iff, !Z.ltb_lt. reflexivity.
Qed.

Lemma is_newer_false (a b : Z) :
  _is_newer_message a b = false ↔
  (a - b) mod 65536 = 0 ∨ 32768 <= (a - b) mod 65536.
Proof.
  pose proof (is_newer_spec a b) as H.
  pose proof (Z.mod_pos_bound (a - b) 65536 eq_refl).
  destruct (_is_newer_message a b).
  - split; [discriminate|]. intros. assert (true = true) as E by reflexivity.
    apply H in E. lia.
  - split; [|reflexivity]. intros _.
    destruct (decide (0 < (a - b) mod 65536 < 32768)) as [E|E]; [|lia].
    apply H in E. discriminate.
Qed.

(** The distance from [b] to [a] and the distance from [a] to [b] add up to
    the size of the ID space, unless both are zero. *)
Lemma circular_distance_sym (a b : Z) :
  (a - b) mod 65536 ≠ 0 →
  (b - a) mod 65536 = 65536 - (a - b) mod 65536.
Proof.
  intros H.
  pose proof (Z.mod_pos_bound (a - b) 65536 eq_refl).
  pose proof (Z.mod_pos_bound (b - a) 65536 eq_refl).
  pose proof (Z.div_mod (a - b) 65536 ltac:(lia)).
  pose proof (Z.div_mod (b - a) 65536 ltac:(lia)).
  lia.
Qed.

Lemma is_newer_irrefl id : _is_newer_message id id = false.
Proof.
  unfold _is_newer_message. rewrite Z.sub_diag. reflexivity.
Qed.

Lemma is_newer_asym a b :
  _is_newer_message a b = true → _is_newer_message b a = false.
Proof.
  rewrite is_newer_spec, is_newer_false. intros H.
  rewrite (circular_distance_sym a b) by lia. lia.
Qed.

(** ** The encoder *)

Lemma get_buffer_ok pool size :
  0 <= size →
  ∃ b pool', Encoder._get_buffer pool size = Some (b, pool')
             ∧ Buffer.length b = size.
Proof.
  intros Hs. induction pool as [|buffer rest IH]; simpl.
  - unfold Buffer.allocUnsafe.
    replace (size <? 0) with false by (symmetry; apply Z.ltb_ge; lia).
    simpl. eexists _, _. split; [done|].
    unfold Buffer.length. rewrite length_replicate. lia.
  - destruct (Buffer.length buffer >=? size) eqn:E.
    + eexists _, _. split; [done|].
      destruct (size =? Buffer.length buffer) eqn:E'.
      * apply Z.eqb_eq in E'. done.
      * rewrite Z.geb_leb in E. apply Z.leb_le in E.
        unfold Buffer.subarray, Buffer.clamp_index, Buffer.length in *.
        replace (0 <? 0) with false by done.
        replace (size <? 0) with false by (symmetry; apply Z.ltb_ge; lia).
        rewrite length_take, length_drop. lia.
    + destruct IH as (b & pool' & -> & Hb). simpl. by eexists _, _.
Qed.

Lemma fragment_payload_eq message_buffer k :
  0 <= k → k * MAX_PAYLOAD_SIZE <= Buffer.length message_buffer →
  let frag_start := k * MAX_PAYLOAD_SIZE in
  let frag_end :=
    Z.min (frag_start + MAX_PAYLOAD_SIZE) (Buffer.length message_buffer) in
  fragment_payload message_buffer k
  = take (Z.to_nat (frag_end - frag_start))
      (drop (Z.to_nat frag_start) message_buffer)
  ∧ Buffer.length (fragment_payload message_buffer k) = frag_end - frag_start.
Proof.
  intros Hk Hle. simpl.
  assert (fragment_payload message_buffer k
          = take (Z.to_nat (Z.min (k * MAX_PAYLOAD_SIZE + MAX_PAYLOAD_SIZE)
                              (Buffer.length message_buffer)
                            - k * MAX_PAYLOAD_SIZE))
              (drop (Z.to_nat (k * MAX_PAYLOAD_SIZE)) message_buffer)) as E.
  { unfold fragment_payload, Buffer.subarray, Buffer.clamp_index.
    unfold MAX_PAYLOAD_SIZE in *.
    replace (k * 1200 <? 0) with false by (symmetry; apply Z.ltb_ge; lia).
    replace (_ <? 0) with false by (symmetry; apply Z.ltb_ge; lia).
    do 2 f_equal; lia. }
  split; [done|]. rewrite E. unfold Buffer.length in *.
  rewrite length_take, length_drop. unfold MAX_PAYLOAD_SIZE in *. lia.
Qed.

Lemma fragment_payload_chunk msg k :
  0 <= k →
  fragment_payload msg k
  = take (Z.to_nat MAX_PAYLOAD_SIZE) (drop (Z.to_nat (k * MAX_PAYLOAD_SIZE)) msg).
Proof.
  intros Hk.
  unfold fragment_payload, Buffer.subarray, Buffer.clamp_index, Buffer.length.
  unfold MAX_PAYLOAD_SIZE.
  replace (k * 1200 <? 0) with false by (symmetry; apply Z.ltb_ge; lia).
  replace (_ <? 0) with false by (symmetry; apply Z.ltb_ge; lia).
  set (len := Z.of_nat (List.length msg)).
  assert (len = Z.of_nat (List.length msg)) as Hlen by done.
  destruct (decide (k * 1200 <= len)) as [Hle|Hgt].
  - replace (Z.min (k * 1200) len) with (k * 1200) by lia.
    destruct (decide ((k + 1) * 1200 <= len)).
    + replace (Z.min (Z.min ((k + 1) * 1200) len) len - k * 1200)
        with 1200 by lia.
      done.
    + replace (Z.min (Z.min ((k + 1) * 1200) len) len) with len by lia.
      rewrite !take_ge; [done|rewrite length_drop; lia|rewrite length_drop; lia].
  - rewrite !drop_ge by lia. by rewrite !take_nil.
Qed.

Lemma write_packet_ok source_id message_buffer packet_buffer
    message_type message_id fragment_count fragment_index frag_start frag_end :
  0 <= source_id < 2 ^ 32 → 0 <= message_id < 2 ^ 16 →
  0 <= fragment_count < 2 ^ 16 → 0 <= fragment_index < 2 ^ 16 →
  0 <= frag_start <= frag_end → frag_end <= Buffer.length message_buffer →
  Buffer.length packet_buffer = 12 + (frag_end - frag_start) →
  Encoder.write_packet source_id message_buffer packet_buffer message_type
    message_id fragment_count fragment_index frag_start frag_end
  = Some (wire_header VERSION message_type message_id fragment_index
            fragment_count source_id
          ++ take (Z.to_nat (frag_end - frag_start))
               (drop (Z.to_nat frag_start) message_buffer)).
Proof.
  intros Hs Hm Hc Hi Hf He Hlen.
  pose proof (land_63_range message_type) as Ht.
  unfold Buffer.length in Hlen, He.
  unfold Encoder.write_packet.
  unfold Buffer.writeUInt8, Buffer.writeUInt16LE, Buffer.writeUInt32LE.
  change packet_buffer with ([] ++ packet_buffer) at 1.
  rewrite write_next; [|done|done|lia]. cbn [mbind option_bind].
  rewrite write_next; [|done| |rewrite length_drop; lia].
  2: { change (Z.shiftl VERSION 6) with 0. rewrite Z.lor_0_l.
       change (2 ^ _) with 256. lia. }
  cbn [mbind option_bind].
  rewrite write_next; [|done|done|rewrite !length_drop; lia].
  cbn [mbind option_bind].
  rewrite write_next; [|done|done|rewrite !length_drop; lia].
  cbn [mbind option_bind].
  rewrite write_next; [|done|done|rewrite !length_drop; lia].
  cbn [mbind option_bind].
  rewrite write_next; [|done|done|rewrite !length_drop; lia].
  cbn [mbind option_bind].
  unfold Buffer.copy.
  replace (_ || _ || _ || _) with false.
  2: { symmetry. rewrite !orb_false_iff, !Z.ltb_ge, Z.gtb_ltb, Z.ltb_ge. unfold Buffer.length. lia. }
  f_equal.
  match goal with
  | |- Buffer.blit ?src (?H ++ ?T) _ = _ =>
      change (Z.to_nat 12) with (List.length H);
      rewrite (blit_app H src T), ?(drop_ge T)
  end.
  - rewrite app_nil_r. unfold wire_header. by rewrite <- !app_assoc.
  - rewrite !length_drop, length_take, length_drop. lia.
  - rewrite !length_drop, length_take, length_drop. lia.
Qed.

Lemma fragment_loop_ok source_id message_buffer message_type message_id
    fragment_count (n : nat) :
  0 <= source_id < 2 ^ 32 → 0 <= message_id < 2 ^ 16 →
  0 <= fragment_count < 2 ^ 16 →
  ∀ i pool,
  (∀ k, i <= k < i + Z.of_nat n →
        0 <= k < 2 ^ 16 ∧ k * MAX_PAYLOAD_SIZE <= Buffer.length message_buffer) →
  ∃ pool',
    Encoder.fragment_loop source_id pool message_buffer message_type message_id
      fragment_count i n
    = (expected_event source_id message_buffer message_type message_id
         fragment_count <$> seqZ i (Z.of_nat n), pool', true).
Proof.
  intros Hs Hm Hc. induction n as [|n IH]; intros i pool Hk.
  - simpl. by eexists.
  - rewrite seqZ_cons by lia.
    replace (Z.pred (Z.of_nat (S n))) with (Z.of_nat n) by lia.
    destruct (Hk i ltac:(lia)) as [Hi Hle].
    destruct (fragment_payload_eq message_buffer i ltac:(lia) Hle) as [Ep El].
    simpl in Ep, El.
    cbn [Encoder.fragment_loop].
    destruct (get_buffer_ok pool
                (12 + (Z.min (i * MAX_PAYLOAD_SIZE + MAX_PAYLOAD_SIZE)
                         (Buffer.length message_buffer) - i * MAX_PAYLOAD_SIZE)))
      as (b & pool1 & -> & Hb).
    { unfold MAX_PAYLOAD_SIZE in *. lia. }
    rewrite write_packet_ok; try done.
    2,3: unfold MAX_PAYLOAD_SIZE in *; lia.
    destruct (IH (i + 1) pool1) as [pool' E].
    { intros. apply Hk. lia. }
    rewrite E. exists pool'. rewrite fmap_cons.
    replace (Z.succ i) with (i + 1) by lia.
    unfold expected_event at 2, expected_packet. by rewrite El, Ep.
Qed.

Lemma fragment_count_of_bounds len k :
  0 <= len → 0 <= k < Encoder.fragment_count_of len →
  k * MAX_PAYLOAD_SIZE <= len.
Proof.
  unfold Encoder.fragment_count_of, MAX_PAYLOAD_SIZE. intros Hl Hk.
  destruct (decide (len = 0)) as [->|Hne].
  - simpl in Hk. change ((0 + 1200 - 1) / 1200) with 0 in Hk. lia.
  - pose proof (Z.div_mod (len + 1200 - 1) 1200 ltac:(lia)).
    pose proof (Z.mod_pos_bound (len + 1200 - 1) 1200 ltac:(lia)).
    lia.
Qed.

Lemma encode_events e message_buffer message_type callback :
  encoder_ok e → 0 <= message_type <= 63 →
  Encoder.fragment_count_of (Buffer.length message_buffer) <= 0xFFFF →
  ∃ pool',
    Encoder.encode e (JsBuffer message_buffer) message_type callback
    = (Some (Encoder.message_id e),
       (expected_event (Encoder.source_id e) message_buffer message_type
          (Encoder.message_id e)
          (Encoder.fragment_count_of (Buffer.length message_buffer))
        <$> seqZ 0 (Encoder.fragment_count_of (Buffer.length message_buffer)))
       ++ Encoder.EvEncoded (Encoder.message_id e) message_type
            (Encoder.fragment_count_of (Buffer.length message_buffer))
            (Buffer.length message_buffer)
          :: (if callback
              then [Encoder.EvCallback (Encoder.message_id e) message_type
                      (Encoder.fragment_count_of (Buffer.length message_buffer))
                      (Buffer.length message_buffer)]
              else []),
       {| Encoder.source_id := Encoder.source_id e;
          Encoder.message_id := (Encoder.message_id e + 1) mod 0x10000;
          Encoder._buffer_pool := pool' |}).
Proof.
  intros [Hs Hm] Ht Hc.
  assert (1 <= Encoder.fragment_count_of (Buffer.length message_buffer)) as H1.
  { unfold Encoder.fragment_count_of. lia. }
  destruct (fragment_loop_ok (Encoder.source_id e) message_buffer message_type
              (Encoder.message_id e)
              (Encoder.fragment_count_of (Buffer.length message_buffer))
              (Z.to_nat (Encoder.fragment_count_of (Buffer.length message_buffer)))
              Hs Hm ltac:(lia) 0 (Encoder._buffer_pool e)) as [pool' E].
  { intros k Hk. split; [lia|].
    apply fragment_count_of_bounds; [unfold Buffer.length|]; lia. }
  rewrite Z2Nat.id in E by lia.
  exists pool'. unfold Encoder.encode, Encoder.encode_message.
  replace ((message_type <? 0) || (message_type >? 63)) with false.
  2: { symmetry. rewrite orb_false_iff, Z.ltb_ge, Z.gtb_ltb, Z.ltb_ge. lia. }
  replace (_ >? 0xFFFF) with false.
  2: { symmetry. rewrite Z.gtb_ltb, Z.ltb_ge. lia. }
  cbn [Encoder.run_immediate]. unfold Encoder._encode_message_async.
  cbn [Encoder.source_id Encoder.increment_message_id Encoder._buffer_pool
         Encoder.message_id].
  rewrite E. done.
Qed.

Lemma packets_expected src message_buffer message_type message_id
    fragment_count (l : list Z) (tail : list Encoder.Event) :
  Encoder.packets tail = [] →
  Encoder.packets
    ((expected_event src message_buffer message_type message_id fragment_count
      <$> l) ++ tail)
  = expected_packet src message_buffer message_type message_id fragment_count
    <$> l.
Proof.
  intros Ht. induction l as [|k l IH]; [done|].
  cbn. unfold Encoder.packets in IH. by rewrite IH.
Qed.

Lemma concat_chunks (msg : list byte) (c : nat) (n : nat) :
  (0 < c)%nat →
  ∀ i : Z, 0 <= i →
  concat ((λ k, take c (drop (Z.to_nat (k * Z.of_nat c)) msg)) <$> seqZ i (Z.of_nat n))
  = take (n * c) (drop (Z.to_nat (i * Z.of_nat c)) msg).
Proof.
  intros Hc. induction n as [|n IH]; intros i Hi.
  - done.
  - rewrite seqZ_cons by lia.
    replace (Z.pred (Z.of_nat (S n))) with (Z.of_nat n) by lia.
    rewrite fmap_cons. cbn [concat]. rewrite IH by lia.
    replace (Z.to_nat (Z.succ i * Z.of_nat c))
      with (Z.to_nat (i * Z.of_nat c) + c)%nat by lia.
    rewrite <- drop_drop. rewrite take_take_drop. done.
Qed.

Lemma concat_fragments msg :
  concat (fragment_payload msg
            <$> seqZ 0 (Encoder.fragment_count_of (Buffer.length msg)))
  = msg.
Proof.
  set (cnt := Encoder.fragment_count_of (Buffer.length msg)).
  assert (1 <= cnt) as H1 by (unfold cnt, Encoder.fragment_count_of; lia).
  assert (Buffer.length msg <= cnt * 1200) as Hlen.
  { unfold cnt, Encoder.fragment_count_of, MAX_PAYLOAD_SIZE.
    pose proof (Z.div_mod (Buffer.length msg + 1200 - 1) 1200 ltac:(lia)).
    pose proof (Z.mod_pos_bound (Buffer.length msg + 1200 - 1) 1200 ltac:(lia)).
    lia. }
  transitivity
    (concat ((λ k, take 1200 (drop (Z.to_nat (k * Z.of_nat 1200%nat)) msg))
               <$> seqZ 0 (Z.of_nat (Z.to_nat cnt)))).
  - rewrite Z2Nat.id by lia. f_equal. apply list_fmap_ext.
    intros j k Hk. apply list_elem_of_lookup_2, elem_of_seqZ in Hk.
    rewrite fragment_payload_chunk by lia. done.
  - rewrite concat_chunks by lia.
    change (Z.to_nat (0 * Z.of_nat 1200)) with 0%nat. rewrite drop_0.
    rewrite take_ge; [done|]. unfold Buffer.length in Hlen. lia.
Qed.

(** ** The decoder: filters and header *)

Lemma decode_packet_accepted d p :
  accepted d p = true →
  decode_packet d p =
  accumulate d (packet_type p) (packet_message_id p) (packet_fragment_index p)
    (packet_fragment_count p) (packet_payload p).
Proof.
  unfold accepted. rewrite !andb_true_iff, !negb_true_iff.
  rewrite !Z.leb_le, !Z.eqb_eq, Z.ltb_lt, Z.eqb_neq.
  intros [[[[[[[[H1 H2] H3] H4] H5] H6] H7] H8] H9].
  unfold decode_packet.
  fold (packet_version p) (packet_type p) (packet_message_id p)
    (packet_fragment_index p) (packet_fragment_count p) (packet_source_id p)
    (packet_payload p).
  rewrite H2, H4, H5, !Z.eqb_refl. simpl.
  replace (Buffer.length p <? 1) with false by (symmetry; apply Z.ltb_ge; lia).
  replace (Buffer.length p <? 12) with false by (symmetry; apply Z.ltb_ge; lia).
  simpl.
  replace (packet_fragment_index p >=? packet_fragment_count p) with false
    by (symmetry; rewrite Z.geb_leb; apply Z.leb_gt; lia).
  replace (packet_fragment_count p =? 0) with false
    by (symmetry; apply Z.eqb_neq; lia).
  replace (Buffer.length (packet_payload p) >? MAX_PAYLOAD_SIZE) with false
    by (symmetry; rewrite Z.gtb_ltb; apply Z.ltb_ge; lia).
  simpl.
  destruct (message_types d); [|reflexivity].
  rewrite H6. reflexivity.
Qed.

Lemma decode_packet_rejected d p :
  accepted d p = false →
  returned (decode_packet d p) = false ∧ after (decode_packet d p) = d
  ∧ deferred (decode_packet d p) = []
  ∧ (emitted (decode_packet d p) = []
     ∨ ∃ e, emitted (decode_packet d p) = [EvError e]
            ∧ (e = PacketTooShort ∨ (∃ v, e = UnsupportedVersion v)
               ∨ ∃ i c s, e = InvalidFragment i c s)).
Proof.
  unfold decode_packet, accepted.
  fold (packet_version p) (packet_type p) (packet_message_id p)
    (packet_fragment_index p) (packet_fragment_count p) (packet_source_id p)
    (packet_payload p).
  rewrite Z.geb_leb, Z.gtb_ltb, !Z.ltb_antisym.
  destruct (1 <=? Buffer.length p); [|intros _; split_and!; try done; by left].
  destruct (Buffer.readUInt8 p 0 =? MAGIC_BYTE); [|intros _; split_and!; try done; by left].
  destruct (12 <=? Buffer.length p); [|intros _; cbn; split_and!; eauto 10].
  destruct (packet_version p =? VERSION); [|intros _; cbn; split_and!; eauto 10].
  destruct (packet_source_id p =? source_id d); [|intros _; split_and!; try done; by left].
  destruct (match message_types d with
            | Some types => negb (bool_decide (packet_type p ∈ types))
            | None => false end) eqn:E.
  { intros _; split_and!; try done; by left. }
  replace (match message_types d with
            | Some types => bool_decide (packet_type p ∈ types)
            | None => true end) with true.
  2: { destruct (message_types d); [|done]. by apply negb_false_iff in E. }
  destruct (packet_fragment_count p <=? packet_fragment_index p);
    [intros _; cbn; split_and!; eauto 10|].
  destruct (packet_fragment_count p =? 0); [intros _; cbn; split_and!; eauto 10|].
  destruct (Buffer.length (packet_payload p) <=? MAX_PAYLOAD_SIZE);
    [|intros _; cbn; split_and!; eauto 10].
  simpl. discriminate.
Qed.

Lemma header_fields version message_type message_id fragment_index
    fragment_count source_id payload :
  0 <= version <= 3 →
  0 <= message_id < 2 ^ 16 → 0 <= fragment_index < 2 ^ 16 →
  0 <= fragment_count < 2 ^ 16 → 0 <= source_id < 2 ^ 32 →
  let p := wire_header version message_type message_id fragment_index
             fragment_count source_id ++ payload in
  Buffer.length p = 12 + Buffer.length payload
  ∧ Buffer.readUInt8 p 0 = MAGIC_BYTE
  ∧ packet_version p = version
  ∧ packet_type p = Z.land message_type 0x3F
  ∧ packet_message_id p = message_id
  ∧ packet_fragment_index p = fragment_index
  ∧ packet_fragment_count p = fragment_count
  ∧ packet_source_id p = source_id
  ∧ packet_payload p = payload.
Proof.
  intros Hv Hm Hi Hc Hs p.
  destruct (version_and_type_bits version message_type Hv) as (Hb & Ev & Et).
  assert (Buffer.readUInt8 p 1
          = Z.lor (Z.shiftl version 6) (Z.land message_type 0x3F)) as E1.
  { unfold Buffer.readUInt8.
    rewrite (readUIntLE_eq 1 p 1 (Z.lor (Z.shiftl version 6) (Z.land message_type 0x3F)))
      by done.
    by apply Z.mod_small. }
  unfold packet_version, packet_type, packet_message_id, packet_fragment_index,
    packet_fragment_count, packet_source_id, packet_payload.
  rewrite E1.
  unfold Buffer.readUInt8, Buffer.readUInt16LE, Buffer.readUInt32LE.
  split_and!; try done.
  - unfold Buffer.length, p. rewrite length_app. simpl. lia.
  - rewrite (readUIntLE_eq 2 p 2 message_id) by done. by apply Z.mod_small.
  - rewrite (readUIntLE_eq 2 p 4 fragment_index) by done. by apply Z.mod_small.
  - rewrite (readUIntLE_eq 2 p 6 fragment_count) by done. by apply Z.mod_small.
  - rewrite (readUIntLE_eq 4 p 8 source_id) by done. by apply Z.mod_small.
  - unfold Buffer.subarray_from, Buffer.subarray, Buffer.clamp_index.
    assert (Buffer.length p = 12 + Buffer.length payload) as ->.
    { unfold Buffer.length, p. rewrite length_app. simpl. lia. }
    replace (12 <? 0) with false by done.
    replace (_ <? 0) with false
      by (symmetry; apply Z.ltb_ge; unfold Buffer.length; lia).
    rewrite Z.min_id, Z.min_l by (unfold Buffer.length; lia).
    replace (12 + Buffer.length payload - 12) with (Buffer.length payload) by lia.
    unfold Buffer.length. rewrite Nat2Z.id. unfold p.
    change (Z.to_nat 12) with (List.length (wire_header version message_type
      message_id fragment_index fragment_count source_id)).
    rewrite drop_app_length. by rewrite take_ge.
Qed.

(** ** The decoder: one accumulator at a time *)

Lemma reset_lookup_ne d T T' :
  T' ≠ T →
  _accumulators (reset_message_state d (Some T)) !! T' = _accumulators d !! T'.
Proof. intros. simpl. by rewrite lookup_delete_ne. Qed.

Lemma reset_lookup_eq d T :
  _accumulators (reset_message_state d (Some T)) !! T = None.
Proof. simpl. by rewrite lookup_delete_eq. Qed.

Lemma reassemble_frame d T id T' :
  T' ≠ T →
  _accumulators (_reassemble_message d T id).2 !! T' = _accumulators d !! T'.
Proof.
  intros. unfold _reassemble_message.
  repeat case_match; simpl; try done; by rewrite lookup_delete_ne.
Qed.

Lemma reassemble_config d T id :
  source_id (_reassemble_message d T id).2 = source_id d
  ∧ message_types (_reassemble_message d T id).2 = message_types d.
Proof. unfold _reassemble_message. by repeat case_match. Qed.

Lemma accumulate_frame d T id idx cnt payload T' :
  T' ≠ T →
  _accumulators (after (accumulate d T id idx cnt payload)) !! T'
  = _accumulators d !! T'.
Proof.
  intros. unfold accumulate.
  repeat case_match; simplify_eq/=;
    rewrite ?lookup_delete_ne, ?lookup_insert_ne by done; try done.
  all: match goal with
       | H : _reassemble_message ?d ?T ?id = (_, ?d') |- _ =>
           change d' with (_reassemble_message d T id).2 || 
           (replace d' with (_reassemble_message d T id).2 by (by rewrite H))
       end; rewrite reassemble_frame by done; simpl;
       by rewrite ?lookup_insert_ne by done.
Qed.

Lemma with_accumulators_twice d m1 m2 :
  with_accumulators (with_accumulators d m1) m2 = with_accumulators d m2.
Proof. reflexivity. Qed.

Lemma accumulate_entry d T id idx cnt payload evs a :
  entry d T id cnt evs a →
  fragments a !! idx = None →
  accumulate d T id idx cnt payload
  = stored d T id idx cnt evs (store a idx payload).
Proof.
  intros He Hn. unfold accumulate, stored.
  destruct He as [Hl|old Hl Hnew|a Hl Hid].
  - rewrite Hl. rewrite Z.eqb_refl. cbn [negb].
    rewrite Hn. rewrite bool_decide_eq_false_2 by (by intros []).
    rewrite with_accumulators_twice.
    cbn [_accumulators with_accumulators].
    rewrite insert_insert_eq.
    by destruct (_reassemble_message _ _ _).
  - rewrite Hl. rewrite (is_newer_asym _ _ Hnew), Hnew.
    rewrite Z.eqb_refl. cbn [negb].
    rewrite Hn. rewrite bool_decide_eq_false_2 by (by intros []).
    rewrite with_accumulators_twice.
    cbn [_accumulators with_accumulators].
    rewrite insert_insert_eq.
    by destruct (_reassemble_message _ _ _).
  - rewrite Hl. subst id. rewrite !is_newer_irrefl.
    rewrite Z.eqb_refl. cbn [negb].
    rewrite Hn. rewrite bool_decide_eq_false_2 by (by intros []).
    by destruct (_reassemble_message _ _ _).
Qed.

(** ** The decoder: what every accumulator satisfies *)

Lemma total_length_insert m i b :
  m !! i = None → total_length (<[i := b]> m) = total_length m + Buffer.length b.
Proof.
  intros. unfold total_length. rewrite map_fold_insert_L; [done| |done].
  intros. lia.
Qed.

Lemma total_length_empty : total_length ∅ = 0.
Proof. reflexivity. Qed.

Section PerAccumulator.
Variable P : Accumulator → Prop.

Lemma reset_Forall d T :
  map_Forall (λ _, P) (_accumulators d) →
  map_Forall (λ _, P) (_accumulators (reset_message_state d T)).
Proof.
  intros H. destruct T; simpl.
  - by apply map_Forall_delete.
  - apply map_Forall_empty.
Qed.

Lemma reassemble_Forall d T id :
  map_Forall (λ _, P) (_accumulators d) →
  map_Forall (λ _, P) (_accumulators (_reassemble_message d T id).2).
Proof.
  intros H. unfold _reassemble_message.
  repeat case_match; simpl; try done; by apply map_Forall_delete.
Qed.

Lemma accumulate_Forall d T id idx cnt payload :
  map_Forall (λ _, P) (_accumulators d) →
  (∀ a, a = fresh_accumulator id cnt
        ∨ (_accumulators d !! T = Some a ∧ P a ∧ message_id a = id) →
        fragments a !! idx = None →
        fragments_received (store a idx payload) <= fragment_count a →
        P (store a idx payload)) →
  map_Forall (λ _, P) (_accumulators (after (accumulate d T id idx cnt payload))).
Proof.
  intros H HP. unfold accumulate.
  destruct (_accumulators d !! T) as [a|] eqn:Ha.
  - destruct (_is_newer_message (message_id a) id); [done|].
    destruct (_is_newer_message id (message_id a)).
    + rewrite Z.eqb_refl. simpl.
      rewrite insert_insert_eq.
      destruct (_ >? _) eqn:E.
      { simpl. rewrite delete_insert_eq. by apply map_Forall_delete. }
      assert (P (store (fresh_accumulator id cnt) idx payload)).
      { apply HP; [by left|done|]. simpl in *. lia. }
      repeat case_match; simplify_eq/=; try by apply map_Forall_insert_2.
      match goal with
      | H : _reassemble_message ?d ?T ?id = (_, ?d') |- _ =>
          replace d' with (_reassemble_message d T id).2 by (by rewrite H)
      end.
      apply reassemble_Forall. simpl. by apply map_Forall_insert_2.
    + destruct (id =? message_id a) eqn:Eid; [|done]. simpl.
      apply Z.eqb_eq in Eid.
      case_bool_decide as Hdup; [done|].
      assert (fragments a !! idx = None) as Hnone.
      { by destruct (fragments a !! idx); [exfalso; apply Hdup|]. }
      destruct (_ >? _) eqn:E.
      { simpl. rewrite delete_insert_eq. by apply map_Forall_delete. }
      assert (P (store a idx payload)).
      { apply HP; [right; split_and!; try done; by eapply (map_Forall_lookup_1 _ _ _ _ H)|done|].
        simpl in *. lia. }
      repeat case_match; simplify_eq/=; try by apply map_Forall_insert_2.
      match goal with
      | H : _reassemble_message ?d ?T ?id = (_, ?d') |- _ =>
          replace d' with (_reassemble_message d T id).2 by (by rewrite H)
      end.
      apply reassemble_Forall. simpl. by apply map_Forall_insert_2.
  - rewrite Z.eqb_refl. simpl.
    rewrite insert_insert_eq.
    destruct (_ >? _) eqn:E.
    { simpl. rewrite delete_insert_eq. by apply map_Forall_delete. }
    assert (P (store (fresh_accumulator id cnt) idx payload)).
    { apply HP; [by left|done|]. simpl in *. lia. }
    repeat case_match; simplify_eq/=; try by apply map_Forall_insert_2.
    match goal with
    | H : _reassemble_message ?d ?T ?id = (_, ?d') |- _ =>
        replace d' with (_reassemble_message d T id).2 by (by rewrite H)
    end.
    apply reassemble_Forall. simpl. by apply map_Forall_insert_2.
Qed.
End PerAccumulator.

Lemma store_ok a idx payload :
  accumulator_ok a ∨ (fragments a = ∅ ∧ fragments_received a = 0 ∧ message_len a = 0) →
  fragments a !! idx = None →
  fragments_received (store a idx payload) <= fragment_count a →
  accumulator_ok (store a idx payload).
Proof.
  intros H Hn Hle. unfold accumulator_ok. simpl.
  rewrite map_size_insert_None, total_length_insert by done.
  destruct H as [(?&?&?)|(E&?&?)].
  - simpl in Hle. lia.
  - simpl in Hle. rewrite E in *. rewrite map_size_empty, total_length_empty. lia.
Qed.

Lemma accumulate_ok d T id idx cnt payload :
  decoder_ok d → decoder_ok (after (accumulate d T id idx cnt payload)).
Proof.
  intros H. apply accumulate_Forall; [done|].
  intros a [->|(?&?&?)] ??; apply store_ok; auto.
Qed.

(** ** Reassembly *)

Lemma reassemble_loop_full (m : gmap Z (list byte)) (n : nat) :
  ∀ (i : Z) (prefix rest : list byte),
  (∀ k, i <= k < i + Z.of_nat n → is_Some (m !! k)) →
  List.length rest = List.length (in_order m i (Z.of_nat n)) →
  reassemble_loop m (prefix ++ rest) (Buffer.length prefix) i n
  = inr (prefix ++ in_order m i (Z.of_nat n)).
Proof.
  induction n as [|n IH]; intros i prefix rest Hall Hlen.
  - simpl in *. destruct rest; [|done]. done.
  - unfold in_order in *. rewrite seqZ_cons in * by lia.
    replace (Z.pred (Z.of_nat (S n))) with (Z.of_nat n) in * by lia.
    rewrite fmap_cons in *. simpl in Hlen |- *.
    destruct (Hall i ltac:(lia)) as [fragment Hi]. rewrite Hi in *. simpl in *.
    rewrite length_app in Hlen.
    rewrite copy_whole by lia.
    replace (Buffer.length prefix + Buffer.length fragment)
      with (Buffer.length (prefix ++ fragment))
      by (unfold Buffer.length; rewrite length_app; lia).
    replace (i + 1) with (Z.succ i) by lia.
    rewrite IH.
    + by rewrite <- app_assoc.
    + intros. apply Hall. lia.
    + rewrite length_drop. unfold in_order. lia.
Qed.

Lemma total_length_in_order (l : list Z) :
  ∀ m : gmap Z (list byte),
  NoDup l → (∀ k, is_Some (m !! k) ↔ k ∈ l) →
  total_length m
  = Z.of_nat (List.length (concat ((λ i, default [] (m !! i)) <$> l))).
Proof.
  induction l as [|i l IH]; intros m Hnd Hdom.
  - assert (m = ∅) as ->.
    { apply map_empty. intros k. apply eq_None_not_Some. rewrite Hdom.
      apply not_elem_of_nil. }
    done.
  - apply NoDup_cons in Hnd as [Hi Hnd].
    destruct (proj2 (Hdom i) ltac:(left)) as [b Hb].
    rewrite <- (insert_delete_id m i b Hb) at 1.
    rewrite total_length_insert by apply lookup_delete_eq.
    rewrite (IH (delete i m) Hnd).
    + simpl. rewrite Hb. simpl. rewrite length_app.
      assert (((λ k, default [] (delete i m !! k)) <$> l)
              = ((λ k, default [] (m !! k)) <$> l)) as ->.
      { apply list_fmap_ext. intros j k Hk.
        apply list_elem_of_lookup_2 in Hk.
        rewrite lookup_delete_ne; [done|]. intros E. by rewrite E in Hi. }
      unfold Buffer.length. rewrite Nat2Z.inj_add, Z.add_comm. done.
    + intros k. destruct (decide (k = i)) as [->|Hne].
      * rewrite lookup_delete_eq. split; [by intros []|done].
      * rewrite lookup_delete_ne by done. rewrite Hdom.
        rewrite elem_of_cons. intuition congruence.
Qed.

Lemma complete_is_full (a : Accumulator) :
  indices_in_range a →
  fragments_received a = Z.of_nat (size (fragments a)) →
  fragments_received a = fragment_count a →
  ∀ i, 0 <= i < fragment_count a → is_Some (fragments a !! i).
Proof.
  intros Hr Hs Hc i Hi.
  assert (dom (fragments a) = list_to_set (seqZ 0 (fragment_count a))) as E.
  { apply set_subseteq_size_eq.
    - intros k Hk. apply elem_of_dom in Hk. apply Hr in Hk.
      apply elem_of_list_to_set, elem_of_seqZ. lia.
    - rewrite size_dom, size_list_to_set by apply NoDup_seqZ.
      rewrite length_seqZ. lia. }
  apply elem_of_dom. rewrite E.
  apply elem_of_list_to_set, elem_of_seqZ. lia.
Qed.

Lemma reassemble_complete d T a :
  _accumulators d !! T = Some a →
  accumulator_ok a → indices_in_range a →
  fragments_received a = fragment_count a →
  _reassemble_message d T (message_id a)
  = ([EvMessage (in_order (fragments a) 0 (fragment_count a)) T (message_id a)
        (fragment_count a) (message_len a);
      EvMessageComplete T (message_id a) (fragment_count a) (message_len a)],
     reset_message_state d (Some T)).
Proof.
  intros Ha (Hs & Hl & Hle) Hr Hc.
  pose proof (complete_is_full a Hr Hs Hc) as Hfull.
  assert (0 <= fragment_count a) as Hnn by lia.
  assert (message_len a
          = Z.of_nat (List.length (in_order (fragments a) 0 (fragment_count a))))
    as Hlen.
  { rewrite Hl. apply total_length_in_order; [apply NoDup_seqZ|].
    intros k. rewrite elem_of_seqZ. split; [|intros; apply Hfull; lia].
    intros Hk. apply Hr in Hk. lia. }
  unfold _reassemble_message. rewrite Ha, Z.eqb_refl. simpl.
  unfold Buffer.allocUnsafe.
  replace (message_len a <? 0) with false by (symmetry; apply Z.ltb_ge; lia).
  pose proof (reassemble_loop_full (fragments a) (Z.to_nat (fragment_count a)) 0
                [] (replicate (Z.to_nat (message_len a)) Byte.x00)) as H.
  rewrite Z2Nat.id in H by done. change (Buffer.length []) with 0 in H.
  simpl in H. rewrite H; [done| |].
  - intros. apply Hfull. lia.
  - rewrite length_replicate, Hlen. lia.
Qed.

(** ** Delivery of the fragments of one message, in any order *)

Lemma elem_of_cons_app_tail (j k : Z) (ks D : list Z) :
j ∈ k :: D → j ∈ (k :: ks) ++ D.
Proof. rewrite elem_of_app, !elem_of_cons. tauto. Qed.

Lemma elem_of_app_cons_middle (j k : Z) (ks D : list Z) :
j ∈ ks ++ k :: D → j ∈ (k :: ks) ++ D.
Proof. rewrite !elem_of_app, !elem_of_cons. tauto. Qed.

Lemma not_elem_of_app_tail (k : Z) (ks D : list Z) :
k ∉ ks ++ D → k ∉ D.
Proof. rewrite elem_of_app. tauto. Qed.

Section RoundTrip.
Variables (src T id : Z) (msg : list byte).
Local Abbreviation cnt := (Encoder.fragment_count_of (Buffer.length msg)).
Local Abbreviation pkt := (expected_packet src msg T id cnt).

Hypothesis Hsrc : 0 <= src < 2 ^ 32.
Hypothesis HT : 0 <= T <= 63.
Hypothesis Hid : 0 <= id < 2 ^ 16.
Hypothesis Hcnt : cnt <= 100.
Hypothesis Hlen : Buffer.length msg <= 64 * 1024.

Lemma cnt_pos : 1 <= cnt.
Proof. unfold cnt, Encoder.fragment_count_of. lia. Qed.

Lemma pkt_decode d k :
  listens src T d → 0 <= k < cnt →
  decode_packet d (pkt k) = accumulate d T id k cnt (fragment_payload msg k).
Proof.
  intros [Hs Hty] Hk.
  destruct (header_fields VERSION T id k cnt src (fragment_payload msg k))
    as (Hl & Hmagic & Hv & Ht & Hi & Hx & Hc & Hsr & Hp);
    try (unfold VERSION; lia).
  rewrite (land_63_id T HT) in Ht.
  fold (expected_packet src msg T id cnt k) in *. fold (pkt k) in *.
  rewrite decode_packet_accepted.
  - by rewrite Ht, Hi, Hx, Hc, Hp.
  - unfold accepted. rewrite Hl, Hmagic, Hv, Ht, Hx, Hc, Hsr, Hp, Hs.
    rewrite !Z.eqb_refl.
    assert (0 <= Buffer.length (fragment_payload msg k) <= MAX_PAYLOAD_SIZE).
    { rewrite fragment_payload_chunk by lia. unfold Buffer.length.
      rewrite length_take. unfold MAX_PAYLOAD_SIZE. lia. }
    rewrite !andb_true_iff, negb_true_iff, !Z.leb_le, Z.ltb_lt, Z.eqb_neq.
    split_and!; try done; try lia.
    destruct (message_types d); [|done]. by apply bool_decide_eq_true.
Qed.

Lemma collecting_entry d D k :
  collecting src T id msg d D → k ∉ D →
  ∃ a, entry d T id cnt (opening T id cnt D) a
       ∧ fragments a !! k = None
       ∧ (accumulator_ok a
          ∨ fragments a = ∅ ∧ fragments_received a = 0 ∧ message_len a = 0)
       ∧ message_id a = id ∧ fragment_count a = cnt
       ∧ fragments_received a = Z.of_nat (List.length D)
       ∧ ∀ j, fragments a !! j
              = if decide (j ∈ D) then Some (fragment_payload msg j) else None.
Proof.
  intros [_ Hc] Hk. destruct D as [|k0 D].
  - exists (fresh_accumulator id cnt). split_and!; try done.
    + by constructor.
    + by right.
  - destruct Hc as (a & Hl & Hi & Hn & Hr & Hok & Hf).
    exists a. split_and!; try done.
    + by constructor.
    + rewrite Hf. by rewrite decide_False.
    + by left.
Qed.

Lemma deliver_one d D k :
  collecting src T id msg d D → NoDup (k :: D) → (∀ j, j ∈ k :: D → 0 <= j < cnt) →
  let o := decode_packet d (pkt k) in
  returned o = true ∧ deferred o = []
  ∧ (Z.of_nat (List.length D) + 1 < cnt →
     emitted o
     = opening T id cnt D ++ [EvFragmentReceived T id k cnt (Z.of_nat (List.length D) + 1)]
     ∧ collecting src T id msg (after o) (k :: D))
  ∧ (Z.of_nat (List.length D) + 1 = cnt →
     emitted o
     = opening T id cnt D
       ++ [EvFragmentReceived T id k cnt (Z.of_nat (List.length D) + 1)]
       ++ closing T id cnt msg
     ∧ listens src T (after o) ∧ _accumulators (after o) !! T = None).
Proof.
  intros Hcol Hnd Hrange.
  apply NoDup_cons in Hnd as [Hk HndD].
  destruct (collecting_entry d D k Hcol Hk)
    as (a & He & Hnone & Hok & Hi & Hn & Hr & Hf).
  destruct Hcol as [Hlis _].
  assert (0 <= k < cnt) as Hkr by (apply Hrange; left).
  rewrite pkt_decode by done.
  rewrite (accumulate_entry _ _ _ _ _ _ _ _ He Hnone).
  set (a' := store a k (fragment_payload msg k)).
  assert (∀ j, fragments a' !! j
               = if decide (j ∈ k :: D) then Some (fragment_payload msg j)
                 else None) as Hf'.
  { intros j. unfold a'. cbn [fragments store].
    destruct (decide (j = k)) as [->|Hne].
    - rewrite lookup_insert_eq. rewrite decide_True; [done|left].
    - rewrite lookup_insert_ne by done. rewrite Hf.
      destruct (decide (j ∈ D)).
      + rewrite decide_True; [done|by right].
      + rewrite decide_False; [done|]. rewrite elem_of_cons. tauto. }
  assert (Z.of_nat (List.length D) + 1 <= cnt) as Hle.
  { assert (List.length (k :: D) ≤ List.length (seqZ 0 cnt))%nat as Hsub.
    { apply submseteq_length, NoDup_submseteq; [by constructor|].
      intros j Hj. apply elem_of_seqZ. specialize (Hrange j Hj). lia. }
    rewrite length_seqZ in Hsub. simpl in Hsub. lia. }
  assert (accumulator_ok a') as Hok'.
  { apply store_ok; [done|done|]. unfold a'. cbn [fragments_received store]. lia. }
  assert (indices_in_range a') as Hin.
  { intros j Hj. rewrite Hf' in Hj. destruct (decide (j ∈ k :: D)).
    - change (fragment_count a') with (fragment_count a). rewrite Hn. by apply Hrange.
    - by destruct Hj. }
  assert (fragments_received a' = Z.of_nat (List.length D) + 1) as Hr'.
  { unfold a'. cbn [fragments_received store]. lia. }
  assert (fragment_count a' = cnt) as Hn' by done.
  assert (message_id a' = id) as Hi' by done.
  unfold stored. fold a'.
  rewrite Hr', Hn'.
  replace (Z.of_nat (List.length D) + 1 >? cnt) with false
    by (symmetry; rewrite Z.gtb_ltb; apply Z.ltb_ge; lia).
  destruct (Z.of_nat (List.length D) + 1 =? cnt) eqn:Efin.
  - apply Z.eqb_eq in Efin.
    assert (_accumulators (with_accumulators d (<[T:=a']> (_accumulators d)))
              !! T = Some a') as Hl'.
    { cbn [_accumulators with_accumulators]. apply lookup_insert_eq. }
    assert (fragments_received a' = fragment_count a') as Hfull by lia.
    pose proof (reassemble_complete _ _ _ Hl' Hok' Hin Hfull) as Hre.
    rewrite Hi', Hn' in Hre.
    assert (in_order (fragments a') 0 cnt = msg) as Hmsg.
    { unfold in_order.
      transitivity (concat (fragment_payload msg <$> seqZ 0 cnt));
        [|apply concat_fragments].
      f_equal. apply list_fmap_ext. intros i j Hj.
      apply list_elem_of_lookup_2, elem_of_seqZ in Hj.
      destruct (complete_is_full a' Hin (proj1 Hok') Hfull j ltac:(lia))
        as [b Hb].
      rewrite Hf' in Hb |- *. by destruct (decide (j ∈ k :: D)). }
    assert (message_len a' = Buffer.length msg) as Hml.
    { destruct Hok' as (Hs' & Hm' & _). rewrite Hm'.
      rewrite (total_length_in_order (seqZ 0 cnt)).
      - fold (in_order (fragments a') 0 cnt). by rewrite Hmsg.
      - apply NoDup_seqZ.
      - intros j. rewrite elem_of_seqZ. split.
        + intros Hj. apply Hin in Hj. lia.
        + intros Hj. apply (complete_is_full a' Hin Hs' Hfull). lia. }
    rewrite Hmsg, Hml in Hre. rewrite Hml.
    replace ((cnt >? 100) || (Buffer.length msg >? 64 * 1024)) with false.
    2: { symmetry. rewrite orb_false_iff, !Z.gtb_ltb, !Z.ltb_ge. lia. }
    rewrite Hre. cbn [returned deferred emitted after fst snd].
    split_and!; try done; try lia.
    intros _. split_and!.
    + by rewrite <- app_assoc.
    + done.
    + cbn. apply lookup_delete_eq.
  - apply Z.eqb_neq in Efin.
    cbn [returned deferred emitted after].
    split_and!; try done; try lia.
    intros _. split; [done|]. split; [done|].
    exists a'. split; [cbn; apply lookup_insert_eq|].
    split_and!; try done. rewrite Hr'. simpl. lia.
Qed.

Lemma run_collect (ks : list Z) :
  ∀ D d,
  collecting src T id msg d D → NoDup (ks ++ D) → (∀ j, j ∈ ks ++ D → 0 <= j < cnt) →
  Z.of_nat (List.length (ks ++ D)) = cnt → ks ≠ [] →
  ∃ d',
    decode_all d (pkt <$> ks)
    = (opening T id cnt D ++ receipts T id cnt (Z.of_nat (List.length D)) ks ++ closing T id cnt msg, [], d')
    ∧ listens src T d' ∧ _accumulators d' !! T = None.
Proof.
  induction ks as [|k ks IH]; intros D d Hcol Hnd Hrange Hlen' Hne; [done|].
  assert (NoDup (k :: D)) as HndkD.
  { apply NoDup_cons. apply NoDup_cons in Hnd as [Hk Hnd].
    split; [|by apply NoDup_app in Hnd as (_&_&?)].
    by eapply not_elem_of_app_tail. }
  assert (∀ j, j ∈ k :: D → 0 <= j < cnt) as HrkD.
  { intros j Hj. apply Hrange. by apply elem_of_cons_app_tail. }
  destruct (deliver_one d D k Hcol HndkD HrkD) as (Hret & Hdef & Hmid & Hfin).
  cbn [fmap list_fmap decode_all].
  destruct ks as [|k2 ks].
  - destruct Hfin as (Hev & Hlis & Hl).
    { simpl in Hlen'. lia. }
    exists (after (decode_packet d (pkt k))).
    cbn [fmap list_fmap decode_all receipts].
    rewrite Hev, Hdef, !app_nil_r. split_and!; try done.
  - destruct Hmid as (Hev & Hcol').
    { simpl in Hlen'. rewrite length_app in Hlen'. lia. }
    destruct (IH (k :: D) (after (decode_packet d (pkt k))) Hcol')
      as (d' & Hrun & Hlis & Hl); try done.
    + by rewrite <- Permutation_middle.
    + intros j Hj. apply Hrange. by apply elem_of_app_cons_middle.
    + rewrite <- Hlen'. rewrite !length_app. simpl. lia.
    + exists d'. fold (list_fmap Z (list byte) pkt) in Hrun |- *.
      change (list_fmap Z (list byte) pkt (k2 :: ks)) with (pkt <$> k2 :: ks).
      rewrite Hrun, Hev, Hdef. split_and!; try done.
      cbn [receipts opening List.length]. rewrite <- !app_assoc. cbn [app].
      replace (Z.of_nat (S (List.length D)))
        with (Z.of_nat (List.length D) + 1) by lia.
      done.
Qed.

Lemma deliver_all d ps :
  listens src T d → _accumulators d !! T = None →
  ps ≡ₚ pkt <$> seqZ 0 cnt →
  ∃ ks d',
    ps = pkt <$> ks ∧ ks ≡ₚ seqZ 0 cnt
    ∧ decode_all d ps
      = (EvMessageStart T id cnt :: receipts T id cnt 0 ks ++ closing T id cnt msg, [], d')
    ∧ _accumulators d' !! T = None.
Proof.
  intros Hlis Hnone Hperm.
  apply Permutation_map_inv in Hperm as (ks & -> & Hks).
  pose proof cnt_pos as Hpos.
  destruct (run_collect ks [] d) as (d' & Hrun & _ & Hl).
  - done.
  - rewrite app_nil_r, <- Hks. apply NoDup_seqZ.
  - intros j. rewrite app_nil_r, <- Hks, elem_of_seqZ. lia.
  - rewrite app_nil_r, <- Hks, length_seqZ. lia.
  - intros ->. apply Permutation_nil_r in Hks.
    apply (f_equal List.length) in Hks. rewrite length_seqZ in Hks.
    simpl in Hks. lia.
  - exists ks, d'. split_and!; try done.
Qed.
End RoundTrip.

(** ** The branches of [accumulate] *)

Lemma accumulate_cases d T id idx cnt payload :
  (∃ a, _accumulators d !! T = Some a
        ∧ _is_newer_message (message_id a) id = true
        ∧ accumulate d T id idx cnt payload = ignored d [])
  ∨ (∃ a, _accumulators d !! T = Some a ∧ message_id a ≠ id
          ∧ _is_newer_message (message_id a) id = false
          ∧ _is_newer_message id (message_id a) = false
          ∧ accumulate d T id idx cnt payload
            = ignored d [EvError (MessageIdMismatch (message_id a) id)])
  ∨ (∃ a, _accumulators d !! T = Some a ∧ message_id a = id
          ∧ is_Some (fragments a !! idx)
          ∧ accumulate d T id idx cnt payload
            = ignored d [EvError (DuplicateFragment idx id)])
  ∨ (∃ evs a, entry d T id cnt evs a ∧ fragments a !! idx = None
              ∧ accumulate d T id idx cnt payload
                = stored d T id idx cnt evs (store a idx payload)).
Proof.
  destruct (_accumulators d !! T) as [a|] eqn:Hl.
  - destruct (_is_newer_message (message_id a) id) eqn:Hold.
    { left. exists a. split_and!; try done.
      unfold accumulate. by rewrite Hl, Hold. }
    destruct (_is_newer_message id (message_id a)) eqn:Hnew.
    { do 3 right. eexists _, _. split; [by eapply entry_newer|].
      split; [done|]. apply accumulate_entry; [by eapply entry_newer|done]. }
    destruct (decide (message_id a = id)) as [Hid|Hid].
    + destruct (fragments a !! idx) as [b|] eqn:Hf.
      * do 2 right. left. exists a. split_and!; try done.
        unfold accumulate. rewrite Hl, Hold, Hnew, Hid, Z.eqb_refl, Hf.
        cbn [negb]. by rewrite bool_decide_eq_true_2.
      * do 3 right. eexists _, _. split; [by eapply entry_same|].
        split; [done|]. apply accumulate_entry; [by eapply entry_same|done].
    + right. left. exists a. split_and!; try done.
      unfold accumulate. rewrite Hl, Hold, Hnew.
      replace (id =? message_id a) with false; [done|].
      symmetry. apply Z.eqb_neq. congruence.
  - do 3 right. eexists _, _. split; [by eapply entry_fresh|].
    split; [done|]. apply accumulate_entry; [by eapply entry_fresh|done].
Qed.

Lemma reassemble_emits d T id ev :
  ev ∈ (_reassemble_message d T id).1 →
  _accumulators (_reassemble_message d T id).2 !! T = None.
Proof.
  unfold _reassemble_message.
  destruct (_accumulators d !! T) as [a|]; [|by intros ?%elem_of_nil].
  destruct (negb _); [by intros ?%elem_of_nil|].
  intros _. cbn. apply lookup_delete_eq.
Qed.

Lemma reassemble_same d T a :
  _accumulators d !! T = Some a →
  _accumulators (_reassemble_message d T (message_id a)).2 !! T = None.
Proof.
  intros Hl. unfold _reassemble_message. rewrite Hl, Z.eqb_refl.
  cbn. apply lookup_delete_eq.
Qed.

Lemma stored_config d T id idx cnt evs a' :
  source_id (after (stored d T id idx cnt evs a')) = source_id d
  ∧ message_types (after (stored d T id idx cnt evs a')) = message_types d.
Proof.
  unfold stored. repeat case_match; cbn; try done.
  apply (reassemble_config (with_accumulators d _)).
Qed.

Lemma accumulate_config d T id idx cnt payload :
  source_id (after (accumulate d T id idx cnt payload)) = source_id d
  ∧ message_types (after (accumulate d T id idx cnt payload)) = message_types d.
Proof.
  destruct (accumulate_cases d T id idx cnt payload)
    as [(?&?&?&->)|[(?&?&?&?&?&->)|[(?&?&?&?&->)|(?&?&?&?&->)]]]; try done.
  apply stored_config.
Qed.

Lemma decode_packet_config d p :
  source_id (after (decode_packet d p)) = source_id d
  ∧ message_types (after (decode_packet d p)) = message_types d.
Proof.
  destruct (accepted d p) eqn:E.
  - rewrite decode_packet_accepted by done. apply accumulate_config.
  - by destruct (decode_packet_rejected d p E) as (_ & -> & _).
Qed.

Lemma accepted_after d p q :
  accepted (after (decode_packet d p)) q = accepted d q.
Proof.
  destruct (decode_packet_config d p) as [Hs Ht].
  unfold accepted. by rewrite Hs, Ht.
Qed.

Lemma decode_packet_frame d p T' :
  T' ≠ packet_type p →
  _accumulators (after (decode_packet d p)) !! T' = _accumulators d !! T'.
Proof.
  intros Hne. destruct (accepted d p) eqn:E.
  - rewrite decode_packet_accepted by done. by apply accumulate_frame.
  - by destruct (decode_packet_rejected d p E) as (_ & -> & _).
Qed.

Lemma read_nonneg width p offset : 0 <= Buffer.readUIntLE width p offset.
Proof. unfold Buffer.readUIntLE. apply le_combine_bound. Qed.

Lemma accepted_fields d p :
  accepted d p = true →
  0 <= packet_fragment_index p < packet_fragment_count p
  ∧ Buffer.length (packet_payload p) <= MAX_PAYLOAD_SIZE.
Proof.
  unfold accepted. rewrite !andb_true_iff, Z.ltb_lt, !Z.leb_le.
  intros [[[_ Hi] _] Hp]. split; [|done]. split; [|done].
  apply read_nonneg.
Qed.

(** ** Stale fragments *)

Lemma stale_silent d p a :
  accepted d p = true →
  _accumulators d !! packet_type p = Some a →
  _is_newer_message (message_id a) (packet_message_id p) = true →
  decode_packet d p = ignored d [].
Proof.
  intros Hacc Hl Hnew. rewrite decode_packet_accepted by done.
  unfold accumulate. by rewrite Hl, Hnew.
Qed.

Lemma antipodal_mismatch d p a :
  accepted d p = true →
  _accumulators d !! packet_type p = Some a →
  (packet_message_id p - message_id a) mod 65536 = 32768 →
  decode_packet d p
  = ignored d [EvError (MessageIdMismatch (message_id a) (packet_message_id p))].
Proof.
  intros Hacc Hl Hd. rewrite decode_packet_accepted by done.
  assert (_is_newer_message (packet_message_id p) (message_id a) = false) as H1.
  { apply is_newer_false. lia. }
  assert (_is_newer_message (message_id a) (packet_message_id p) = false) as H2.
  { apply is_newer_false. rewrite circular_distance_sym; lia. }
  unfold accumulate. rewrite Hl, H1, H2.
  replace (packet_message_id p =? message_id a) with false; [done|].
  symmetry. apply Z.eqb_neq. intros E. rewrite E, Z.sub_diag in Hd. done.
Qed.

(** A valid fragment whose message ID is at forward circular distance
    [>= 32768] from the one in flight is never processed and never changes
    the decoder.  It is dropped without any event when the distance is above
    32768.  At distance exactly 32768 neither ID is newer than the other and
    the call reports a message-ID mismatch through the error event. *)
Theorem stale_fragment_ignored d p a :
  accepted d p = true →
  _accumulators d !! packet_type p = Some a →
  32768 <= (packet_message_id p - message_id a) mod 65536 →
  returned (decode_packet d p) = false
  ∧ after (decode_packet d p) = d
  ∧ deferred (decode_packet d p) = []
  ∧ (32768 < (packet_message_id p - message_id a) mod 65536 →
     emitted (decode_packet d p) = [])
  ∧ ((packet_message_id p - message_id a) mod 65536 = 32768 →
     emitted (decode_packet d p)
     = [EvError (MessageIdMismatch (message_id a) (packet_message_id p))]).
Proof.
  intros Hacc Hl Hd.
  pose proof (Z.mod_pos_bound (packet_message_id p - message_id a) 65536 eq_refl).
  destruct (decide ((packet_message_id p - message_id a) mod 65536 = 32768))
    as [E|E].
  - rewrite (antipodal_mismatch d p a) by done. split_and!; try done. lia.
  - rewrite (stale_silent d p a); [split_and!; done|done|done|].
    apply is_newer_spec. rewrite circular_distance_sym; lia.
Qed.

Lemma stale_fragment_ignored_witness :
  let a := {| message_id := 10; fragment_count := 2; fragments_received := 1;
              fragments := {[0 := []]}; message_len := 0; valid := true |} in
  let d := with_accumulators (new 7 None) {[1 := a]} in
  let p := wire_header VERSION 1 9 1 2 7 in
  accepted d p = true
  ∧ _accumulators d !! packet_type p = Some a
  ∧ 32768 <= (packet_message_id p - message_id a) mod 65536
  ∧ returned (decode_packet d p) = false
  ∧ after (decode_packet d p) = d
  ∧ emitted (decode_packet d p) = [].
Proof.
  intros a d p.
  assert (accepted d p = true) as H1 by (vm_compute; reflexivity).
  assert (_accumulators d !! packet_type p = Some a) as H2
    by (vm_compute; reflexivity).
  assert (32768 <= (packet_message_id p - message_id a) mod 65536) as H3
    by (vm_compute; discriminate).
  destruct (stale_fragment_ignored d p a H1 H2 H3) as (R & A & _ & E & _).
  split_and!; try assumption.
  apply E. vm_compute. reflexivity.
Defined.

(** C2 at the boundary: with message ID 0 in flight for type 1, the valid
    fragment of message 32768 (forward distance exactly 32768) is rejected
    and the accumulator is untouched, but the call is not silent: it emits
    the message-ID-mismatch error, the event of the guard that the code
    comments with "message_id's MUST match". *)
Lemma antipodal_fragment_reports_mismatch :
  let a := {| message_id := 0; fragment_count := 2; fragments_received := 1;
              fragments := {[0 := []]}; message_len := 0; valid := true |} in
  let d := with_accumulators (new 7 None) {[1 := a]} in
  let p := wire_header VERSION 1 32768 1 2 7 in
  accepted d p = true
  ∧ _accumulators d !! packet_type p = Some a
  ∧ (packet_message_id p - message_id a) mod 65536 = 32768
  ∧ decode_packet d p = ignored d [EvError (MessageIdMismatch 0 32768)].
Proof. vm_compute. done. Qed.

(** Hence the silent ignore does not hold for every distance [>= 32768]. *)
Lemma stale_fragment_not_always_silent :
  ¬ (∀ d p a,
       accepted d p = true →
       _accumulators d !! packet_type p = Some a →
       32768 <= (packet_message_id p - message_id a) mod 65536 →
       returned (decode_packet d p) = false
       ∧ emitted (decode_packet d p) = []
       ∧ after (decode_packet d p) = d).
Proof.
  intros H.
  pose (a := {| message_id := 0; fragment_count := 2; fragments_received := 1;
                fragments := {[0 := []]}; message_len := 0; valid := true |}).
  pose (d := with_accumulators (new 7 None) {[1 := a]}).
  pose (p := wire_header VERSION 1 32768 1 2 7).
  destruct (H d p a) as (_ & E & _).
  - vm_compute. reflexivity.
  - vm_compute. reflexivity.
  - vm_compute. discriminate.
  - vm_compute in E. discriminate.
Qed.

(** ** Freshness of message IDs *)

Lemma preempted d p a :
  accepted d p = true →
  _accumulators d !! packet_type p = Some a →
  _is_newer_message (packet_message_id p) (message_id a) = true →
  ∃ rest,
    returned (decode_packet d p) = true
    ∧ emitted (decode_packet d p)
      = EvMessageIncomplete (packet_type p) (message_id a)
          (fragments_received a) (fragment_count a)
        :: EvMessageStart (packet_type p) (packet_message_id p)
             (packet_fragment_count p)
        :: EvFragmentReceived (packet_type p) (packet_message_id p)
             (packet_fragment_index p) (packet_fragment_count p) 1
        :: rest
    ∧ _accumulators (after (decode_packet d p)) !! packet_type p ≠ Some a.
Proof.
  intros Hacc Hl Hnew.
  destruct (accepted_fields d p Hacc) as [Hidx _].
  rewrite decode_packet_accepted by done.
  rewrite (accumulate_entry _ _ _ _ _ _ _ _ (entry_newer _ _ _ _ _ Hl Hnew))
    by done.
  assert (message_id a ≠ packet_message_id p) as Hne.
  { intros E. rewrite E, is_newer_irrefl in Hnew. done. }
  unfold stored. cbn [store fresh_accumulator fragments_received fragment_count
                        message_len].
  replace (0 + 1 >? packet_fragment_count p) with false
    by (symmetry; rewrite Z.gtb_ltb; apply Z.ltb_ge; lia).
  repeat case_match; cbn [returned emitted after]; eexists;
    (split; [done|]); (split; [done|]).
  - cbn. rewrite lookup_insert_eq. intros [= <-]. done.
  - intros E. apply (f_equal (fmap message_id)) in E. cbn in E.
    match type of E with
    | context [_reassemble_message ?d' ?T ?id] =>
        pose proof (reassemble_same d' T
                      (store (fresh_accumulator id (packet_fragment_count p))
                         (packet_fragment_index p) (packet_payload p))) as Hr
    end.
    cbn in Hr. rewrite Hr in E; [done|]. apply lookup_insert_eq.
  - cbn. rewrite lookup_insert_eq. intros [= <-]. done.
Qed.



(** ** Duplicates *)

Lemma duplicate_in_flight d p a :
  accepted d p = true →
  _accumulators d !! packet_type p = Some a →
  message_id a = packet_message_id p →
  is_Some (fragments a !! packet_fragment_index p) →
  decode_packet d p
  = ignored d [EvError (DuplicateFragment (packet_fragment_index p)
                          (packet_message_id p))].
Proof.
  intros Hacc Hl Hid Hf. rewrite decode_packet_accepted by done.
  unfold accumulate. rewrite Hl. cbv beta iota.
  rewrite Hid, !is_newer_irrefl. cbv beta iota.
  rewrite Hid, Z.eqb_refl. cbn [negb]. by rewrite bool_decide_eq_true_2.
Qed.

Lemma delivered_is_stored d p a :
  accepted d p = true →
  _accumulators (after (decode_packet d p)) !! packet_type p = Some a →
  message_id a = packet_message_id p →
  is_Some (fragments a !! packet_fragment_index p).
Proof.
  intros Hacc Hl Hid. rewrite decode_packet_accepted in Hl by done.
  destruct (accumulate_cases d (packet_type p) (packet_message_id p)
              (packet_fragment_index p) (packet_fragment_count p)
              (packet_payload p))
    as [(a0&Hl0&Hn&E)|[(a0&Hl0&Hne&_&_&E)|[(a0&Hl0&Hi0&Hf&E)|(evs&a0&He&Hf&E)]]];
    rewrite E in Hl; clear E.
  - cbn in Hl. rewrite Hl0 in Hl. injection Hl as ->.
    rewrite Hid, is_newer_irrefl in Hn. done.
  - cbn in Hl. rewrite Hl0 in Hl. injection Hl as ->. done.
  - cbn in Hl. rewrite Hl0 in Hl. by injection Hl as ->.
  - unfold stored in Hl. repeat case_match; cbn in Hl.
    + by rewrite lookup_delete_eq in Hl.
    + rewrite lookup_insert_eq in Hl. injection Hl as <-.
      cbn. by rewrite lookup_insert_eq.
    + match type of Hl with
      | context [_reassemble_message ?d' ?T ?id] =>
          pose proof (reassemble_same d' T
                        (store a0 (packet_fragment_index p) (packet_payload p)))
            as Hr
      end.
      assert (message_id a0 = packet_message_id p) as Hid0.
      { by inversion He. }
      cbn in Hr. rewrite Hid0 in Hr. rewrite Hr in Hl; [done|].
      apply lookup_insert_eq.
    + rewrite lookup_insert_eq in Hl. injection Hl as <-.
      cbn. by rewrite lookup_insert_eq.
Qed.

(** C7: when a valid fragment is delivered a second time while the
    accumulator of its message is still in flight, the second call returns
    false, emits exactly one event, the duplicate-fragment error, and leaves
    the decoder (hence [fragments_received], [message_len] and the stored
    payload) unchanged. *)
Theorem duplicate_fragment_rejected d p :
  accepted d p = true →
  let d1 := after (decode_packet d p) in
  (∃ a, _accumulators d1 !! packet_type p = Some a
        ∧ message_id a = packet_message_id p) →
  returned (decode_packet d1 p) = false
  ∧ emitted (decode_packet d1 p)
    = [EvError (DuplicateFragment (packet_fragment_index p)
                  (packet_message_id p))]
  ∧ deferred (decode_packet d1 p) = []
  ∧ after (decode_packet d1 p) = d1.
Proof.
  intros Hacc d1 (a & Hl & Hid).
  rewrite (duplicate_in_flight d1 p a); try done.
  - unfold d1. by rewrite accepted_after.
  - by apply (delivered_is_stored d p a).
Qed.

Lemma duplicate_fragment_rejected_witness :
  let d := new 7 None in
  let p := wire_header VERSION 1 9 0 2 7 ++ [Byte.x41] in
  let d1 := after (decode_packet d p) in
  accepted d p = true
  ∧ (∃ a, _accumulators d1 !! packet_type p = Some a
          ∧ message_id a = packet_message_id p)
  ∧ emitted (decode_packet d1 p) = [EvError (DuplicateFragment 0 9)]
  ∧ after (decode_packet d1 p) = d1.
Proof.
  intros d p d1.
  assert (accepted d p = true) as H1 by (vm_compute; reflexivity).
  assert (∃ a, _accumulators d1 !! packet_type p = Some a
               ∧ message_id a = packet_message_id p) as H2.
  { eexists. split; vm_compute; reflexivity. }
  destruct (duplicate_fragment_rejected d p H1 H2) as (_ & E & _ & A).
  split_and!; try assumption.
Defined.

(** ** Isolation of message types *)

(** C9: a call of [decode_packet] leaves the accumulator of every type other
    than the type of the packet as it was, whatever the call does (store,
    complete, reject); so does a deferred reassembly of another type; and
    [reset_message_state] of one type removes the accumulator of that type
    and no other. *)
Theorem type_isolation d T' :
  (∀ p, T' ≠ packet_type p →
        _accumulators (after (decode_packet d p)) !! T' = _accumulators d !! T')
  ∧ (∀ T id, T' ≠ T →
        _accumulators (_reassemble_message d T id).2 !! T'
        = _accumulators d !! T')
  ∧ (∀ T, T' ≠ T →
        _accumulators (reset_message_state d (Some T)) !! T'
        = _accumulators d !! T')
  ∧ _accumulators (reset_message_state d (Some T')) !! T' = None.
Proof.
  split_and!.
  - intros. by apply decode_packet_frame.
  - intros. by apply reassemble_frame.
  - intros. by apply reset_lookup_ne.
  - apply reset_lookup_eq.
Qed.

Lemma type_isolation_witness :
  let a := {| message_id := 10; fragment_count := 2; fragments_received := 1;
              fragments := {[0 := []]}; message_len := 0; valid := true |} in
  let d := with_accumulators (new 7 None) {[2 := a]} in
  let p := wire_header VERSION 1 9 0 1 7 ++ [Byte.x41] in
  2 ≠ packet_type p
  ∧ _accumulators (after (decode_packet d p)) !! 2 = Some a
  ∧ completed (emitted (decode_packet d p)) = [([Byte.x41], 1, 9, 1, 1)].
Proof.
  intros a d p.
  assert (2 ≠ packet_type p) as H1 by (vm_compute; discriminate).
  split_and!; [assumption| |vm_compute; reflexivity].
  rewrite (proj1 (type_isolation d 2) p H1). vm_compute. reflexivity.
Defined.

(** ** Invariants of the accumulators along any run *)

Lemma decode_packet_ok d p :
  decoder_ok d → decoder_ok (after (decode_packet d p)).
Proof.
  intros H. destruct (accepted d p) eqn:E.
  - rewrite decode_packet_accepted by done. by apply accumulate_ok.
  - by destruct (decode_packet_rejected d p E) as (_ & -> & _).
Qed.

Lemma step_ok w a :
  decoder_ok (decoder w) → decoder_ok (decoder (step w a).2).
Proof.
  intros H. destruct a as [p|T|]; cbn.
  - by apply decode_packet_ok.
  - by apply reset_Forall.
  - destruct (immediates w) as [|[T id] rest]; [done|].
    pose proof (reassemble_Forall _ (decoder w) T id H) as H'.
    by destruct (_reassemble_message (decoder w) T id).
Qed.

Lemma run_snd_cons w a actions :
  (run w (a :: actions)).2 = (run (step w a).2 actions).2.
Proof.
  cbn [run]. destruct (step w a) as [evs w1]. cbn.
  by destruct (run w1 actions).
Qed.

Lemma run_ok actions :
  ∀ w, decoder_ok (decoder w) → decoder_ok (decoder (run w actions).2).
Proof.
  induction actions as [|a actions IH]; intros w H; [done|].
  rewrite run_snd_cons. apply IH. by apply step_ok.
Qed.

Lemma entry_lifecycle d T id cnt evs a :
  entry d T id cnt evs a → Forall lifecycle evs.
Proof. intros []; repeat constructor. Qed.

Lemma entry_message_id d T id cnt evs a :
  entry d T id cnt evs a → message_id a = id.
Proof. by intros []. Qed.

Lemma reassemble_events d T id ev :
  ev ∈ (_reassemble_message d T id).1 →
  (∃ b c n, ev = EvMessage b T id c n)
  ∨ (∃ c n, ev = EvMessageComplete T id c n)
  ∨ (∃ why, ev = EvError (ReassemblyFailed id why)).
Proof.
  unfold _reassemble_message.
  destruct (_accumulators d !! T) as [a|]; [|by intros ?%elem_of_nil].
  destruct (negb _); [by intros ?%elem_of_nil|].
  cbn [fst].
  match goal with
  | |- context [match ?x with inl _ => _ | inr _ => _ end] => destruct x
  end.
  - intros ->%list_elem_of_singleton. right. right. by eexists.
  - rewrite !elem_of_cons, elem_of_nil. intros [->|[->|[]]].
    + left. by eexists _, _, _.
    + right. left. by eexists _, _.
Qed.


(** An event that is neither a lifecycle event nor the one event appended to
    them is not in the list. *)
Ltac absent Hlife :=
  let Hin := fresh "Hin" in
  intros [Hin|Hin%list_elem_of_singleton]%elem_of_app;
  [by apply Hlife in Hin|done].

Lemma stored_destroys d T id idx cnt evs a' :
  Forall lifecycle evs →
  let o := stored d T id idx cnt evs a' in
  (∀ r c, EvError (FragmentCountExceeded r c) ∈ emitted o →
          _accumulators (after o) !! T = None)
  ∧ (∀ T' id' c n, EvMessageComplete T' id' c n ∈ emitted o →
          deferred o = [] ∧ _accumulators (after o) !! T = None).
Proof.
  intros Hlife. rewrite Forall_forall in Hlife.
  unfold stored. repeat case_match; cbn [emitted after deferred ignored].
  - split.
    + intros. cbn. apply lookup_delete_eq.
    + intros T' id' c n. absent Hlife.
  - split.
    + intros r c. absent Hlife.
    + intros T' id' c n. absent Hlife.
  - split.
    + intros r c [[Hin|Hin%list_elem_of_singleton]%elem_of_app|Hin]%elem_of_app;
        [by apply Hlife in Hin|done|].
      by eapply reassemble_emits.
    + intros T' id' c n
        [[Hin|Hin%list_elem_of_singleton]%elem_of_app|Hin]%elem_of_app;
        [by apply Hlife in Hin|done|].
      split; [done|]. by eapply reassemble_emits.
  - split.
    + intros r c. absent Hlife.
    + intros T' id' c n. absent Hlife.
Qed.

Lemma decode_packet_destroys d p :
  let o := decode_packet d p in
  (∀ r c, EvError (FragmentCountExceeded r c) ∈ emitted o →
          _accumulators (after o) !! packet_type p = None)
  ∧ (∀ T id c n, EvMessageComplete T id c n ∈ emitted o →
          deferred o = [] ∧ _accumulators (after o) !! packet_type p = None).
Proof.
  cbv zeta. destruct (accepted d p) eqn:E.
  - rewrite decode_packet_accepted by done.
    destruct (accumulate_cases d (packet_type p) (packet_message_id p)
                (packet_fragment_index p) (packet_fragment_count p)
                (packet_payload p))
      as [(?&?&?&->)|[(?&?&?&?&?&->)|[(?&?&?&?&->)|(evs&a&He&?&->)]]];
      cbn [emitted ignored].
    + split; [intros r c Hin|intros T id c n Hin]; by apply elem_of_nil in Hin.
    + split; [intros r c Hin|intros T id c n Hin];
        by apply list_elem_of_singleton in Hin.
    + split; [intros r c Hin|intros T id c n Hin];
        by apply list_elem_of_singleton in Hin.
    + apply stored_destroys. by eapply entry_lifecycle.
  - destruct (decode_packet_rejected d p E) as (_ & _ & _ & [->|(e & -> & He)]).
    + split; [intros r c Hin|intros T id c n Hin]; by apply elem_of_nil in Hin.
    + split.
      * intros r c [= <-]%list_elem_of_singleton.
        destruct He as [?|[(?&?)|(?&?&?&?)]]; done.
      * intros T id c n Hin. by apply list_elem_of_singleton in Hin.
Qed.

(** C10: in every state that [new JTPDecoder], calls of [decode_packet] and
    [reset_message_state], and deferred reassemblies lead to, and after one
    more call of [decode_packet], every accumulator in the map has
    [fragments_received] equal to the number of stored fragments,
    [message_len] equal to the sum of their lengths, and
    [fragments_received <= fragment_count]; a call that reports a fragment
    count exceeded, or that completes a message synchronously, returns with
    the accumulator of that type removed. *)
Theorem accumulator_invariant src types actions p :
  let d := decoder (run (start (new src types)) actions).2 in
  let o := decode_packet d p in
  (∀ T a, _accumulators (after o) !! T = Some a →
          fragments_received a = Z.of_nat (size (fragments a))
          ∧ message_len a = total_length (fragments a)
          ∧ fragments_received a <= fragment_count a)
  ∧ (∀ r c, EvError (FragmentCountExceeded r c) ∈ emitted o →
            _accumulators (after o) !! packet_type p = None)
  ∧ (∀ T id c n, EvMessageComplete T id c n ∈ emitted o →
            deferred o = [] ∧ _accumulators (after o) !! packet_type p = None).
Proof.
  intros d o. split; [|apply decode_packet_destroys].
  intros T a Hl.
  assert (decoder_ok (after o)) as Hok.
  { apply decode_packet_ok, run_ok. apply map_Forall_empty. }
  exact (Hok T a Hl).
Qed.

(** ** Reassembly of a complete accumulator *)

Lemma store_in_range d p a :
  accepted d p = true → fits d p = true →
  a = fresh_accumulator (packet_message_id p) (packet_fragment_count p)
  ∨ (_accumulators d !! packet_type p = Some a
     ∧ (accumulator_ok a ∧ indices_in_range a)
     ∧ message_id a = packet_message_id p) →
  fragments a !! packet_fragment_index p = None →
  fragments_received (store a (packet_fragment_index p) (packet_payload p))
  <= fragment_count a →
  accumulator_ok (store a (packet_fragment_index p) (packet_payload p))
  ∧ indices_in_range (store a (packet_fragment_index p) (packet_payload p)).
Proof.
  intros Hacc Hfit Ha Hn Hle.
  destruct (accepted_fields d p Hacc) as [Hidx _].
  split.
  - apply store_ok; [|done|done].
    destruct Ha as [->|(_ & [Hok _] & _)]; [by right|by left].
  - intros i. cbn [fragments store fragment_count].
    destruct (decide (i = packet_fragment_index p)) as [->|Hne].
    + intros _. destruct Ha as [->|(Hl & _ & Hid)]; [done|].
      unfold fits in Hfit. rewrite Hacc, Hl, Hid, Z.eqb_refl in Hfit.
      apply Z.ltb_lt in Hfit. lia.
    + rewrite lookup_insert_ne by done.
      destruct Ha as [->|(_ & [_ Hin] & _)]; [|by apply Hin].
      cbn. rewrite lookup_empty. by intros [].
Qed.

Lemma same_count_fits d p :
  (∀ a, _accumulators d !! packet_type p = Some a →
        message_id a = packet_message_id p →
        fragment_count a = packet_fragment_count p) →
  fits d p = true.
Proof.
  intros H. unfold fits. destruct (accepted d p) eqn:Hacc; [|done].
  destruct (_accumulators d !! packet_type p) as [a|] eqn:Hl; [|done].
  destruct (message_id a =? packet_message_id p) eqn:Hid; [|done].
  apply Z.eqb_eq in Hid. rewrite (H a eq_refl Hid).
  apply Z.ltb_lt. by apply (accepted_fields d p).
Qed.

Lemma decode_packet_in_range d p :
  decoder_in_range d → fits d p = true →
  decoder_in_range (after (decode_packet d p)).
Proof.
  intros H Hfit. destruct (accepted d p) eqn:E.
  - rewrite decode_packet_accepted by done.
    apply accumulate_Forall; [done|].
    intros a Ha Hn Hle. by apply (store_in_range d p a).
  - by destruct (decode_packet_rejected d p E) as (_ & -> & _).
Qed.

Lemma run_in_range actions :
  ∀ w, decoder_in_range (decoder w) → well_behaved w actions = true →
       decoder_in_range (decoder (run w actions).2).
Proof.
  induction actions as [|a actions IH]; intros w H Hwb; [done|].
  rewrite run_snd_cons. cbn [well_behaved] in Hwb.
  apply andb_true_iff in Hwb as [Ha Hwb].
  apply IH; [|done].
  destruct a as [p|T|]; cbn.
  - by apply decode_packet_in_range.
  - by apply reset_Forall.
  - destruct (immediates w) as [|[T id] rest]; [done|].
    pose proof (reassemble_Forall _ (decoder w) T id H) as H'.
    by destruct (_reassemble_message (decoder w) T id).
Qed.

Lemma no_failure_when_fitting d p :
  decoder_in_range d → fits d p = true →
  ∀ id why, EvError (ReassemblyFailed id why) ∉ emitted (decode_packet d p).
Proof.
  intros H Hfit id why.
  destruct (accepted d p) eqn:E.
  2: { destruct (decode_packet_rejected d p E) as (_ & _ & _ & [->|(e & -> & He)]).
       - apply not_elem_of_nil.
       - intros [= <-]%list_elem_of_singleton.
         destruct He as [?|[(?&?)|(?&?&?&?)]]; done. }
  rewrite decode_packet_accepted by done.
  destruct (accumulate_cases d (packet_type p) (packet_message_id p)
              (packet_fragment_index p) (packet_fragment_count p)
              (packet_payload p))
    as [(?&?&?&->)|[(?&?&?&?&?&->)|[(?&?&?&?&->)|(evs&a&He&Hn&->)]]];
    cbn [emitted ignored].
  - apply not_elem_of_nil.
  - by intros ?%list_elem_of_singleton.
  - by intros ?%list_elem_of_singleton.
  - pose proof (entry_lifecycle _ _ _ _ _ _ He) as Hlife.
    rewrite Forall_forall in Hlife.
    set (a' := store a (packet_fragment_index p) (packet_payload p)).
    unfold stored.
    destruct (fragments_received a' >? fragment_count a') eqn:Ex.
    { cbn. absent Hlife. }
    destruct (fragments_received a' =? fragment_count a') eqn:Efull.
    2: { cbn. absent Hlife. }
    destruct (_ || _).
    { cbn. absent Hlife. }
    cbn [emitted].
    assert (accumulator_ok a' ∧ indices_in_range a') as [Hok Hin].
    { apply (store_in_range d p a); try done.
      - destruct He as [?|old ? ?|a Hl Hid]; [by left|by left|].
        right. split; [done|]. split; [exact (H _ _ Hl)|done].
      - rewrite Z.gtb_ltb in Ex. apply Z.ltb_ge in Ex. exact Ex. }
    apply Z.eqb_eq in Efull.
    assert (message_id a = packet_message_id p) as Hid
      by (by eapply entry_message_id).
    change (message_id a) with (message_id a') in Hid.
    rewrite <- Hid.
    rewrite (reassemble_complete _ (packet_type p) a'); try done.
    + cbn [fst].
      intros [[Hi|Hi%list_elem_of_singleton]%elem_of_app|Hi]%elem_of_app.
      * by apply Hlife in Hi.
      * done.
      * rewrite !elem_of_cons, elem_of_nil in Hi. by destruct Hi as [?|[?|[]]].
    + cbn. apply lookup_insert_eq.
Qed.

Lemma synchronous_completion d p evs a :
  decoder_in_range d → accepted d p = true → fits d p = true →
  entry d (packet_type p) (packet_message_id p) (packet_fragment_count p) evs a →
  fragments a !! packet_fragment_index p = None →
  let a' := store a (packet_fragment_index p) (packet_payload p) in
  fragments_received a' = fragment_count a' →
  (∀ i, 0 <= i < fragment_count a' → is_Some (fragments a' !! i))
  ∧ (fragment_count a' <= 100 → message_len a' <= 64 * 1024 →
     emitted (decode_packet d p)
     = evs
       ++ [EvFragmentReceived (packet_type p) (packet_message_id p)
             (packet_fragment_index p) (packet_fragment_count p)
             (fragments_received a');
           EvMessage (in_order (fragments a') 0 (fragment_count a'))
             (packet_type p) (packet_message_id p) (fragment_count a')
             (message_len a');
           EvMessageComplete (packet_type p) (packet_message_id p)
             (fragment_count a') (message_len a')]
     ∧ _accumulators (after (decode_packet d p)) !! packet_type p = None).
Proof.
  intros H Hacc Hfit He Hn a' Hfull.
  assert (accumulator_ok a' ∧ indices_in_range a') as [Hok Hin].
  { apply (store_in_range d p a); try done.
    - destruct He as [?|old ? ?|a Hl Hid]; [by left|by left|].
      right. split; [done|]. split; [exact (H _ _ Hl)|done].
    - fold a'. change (fragment_count a) with (fragment_count a'). lia. }
  split; [by apply complete_is_full; [|apply Hok|]|].
  intros Hc Hl.
  rewrite decode_packet_accepted by done.
  rewrite (accumulate_entry _ _ _ _ _ _ _ _ He Hn). fold a'.
  assert (message_id a = packet_message_id p) as Hid
    by (by eapply entry_message_id).
  change (message_id a) with (message_id a') in Hid.
  unfold stored.
  replace (fragments_received a' >? fragment_count a') with false
    by (symmetry; rewrite Z.gtb_ltb; apply Z.ltb_ge; lia).
  rewrite Hfull, Z.eqb_refl.
  replace ((fragment_count a' >? 100) || (message_len a' >? 64 * 1024))
    with false.
  2: { symmetry. rewrite orb_false_iff, !Z.gtb_ltb, !Z.ltb_ge. lia. }
  cbn [emitted after]. rewrite <- Hid.
  rewrite (reassemble_complete _ (packet_type p) a'); try done.
  - cbn [fst snd]. rewrite <- app_assoc. split; [done|].
    cbn. apply lookup_delete_eq.
  - cbn. apply lookup_insert_eq.
Qed.

(** C3, as the code has it: along any run in which every delivered packet
    fits the accumulator it joins (its index is below the fragment count the
    accumulator was started with), an accumulator with
    [fragments_received = fragment_count] holds every index of
    [0, fragment_count), and reassembling it emits the stored payloads
    concatenated in index order and the completion event, and removes it;
    a call of [decode_packet] that completes an accumulator of at most 100
    fragments and 64 KiB does so before it returns; and no call of
    [decode_packet] reports a failed reassembly. *)
Theorem complete_accumulator_reassembles src types actions :
  well_behaved (start (new src types)) actions = true →
  let d := decoder (run (start (new src types)) actions).2 in
  (∀ T a,
     _accumulators d !! T = Some a →
     fragments_received a = fragment_count a →
     (∀ i, 0 <= i < fragment_count a → is_Some (fragments a !! i))
     ∧ _reassemble_message d T (message_id a)
       = ([EvMessage (in_order (fragments a) 0 (fragment_count a)) T
             (message_id a) (fragment_count a) (message_len a);
           EvMessageComplete T (message_id a) (fragment_count a)
             (message_len a)],
          reset_message_state d (Some T)))
  ∧ (∀ p evs a,
       accepted d p = true → fits d p = true →
       entry d (packet_type p) (packet_message_id p) (packet_fragment_count p)
         evs a →
       fragments a !! packet_fragment_index p = None →
       let a' := store a (packet_fragment_index p) (packet_payload p) in
       fragments_received a' = fragment_count a' →
       (∀ i, 0 <= i < fragment_count a' → is_Some (fragments a' !! i))
       ∧ (fragment_count a' <= 100 → message_len a' <= 64 * 1024 →
          emitted (decode_packet d p)
          = evs
            ++ [EvFragmentReceived (packet_type p) (packet_message_id p)
                  (packet_fragment_index p) (packet_fragment_count p)
                  (fragments_received a');
                EvMessage (in_order (fragments a') 0 (fragment_count a'))
                  (packet_type p) (packet_message_id p) (fragment_count a')
                  (message_len a');
                EvMessageComplete (packet_type p) (packet_message_id p)
                  (fragment_count a') (message_len a')]
          ∧ _accumulators (after (decode_packet d p)) !! packet_type p = None))
  ∧ (∀ p, fits d p = true →
          ∀ id why,
            EvError (ReassemblyFailed id why) ∉ emitted (decode_packet d p)).
Proof.
  intros Hwb d.
  assert (decoder_in_range d) as Hd.
  { apply run_in_range; [apply map_Forall_empty|done]. }
  split; [|split].
  - intros T a Hl Hfull. destruct (Hd T a Hl) as [Hok Hin]. split.
    + apply complete_is_full; [done|apply Hok|done].
    + by apply reassemble_complete.
  - intros p evs a Hacc Hfit He Hn. by apply synchronous_completion.
  - intros p Hfit. by apply no_failure_when_fitting.
Qed.

Lemma complete_accumulator_reassembles_witness :
  let p0 := wire_header VERSION 1 9 1 2 7 ++ [Byte.x42] in
  let p1 := wire_header VERSION 1 9 0 2 7 ++ [Byte.x41] in
  let d := decoder (run (start (new 7 None)) [Accept p0]).2 in
  well_behaved (start (new 7 None)) [Accept p0] = true
  ∧ fits d p1 = true
  ∧ completed (emitted (decode_packet d p1))
    = [([Byte.x41; Byte.x42], 1, 9, 2, 2)]
  ∧ ∀ id why, EvError (ReassemblyFailed id why) ∉ emitted (decode_packet d p1).
Proof.
  intros p0 p1 d.
  assert (well_behaved (start (new 7 None)) [Accept p0] = true) as H1
    by (vm_compute; reflexivity).
  assert (fits d p1 = true) as H2 by (vm_compute; reflexivity).
  split; [exact H1|]. split; [exact H2|]. split; [vm_compute; reflexivity|].
  exact (proj2 (proj2 (complete_accumulator_reassembles 7 None [Accept p0] H1))
           p1 H2).
Defined.

(** C3 as stated fails: two valid fragments of one message that disagree on
    the fragment count fill an accumulator of two without index 1, and the
    reassembly reports the missing fragment. *)
Lemma reassembly_failure_counterexample :
  let p0 := wire_header VERSION 1 9 0 2 7 ++ [Byte.x41] in
  let p1 := wire_header VERSION 1 9 2 3 7 ++ [Byte.x43] in
  accepted (new 7 None) p0 = true ∧ accepted (new 7 None) p1 = true
  ∧ (decode_all (new 7 None) [p0; p1]).1.1
    = [EvMessageStart 1 9 2; EvFragmentReceived 1 9 0 2 1;
       EvFragmentReceived 1 9 2 3 2;
       EvError (ReassemblyFailed 9 (MissingFragment 1))].
Proof. vm_compute. done. Qed.

(** A reassembly that was deferred (more than 100 fragments) runs on a later
    turn of the event loop and looks the accumulator up again by type and
    message ID.  When the complete message was preempted in between and the
    same ID is in flight again, it finds an incomplete accumulator: the
    missing-fragment error is reported although every packet fits. *)
Lemma deferred_reassembly_can_fail :
  well_behaved (start (new 7 None)) late = true
  ∧ errors (run (start (new 7 None)) late).1
    = [ReassemblyFailed 5 (MissingFragment 1)]
  ∧ completed (run (start (new 7 None)) late).1 = [].
Proof. vm_compute. done. Qed.

(** ** What the encoder sends *)

Lemma sent_packets e message_buffer message_type callback :
  encoder_ok e → 0 <= message_type <= 63 →
  Encoder.fragment_count_of (Buffer.length message_buffer) <= 0xFFFF →
  (Encoder.encode e (JsBuffer message_buffer) message_type callback).1.1
  = Some (Encoder.message_id e)
  ∧ Encoder.packets
      (Encoder.encode e (JsBuffer message_buffer) message_type callback).1.2
    = expected_packet (Encoder.source_id e) message_buffer message_type
        (Encoder.message_id e)
        (Encoder.fragment_count_of (Buffer.length message_buffer))
      <$> seqZ 0 (Encoder.fragment_count_of (Buffer.length message_buffer)).
Proof.
  intros He Ht Hc.
  destruct (encode_events e message_buffer message_type callback He Ht Hc)
    as [pool' ->].
  split; [done|]. cbn [fst snd]. apply packets_expected. by destruct callback.
Qed.

Lemma fragment_count_of_spec len :
  0 <= len →
  let n := Encoder.fragment_count_of len in
  1 <= n ∧ len <= n * MAX_PAYLOAD_SIZE
  ∧ (n = 1 ∨ (n - 1) * MAX_PAYLOAD_SIZE < len).
Proof.
  intros Hl. unfold Encoder.fragment_count_of, MAX_PAYLOAD_SIZE.
  pose proof (Z.div_mod (len + 1200 - 1) 1200 ltac:(lia)).
  pose proof (Z.mod_pos_bound (len + 1200 - 1) 1200 ltac:(lia)).
  cbv zeta. lia.
Qed.

Lemma fragment_payload_lookup message_buffer i (j : nat) :
  0 <= i →
  (j < List.length (fragment_payload message_buffer i))%nat →
  fragment_payload message_buffer i !! j
  = message_buffer !! (Z.to_nat (i * MAX_PAYLOAD_SIZE) + j)%nat.
Proof.
  intros Hi. rewrite fragment_payload_chunk by done. intros Hj.
  rewrite length_take in Hj. rewrite lookup_take_lt by lia.
  by rewrite lookup_drop.
Qed.

(** C4: for a Buffer that fits 65535 fragments and a type in 0..63, the
    encoder emits exactly [max 1 (ceil (len / 1200))] packets; packet [i] is
    the header followed by bytes [i * 1200, min ((i + 1) * 1200, len)) of
    the message; every fragment but the last carries 1200 bytes and the last
    carries the rest; an empty message gives one packet with an empty
    payload. *)
Theorem fragmentation e message_buffer message_type callback :
  encoder_ok e → 0 <= message_type <= 63 →
  Encoder.fragment_count_of (Buffer.length message_buffer) <= 0xFFFF →
  let len := Buffer.length message_buffer in
  let n := Encoder.fragment_count_of len in
  let sent :=
    Encoder.packets
      (Encoder.encode e (JsBuffer message_buffer) message_type callback).1.2 in
  (1 <= n ∧ len <= n * 1200 ∧ (n = 1 ∨ (n - 1) * 1200 < len))
  ∧ Z.of_nat (List.length sent) = n
  ∧ (∀ i, 0 <= i < n →
          sent !! Z.to_nat i
          = Some (wire_header VERSION message_type (Encoder.message_id e) i n
                    (Encoder.source_id e)
                  ++ fragment_payload message_buffer i))
  ∧ (∀ i, 0 <= i < n - 1 →
          Buffer.length (fragment_payload message_buffer i) = 1200)
  ∧ Buffer.length (fragment_payload message_buffer (n - 1))
    = len - (n - 1) * 1200
  ∧ (∀ i (j : nat), 0 <= i < n →
          (j < List.length (fragment_payload message_buffer i))%nat →
          fragment_payload message_buffer i !! j
          = message_buffer !! (Z.to_nat (i * 1200) + j)%nat)
  ∧ (message_buffer = [] →
     sent = [wire_header VERSION message_type (Encoder.message_id e) 0 1
               (Encoder.source_id e)]).
Proof.
  intros He Ht Hc len n sent.
  destruct (sent_packets e message_buffer message_type callback He Ht Hc)
    as [_ Hsent].
  fold len n sent in Hsent.
  assert (0 <= len) as Hlen by (unfold len, Buffer.length; lia).
  destruct (fragment_count_of_spec len Hlen) as (H1 & H2 & H3).
  fold n in H1, H2, H3. unfold MAX_PAYLOAD_SIZE in H2, H3.
  assert (∀ i, 0 <= i < n →
               Buffer.length (fragment_payload message_buffer i)
               = Z.min (i * 1200 + 1200) len - i * 1200) as Hsize.
  { intros i Hi.
    apply (fragment_payload_eq message_buffer i); [lia|].
    apply fragment_count_of_bounds; [done|]. by fold n. }
  split_and!; try done.
  - rewrite Hsent, length_fmap, length_seqZ. lia.
  - intros i Hi. rewrite Hsent, list_lookup_fmap.
    rewrite lookup_seqZ_lt by lia. cbn. rewrite Z2Nat.id by lia. done.
  - intros i Hi. rewrite Hsize by lia. lia.
  - rewrite Hsize by lia. lia.
  - intros i j Hi Hj. apply fragment_payload_lookup; [lia|done].
  - intros ->. rewrite Hsent. unfold n, len.
    change (Encoder.fragment_count_of (Buffer.length [])) with 1.
    change (seqZ 0 1) with [0]. cbn [fmap list_fmap].
    unfold expected_packet.
    change (fragment_payload [] 0) with (@nil byte). by rewrite app_nil_r.
Qed.

Lemma fragmentation_witness :
  let e := Encoder.new 7 in
  let message_buffer := replicate 1201 Byte.x41 in
  encoder_ok e ∧ 0 <= 5 <= 63
  ∧ Encoder.fragment_count_of (Buffer.length message_buffer) <= 0xFFFF
  ∧ Z.of_nat
      (List.length
         (Encoder.packets
            (Encoder.encode e (JsBuffer message_buffer) 5 false).1.2))
    = 2.
Proof.
  intros e message_buffer.
  assert (encoder_ok e) as H1 by (by vm_compute).
  assert (0 <= 5 <= 63) as H2 by lia.
  assert (Encoder.fragment_count_of (Buffer.length message_buffer) <= 0xFFFF)
    as H3 by (by vm_compute).
  split; [exact H1|]. split; [exact H2|]. split; [exact H3|].
  destruct (fragmentation e message_buffer 5 false H1 H2 H3) as (_ & E & _).
  exact E.
Defined.

(** ** The message-ID counter of the encoder *)

(** C5: a call whose type is outside 0..63, whose buffer is not a Buffer, or
    whose message needs more than 65535 fragments returns [null], reports
    that error and nothing else (no packet), and leaves the encoder, its
    counter included, as it was; every other call returns the counter value
    it found and leaves the counter one higher modulo 65536, both when the
    call returns and after all fragments are emitted. *)
Theorem encode_message_counter e message_buffer message_type callback
    returned e1 immediate evs e2 :
  Encoder.encode_message e message_buffer message_type callback
  = (returned, e1, immediate) →
  Encoder.run_immediate e1 immediate = (evs, e2) →
  ((message_type < 0 ∨ 63 < message_type) →
     returned = None ∧ e1 = e ∧ e2 = e
     ∧ evs = [Encoder.EvError (Encoder.InvalidMessageType message_type)])
  ∧ (0 <= message_type <= 63 → message_buffer = JsOther →
     returned = None ∧ e1 = e ∧ e2 = e
     ∧ evs = [Encoder.EvError (Encoder.InvalidInputType message_type)])
  ∧ (∀ b, 0 <= message_type <= 63 → message_buffer = JsBuffer b →
          65535 < Encoder.fragment_count_of (Buffer.length b) →
     returned = None ∧ e1 = e ∧ e2 = e
     ∧ evs = [Encoder.EvError
                (Encoder.MessageTooLarge message_type (Buffer.length b))])
  ∧ (∀ b, 0 <= message_type <= 63 → message_buffer = JsBuffer b →
          Encoder.fragment_count_of (Buffer.length b) <= 65535 →
     returned = Some (Encoder.message_id e)
     ∧ Encoder.message_id e1 = (Encoder.message_id e + 1) mod 65536
     ∧ Encoder.message_id e2 = (Encoder.message_id e + 1) mod 65536
     ∧ Encoder.source_id e2 = Encoder.source_id e)
  ∧ (returned = None →
     Encoder.packets evs = [] ∧ Encoder.message_id e2 = Encoder.message_id e).
Proof.
  unfold Encoder.encode_message.
  destruct ((message_type <? 0) || (message_type >? 63)) eqn:Et.
  { intros [= <- <- <-] [= <- <-].
    apply orb_true_iff in Et. rewrite Z.ltb_lt, Z.gtb_ltb, Z.ltb_lt in Et.
    split_and!; try done; intros; lia. }
  apply orb_false_iff in Et. rewrite Z.ltb_ge, Z.gtb_ltb, Z.ltb_ge in Et.
  destruct message_buffer as [b|].
  2: { intros [= <- <- <-] [= <- <-]. split_and!; try done; intros; lia. }
  destruct (Encoder.fragment_count_of (Buffer.length b) >? 0xFFFF) eqn:Ec.
  { rewrite Z.gtb_ltb in Ec. apply Z.ltb_lt in Ec.
    intros [= <- <- <-] [= <- <-].
    split_and!; try done.
    - intros; lia.
    - by intros b' _ [= <-] _.
    - intros b' _ [= <-] ?. lia. }
  rewrite Z.gtb_ltb in Ec. apply Z.ltb_ge in Ec.
  intros [= <- <- <-].
  cbn [Encoder.run_immediate]. unfold Encoder._encode_message_async.
  destruct (Encoder.fragment_loop _ _ _ _ _ _ _ _) as [[evs' pool] ok].
  cbn [Encoder.source_id Encoder.message_id Encoder.increment_message_id].
  destruct ok; intros [= <- <-];
    (split_and!; try done; [intros; lia|intros b' _ [= <-] ?; lia]).
Qed.

Lemma encode_message_counter_witness :
  let e := Encoder.new 7 in
  let e1 := Encoder.increment_message_id e in
  let immediate := Encoder.ImmEncode [Byte.x41] 5 0 1 false in
  Encoder.encode_message e (JsBuffer [Byte.x41]) 5 false = (Some 0, e1, immediate)
  ∧ Encoder.run_immediate e1 immediate
    = ([Encoder.EvPacket (wire_header VERSION 5 0 0 1 7 ++ [Byte.x41]) 0 5 0 1 1;
        Encoder.EvEncoded 0 5 1 1], e1)
  ∧ Encoder.message_id e1 = (Encoder.message_id e + 1) mod 65536.
Proof.
  intros e e1 immediate.
  assert (Encoder.encode_message e (JsBuffer [Byte.x41]) 5 false
          = (Some 0, e1, immediate)) as H1 by (vm_compute; reflexivity).
  assert (Encoder.run_immediate e1 immediate
          = ([Encoder.EvPacket (wire_header VERSION 5 0 0 1 7 ++ [Byte.x41])
                0 5 0 1 1;
              Encoder.EvEncoded 0 5 1 1], e1)) as H2
    by (vm_compute; reflexivity).
  split; [exact H1|]. split; [exact H2|].
  destruct (encode_message_counter _ _ _ _ _ _ _ _ _ H1 H2) as (_ & _ & _ & H & _).
  destruct (H [Byte.x41]) as (_ & E & _); [lia|reflexivity|by vm_compute|].
  exact E.
Defined.

(** A message of 65535 * 1200 + 1 bytes is too large. *)
Lemma too_large_exists :
  65535 < Encoder.fragment_count_of
            (Buffer.length (replicate (Z.to_nat 78642001) Byte.x00)).
Proof.
  unfold Buffer.length. rewrite length_replicate, Z2Nat.id by lia.
  by vm_compute.
Qed.

(** ** The wire header *)

Lemma wire_header_bytes version message_type message_id fragment_index
    fragment_count source_id :
  wire_header version message_type message_id fragment_index fragment_count
    source_id
  = [byte.of_Z 0x4A;
     byte.of_Z (Z.lor (Z.shiftl version 6) (Z.land message_type 0x3F));
     byte.of_Z message_id; byte.of_Z (Z.shiftr message_id 8);
     byte.of_Z fragment_index; byte.of_Z (Z.shiftr fragment_index 8);
     byte.of_Z fragment_count; byte.of_Z (Z.shiftr fragment_count 8);
     byte.of_Z source_id; byte.of_Z (Z.shiftr source_id 8);
     byte.of_Z (Z.shiftr source_id 16); byte.of_Z (Z.shiftr source_id 24)].
Proof.
  unfold wire_header. cbv [le_split]. cbn [app].
  rewrite !Z.shiftr_shiftr by lia. reflexivity.
Qed.

(** What [decode_packet] does with a well-formed header followed by a
    payload, in terms of the fields the header was built from. *)
Lemma decode_header d version message_type message_id fragment_index
    fragment_count source_id payload :
  0 <= version <= 3 →
  0 <= message_id < 2 ^ 16 → 0 <= fragment_index < 2 ^ 16 →
  0 <= fragment_count < 2 ^ 16 → 0 <= source_id < 2 ^ 32 →
  decode_packet d
    (wire_header version message_type message_id fragment_index
       fragment_count source_id ++ payload)
  = if negb (version =? VERSION)
    then ignored d [EvError (UnsupportedVersion version)]
    else if negb (source_id =? Decoder.source_id d) then ignored d []
    else if match message_types d with
            | Some types =>
                negb (bool_decide (Z.land message_type 0x3F ∈ types))
            | None => false
            end
    then ignored d []
    else if (fragment_index >=? fragment_count) || (fragment_count =? 0)
            || (Buffer.length payload >? MAX_PAYLOAD_SIZE)
    then ignored d
           [EvError (InvalidFragment fragment_index fragment_count
                       (Buffer.length payload))]
    else accumulate d (Z.land message_type 0x3F) message_id fragment_index
           fragment_count payload.
Proof.
  intros Hv Hm Hi Hc Hs.
  destruct (header_fields version message_type message_id fragment_index
              fragment_count source_id payload Hv Hm Hi Hc Hs)
    as (Hl & H0 & H1 & H2 & H3 & H4 & H5 & H6 & H7).
  unfold decode_packet.
  fold (packet_version (wire_header version message_type message_id
          fragment_index fragment_count source_id ++ payload)).
  fold (packet_type (wire_header version message_type message_id
          fragment_index fragment_count source_id ++ payload)).
  fold (packet_message_id (wire_header version message_type message_id
          fragment_index fragment_count source_id ++ payload)).
  fold (packet_fragment_index (wire_header version message_type message_id
          fragment_index fragment_count source_id ++ payload)).
  fold (packet_fragment_count (wire_header version message_type message_id
          fragment_index fragment_count source_id ++ payload)).
  fold (packet_source_id (wire_header version message_type message_id
          fragment_index fragment_count source_id ++ payload)).
  fold (packet_payload (wire_header version message_type message_id
          fragment_index fragment_count source_id ++ payload)).
  rewrite Hl, H0, H1, H2, H3, H4, H5, H6, H7, Z.eqb_refl.
  assert (0 <= Buffer.length payload) by (unfold Buffer.length; lia).
  replace (12 + Buffer.length payload <? 1) with false
    by (symmetry; apply Z.ltb_ge; lia).
  replace (12 + Buffer.length payload <? 12) with false
    by (symmetry; apply Z.ltb_ge; lia).
  reflexivity.
Qed.

(** The first fragment of a message to reach a decoder that holds nothing of
    its type. *)
Lemma accumulate_first d message_type message_id fragment_index
    fragment_count payload :
  _accumulators d !! message_type = None →
  0 <= fragment_index < fragment_count →
  Buffer.length payload <= MAX_PAYLOAD_SIZE →
  let o := accumulate d message_type message_id fragment_index fragment_count
             payload in
  returned o = true ∧ deferred o = []
  ∧ emitted o
    = [EvMessageStart message_type message_id fragment_count;
       EvFragmentReceived message_type message_id fragment_index
         fragment_count 1]
      ++ (if fragment_count =? 1
          then [EvMessage payload message_type message_id 1
                  (Buffer.length payload);
                EvMessageComplete message_type message_id 1
                  (Buffer.length payload)]
          else [])
  ∧ _accumulators (after o) !! message_type
    = if fragment_count =? 1 then None
      else Some (store (fresh_accumulator message_id fragment_count)
                   fragment_index payload).
Proof.
  intros Hnone Hidx Hlen. unfold accumulate. rewrite Hnone. cbn.
  rewrite Z.eqb_refl. cbn. rewrite lookup_empty.
  rewrite bool_decide_eq_false_2 by (by intros [? ?]).
  change (0 + 1) with 1. rewrite Z.add_0_l.
  replace (1 >? fragment_count) with false
    by (symmetry; rewrite Z.gtb_ltb; apply Z.ltb_ge; lia).
  rewrite (Z.eqb_sym 1 fragment_count).
  destruct (fragment_count =? 1) eqn:E.
  - apply Z.eqb_eq in E. subst fragment_count.
    assert (fragment_index = 0) as -> by lia.
    unfold MAX_PAYLOAD_SIZE in Hlen.
    replace (1 >? 100) with false by done.
    replace (Buffer.length payload >? 64 * 1024) with false
      by (symmetry; rewrite Z.gtb_ltb; apply Z.ltb_ge; lia).
    cbn [orb]. unfold _reassemble_message. cbn.
    rewrite !lookup_insert_eq. cbn.
    rewrite Z.eqb_refl. cbn. unfold Buffer.allocUnsafe.
    rewrite Z.add_0_l.
    replace (Buffer.length payload <? 0) with false
      by (symmetry; apply Z.ltb_ge; unfold Buffer.length; lia).
    change (Z.to_nat 1) with 1%nat. cbn [reassemble_loop].
    rewrite lookup_insert_eq.
    pose proof (copy_whole payload []
                  (replicate (Z.to_nat (Buffer.length payload)) Byte.x00)) as Hc.
    cbn [app] in Hc. change (Buffer.length []) with 0 in Hc. rewrite Hc.
    2: { rewrite length_replicate. unfold Buffer.length. lia. }
    rewrite drop_ge, app_nil_r
      by (rewrite length_replicate; unfold Buffer.length; lia).
    rewrite lookup_delete_eq. done.
  - cbn. rewrite lookup_insert_eq. done.
Qed.

(** C8: every packet the encoder emits starts with the 12 header bytes
    magic 0x4A, [(version << 6) | (type & 0x3F)], message ID, fragment index,
    fragment count (two bytes each, low byte first) and source ID (four
    bytes, low byte first), followed by the payload of its fragment.
    [decode_packet] reads every field back from these offsets: whatever the
    decoder, it compares the source ID and the type of the packet with its
    own configuration and then accumulates the fragment under exactly the
    type, message ID, fragment index, fragment count and payload the encoder
    wrote, and a decoder that holds nothing of that type announces them in
    its events.  The same holds of any header in range followed by any
    payload: the version comes back from bits 6-7 and the type, masked to its
    low six bits, from bits 0-5 of byte 1, and every check and every event of
    [decode_packet] is in terms of the fields the header was built from. *)
Theorem wire_format e message_buffer message_type callback p :
  encoder_ok e → 0 <= message_type <= 63 →
  Encoder.fragment_count_of (Buffer.length message_buffer) <= 0xFFFF →
  p ∈ Encoder.packets
        (Encoder.encode e (JsBuffer message_buffer) message_type callback).1.2 →
  let n := Encoder.fragment_count_of (Buffer.length message_buffer) in
  let id := Encoder.message_id e in
  let src := Encoder.source_id e in
  (∃ i, 0 <= i < n
        ∧ take 12 p
          = [byte.of_Z 0x4A;
             byte.of_Z (Z.lor (Z.shiftl VERSION 6) (Z.land message_type 0x3F));
             byte.of_Z id; byte.of_Z (Z.shiftr id 8);
             byte.of_Z i; byte.of_Z (Z.shiftr i 8);
             byte.of_Z n; byte.of_Z (Z.shiftr n 8);
             byte.of_Z src; byte.of_Z (Z.shiftr src 8);
             byte.of_Z (Z.shiftr src 16); byte.of_Z (Z.shiftr src 24)]
        ∧ drop 12 p = fragment_payload message_buffer i
        ∧ Buffer.readUInt8 p 0 = MAGIC_BYTE
        ∧ packet_version p = VERSION
        ∧ packet_type p = message_type
        ∧ packet_message_id p = id
        ∧ packet_fragment_index p = i
        ∧ packet_fragment_count p = n
        ∧ packet_source_id p = src
        ∧ packet_payload p = fragment_payload message_buffer i
        ∧ (∀ d,
             decode_packet d p
             = if negb (src =? Decoder.source_id d) then ignored d []
               else if match message_types d with
                       | Some types =>
                           negb (bool_decide (message_type ∈ types))
                       | None => false
                       end
               then ignored d []
               else accumulate d message_type id i n
                      (fragment_payload message_buffer i))
        ∧ (∀ d,
             listens src message_type d →
             _accumulators d !! message_type = None →
             let size := Buffer.length (fragment_payload message_buffer i) in
             returned (decode_packet d p) = true
             ∧ emitted (decode_packet d p)
               = [EvMessageStart message_type id n;
                  EvFragmentReceived message_type id i n 1]
                 ++ (if n =? 1
                     then [EvMessage (fragment_payload message_buffer i)
                             message_type id 1 size;
                           EvMessageComplete message_type id 1 size]
                     else [])
             ∧ _accumulators (after (decode_packet d p)) !! message_type
               = if n =? 1 then None
                 else Some (store (fresh_accumulator id n) i
                              (fragment_payload message_buffer i))))
  ∧ (∀ d version type message_id fragment_index fragment_count source_id
       payload,
       0 <= version <= 3 →
       0 <= message_id < 2 ^ 16 → 0 <= fragment_index < 2 ^ 16 →
       0 <= fragment_count < 2 ^ 16 → 0 <= source_id < 2 ^ 32 →
       let q := wire_header version type message_id fragment_index
                  fragment_count source_id ++ payload in
       let T := Z.land type 0x3F in
       Buffer.readUInt8 q 0 = MAGIC_BYTE
       ∧ packet_version q = version
       ∧ packet_type q = T
       ∧ (0 <= type <= 63 → T = type)
       ∧ packet_message_id q = message_id
       ∧ packet_fragment_index q = fragment_index
       ∧ packet_fragment_count q = fragment_count
       ∧ packet_source_id q = source_id
       ∧ packet_payload q = payload
       ∧ decode_packet d q
         = (if negb (version =? VERSION)
            then ignored d [EvError (UnsupportedVersion version)]
            else if negb (source_id =? Decoder.source_id d) then ignored d []
            else if match message_types d with
                    | Some types => negb (bool_decide (T ∈ types))
                    | None => false
                    end
            then ignored d []
            else if (fragment_index >=? fragment_count)
                    || (fragment_count =? 0)
                    || (Buffer.length payload >? MAX_PAYLOAD_SIZE)
            then ignored d
                   [EvError (InvalidFragment fragment_index fragment_count
                               (Buffer.length payload))]
            else accumulate d T message_id fragment_index fragment_count
                   payload)
       ∧ (version = VERSION → listens source_id T d →
          _accumulators d !! T = None →
          fragment_index < fragment_count →
          Buffer.length payload <= MAX_PAYLOAD_SIZE →
          returned (decode_packet d q) = true
          ∧ emitted (decode_packet d q)
            = [EvMessageStart T message_id fragment_count;
               EvFragmentReceived T message_id fragment_index
                 fragment_count 1]
              ++ (if fragment_count =? 1
                  then [EvMessage payload T message_id 1
                          (Buffer.length payload);
                        EvMessageComplete T message_id 1
                          (Buffer.length payload)]
                  else [])
          ∧ _accumulators (after (decode_packet d q)) !! T
            = if fragment_count =? 1 then None
              else Some (store (fresh_accumulator message_id fragment_count)
                           fragment_index payload))).
Proof.
  intros He Ht Hc Hp n id src.
  assert (∀ d version type message_id fragment_index fragment_count source_id
            payload,
            0 <= version <= 3 →
            0 <= message_id < 2 ^ 16 → 0 <= fragment_index < 2 ^ 16 →
            0 <= fragment_count < 2 ^ 16 → 0 <= source_id < 2 ^ 32 →
            version = VERSION → listens source_id (Z.land type 0x3F) d →
            fragment_index < fragment_count →
            Buffer.length payload <= MAX_PAYLOAD_SIZE →
            decode_packet d
              (wire_header version type message_id fragment_index
                 fragment_count source_id ++ payload)
            = accumulate d (Z.land type 0x3F) message_id fragment_index
                fragment_count payload) as Hfirst.
  { intros d version type mid fi fc sid payload Hv Hmid Hfi Hfc Hsid
      -> [Hs Hty] Hlt Hlen.
    rewrite decode_header by done. rewrite Hs, !Z.eqb_refl. cbn [negb].
    replace (fi >=? fc) with false
      by (symmetry; rewrite Z.geb_leb; apply Z.leb_gt; lia).
    replace (fc =? 0) with false by (symmetry; apply Z.eqb_neq; lia).
    replace (Buffer.length payload >? MAX_PAYLOAD_SIZE) with false
      by (symmetry; rewrite Z.gtb_ltb; apply Z.ltb_ge; lia).
    cbn [orb].
    destruct (message_types d); [|done].
    by rewrite bool_decide_eq_true_2. }
  destruct (sent_packets e message_buffer message_type callback He Ht Hc)
    as [_ Hsent].
  rewrite Hsent in Hp. apply list_elem_of_fmap in Hp as (i & -> & Hi).
  apply elem_of_seqZ in Hi. fold n id src in Hi |- *.
  destruct He as [Hs Hm]. fold id src in Hs, Hm.
  assert (0 <= Buffer.length (fragment_payload message_buffer i)
          <= MAX_PAYLOAD_SIZE) as Hsize.
  { rewrite fragment_payload_chunk by lia. unfold Buffer.length.
    rewrite length_take. unfold MAX_PAYLOAD_SIZE. lia. }
  split.
  - exists i. split; [lia|].
    destruct (header_fields VERSION message_type id i n src
                (fragment_payload message_buffer i))
      as (_ & H0 & H1 & H2 & H3 & H4 & H5 & H6 & H7);
      try (unfold VERSION; lia).
    rewrite (land_63_id message_type Ht) in H2.
    unfold expected_packet.
    do 10 (split; [done|]).
    split.
    + intros d. rewrite decode_header by (unfold VERSION; lia).
      rewrite (land_63_id message_type Ht).
      replace (i >=? n) with false
        by (symmetry; rewrite Z.geb_leb; apply Z.leb_gt; lia).
      replace (n =? 0) with false by (symmetry; apply Z.eqb_neq; lia).
      replace (Buffer.length (fragment_payload message_buffer i)
               >? MAX_PAYLOAD_SIZE) with false
        by (symmetry; rewrite Z.gtb_ltb; apply Z.ltb_ge; lia).
      reflexivity.
    + intros d Hl Hnone.
      rewrite <- (land_63_id message_type Ht) in Hl.
      rewrite Hfirst by (done || unfold VERSION; lia).
      rewrite (land_63_id message_type Ht).
      destruct (accumulate_first d message_type id i n
                  (fragment_payload message_buffer i))
        as (R1 & _ & R2 & R3); [done|lia|lia|].
      done.
  - intros d version type mid fi fc sid payload Hv Hmid Hfi Hfc Hsid q T.
    destruct (header_fields version type mid fi fc sid payload)
      as (_ & H0 & H1 & H2 & H3 & H4 & H5 & H6 & H7); try done.
    do 3 (split; [done|]).
    split; [intros Hty; apply (land_63_id type Hty)|].
    do 5 (split; [done|]).
    split; [by apply decode_header|].
    intros Hver Hl Hnone Hlt Hlen. unfold q.
    rewrite Hfirst by done.
    destruct (accumulate_first d T mid fi fc payload)
      as (R1 & _ & R2 & R3); [done|lia|lia|].
    done.
Qed.

Lemma wire_format_witness :
  let e := Encoder.new 0x12345678 in
  let message_buffer := [Byte.x48; Byte.x69] in
  let p := [Byte.x4a; Byte.x05; Byte.x00; Byte.x00; Byte.x00; Byte.x00;
            Byte.x01; Byte.x00; Byte.x78; Byte.x56; Byte.x34; Byte.x12;
            Byte.x48; Byte.x69] in
  let d := Decoder.new 0x12345678 None in
  encoder_ok e ∧ 0 <= 5 <= 63
  ∧ Encoder.fragment_count_of (Buffer.length message_buffer) <= 0xFFFF
  ∧ p ∈ Encoder.packets (Encoder.encode e (JsBuffer message_buffer) 5 false).1.2
  ∧ packet_type p = 5 ∧ packet_source_id p = 0x12345678
  ∧ returned (decode_packet d p) = true.
Proof.
  intros e message_buffer p d.
  assert (encoder_ok e) as H1 by (by vm_compute).
  assert (0 <= 5 <= 63) as H2 by lia.
  assert (Encoder.fragment_count_of (Buffer.length message_buffer) <= 0xFFFF)
    as H3 by (by vm_compute).
  assert (p ∈ Encoder.packets
                (Encoder.encode e (JsBuffer message_buffer) 5 false).1.2) as H4.
  { vm_compute. left. }
  split; [exact H1|]. split; [exact H2|]. split; [exact H3|]. split; [exact H4|].
  destruct (wire_format e message_buffer 5 false p H1 H2 H3 H4)
    as ((i & _ & _ & _ & _ & _ & Ety & _ & _ & _ & Esrc & _ & _ & Hdec) & _).
  split; [exact Ety|]. split; [exact Esrc|].
  destruct (Hdec d) as (Hret & _ & _).
  - split; [reflexivity|exact I].
  - reflexivity.
  - exact Hret.
Defined.

(** ** Round trip *)

Lemma completed_receipts T id cnt ks tail :
  ∀ n, completed (receipts T id cnt n ks ++ tail) = completed tail.
Proof. induction ks as [|k ks IH]; intros n; [done|]. cbn. apply IH. Qed.

Lemma errors_receipts T id cnt ks tail :
  ∀ n, errors (receipts T id cnt n ks ++ tail) = errors tail.
Proof. induction ks as [|k ks IH]; intros n; [done|]. cbn. apply IH. Qed.

(** C1: a Buffer of at most 5 * 1200 bytes, encoded with a type in 0..63 and
    delivered, all fragments in any order, to a decoder of the same source ID
    that accepts the type and has no message of that type in flight, yields
    exactly one completed message: the original payload, with
    [total_bytes] its length, and no error. *)
Theorem round_trip e d message_buffer message_type callback delivered :
  encoder_ok e → 0 <= message_type <= 63 →
  Buffer.length message_buffer <= 5 * MAX_PAYLOAD_SIZE →
  listens (Encoder.source_id e) message_type d →
  _accumulators d !! message_type = None →
  delivered
  ≡ₚ Encoder.packets
       (Encoder.encode e (JsBuffer message_buffer) message_type callback).1.2 →
  completed (decode_all d delivered).1.1
  = [(message_buffer, message_type, Encoder.message_id e,
      Encoder.fragment_count_of (Buffer.length message_buffer),
      Buffer.length message_buffer)]
  ∧ errors (decode_all d delivered).1.1 = []
  ∧ (decode_all d delivered).1.2 = []
  ∧ _accumulators (decode_all d delivered).2 !! message_type = None.
Proof.
  intros He Ht Hlen Hlis Hnone Hperm.
  assert (0 <= Buffer.length message_buffer) as Hnn
    by (unfold Buffer.length; lia).
  assert (Encoder.fragment_count_of (Buffer.length message_buffer) <= 5) as Hc.
  { unfold Encoder.fragment_count_of, MAX_PAYLOAD_SIZE in *.
    pose proof (Z.div_mod (Buffer.length message_buffer + 1200 - 1) 1200
                  ltac:(lia)).
    pose proof (Z.mod_pos_bound (Buffer.length message_buffer + 1200 - 1) 1200
                  ltac:(lia)).
    lia. }
  destruct (sent_packets e message_buffer message_type callback He Ht
              ltac:(lia)) as [_ Hsent].
  rewrite Hsent in Hperm. destruct He as [Hs Hm].
  destruct (deliver_all (Encoder.source_id e) message_type
              (Encoder.message_id e) message_buffer Hs Ht Hm ltac:(lia)
              ltac:(unfold MAX_PAYLOAD_SIZE in Hlen; lia) d delivered
              Hlis Hnone Hperm)
    as (ks & d' & _ & _ & -> & Hl).
  cbn [fst snd]. split_and!; try done.
  - change (completed (EvMessageStart ?T ?i ?c :: ?l)) with (completed l).
    by rewrite completed_receipts.
  - change (errors (EvMessageStart ?T ?i ?c :: ?l)) with (errors l).
    by rewrite errors_receipts.
Qed.

Lemma round_trip_witness :
  let e := Encoder.new 7 in
  let d := new 7 (Some [5; 6]) in
  let message_buffer := replicate 1201 Byte.x41 in
  let delivered :=
    reverse (Encoder.packets
               (Encoder.encode e (JsBuffer message_buffer) 5 false).1.2) in
  encoder_ok e ∧ 0 <= 5 <= 63
  ∧ Buffer.length message_buffer <= 5 * MAX_PAYLOAD_SIZE
  ∧ listens (Encoder.source_id e) 5 d
  ∧ _accumulators d !! 5 = None
  ∧ completed (decode_all d delivered).1.1 = [(message_buffer, 5, 0, 2, 1201)].
Proof.
  intros e d message_buffer delivered.
  assert (encoder_ok e) as H1 by (by vm_compute).
  assert (0 <= 5 <= 63) as H2 by lia.
  assert (Buffer.length message_buffer <= 5 * MAX_PAYLOAD_SIZE) as H3
    by (by vm_compute).
  assert (listens (Encoder.source_id e) 5 d) as H4.
  { split; [reflexivity|].
    change (5 ∈ (list_to_set [5; 6] : gset Z)).
    apply elem_of_list_to_set. left. }
  assert (_accumulators d !! 5 = None) as H5 by reflexivity.
  split; [exact H1|]. split; [exact H2|]. split; [exact H3|].
  split; [exact H4|]. split; [exact H5|].
  destruct (round_trip e d message_buffer 5 false delivered H1 H2 H3 H4 H5)
    as (E & _).
  - unfold delivered. apply reverse_Permutation.
  - exact E.
Defined.
(** ** Message IDs of successive calls *)

Lemma encode_message_id e message_buffer message_type callback :
  0 <= Encoder.message_id e < 65536 →
  let '(returned, e', _) :=
    Encoder.encode_message e message_buffer message_type callback in
  Encoder.source_id e' = Encoder.source_id e
  ∧ 0 <= Encoder.message_id e' < 65536
  ∧ match returned with
    | Some id =>
        id = Encoder.message_id e
        ∧ Encoder.message_id e' = (Encoder.message_id e + 1) mod 65536
    | None => e' = e
    end.
Proof.
  intros Hm. unfold Encoder.encode_message.
  destruct (_ || _); [done|]. destruct message_buffer as [b|]; [|done].
  destruct (_ >? _); [done|]. cbn.
  pose proof (Z.mod_pos_bound (Encoder.message_id e + 1) 65536 eq_refl).
  change 0x10000 with 65536. done.
Qed.

Lemma assigned_ids calls :
  ∀ e, 0 <= Encoder.message_id e < 65536 →
  let ids := assigned (encode_messages e calls).1 in
  ids = (λ k, (Encoder.message_id e + k) mod 65536)
        <$> seqZ 0 (Z.of_nat (List.length ids))
  ∧ Encoder.message_id (encode_messages e calls).2
    = (Encoder.message_id e + Z.of_nat (List.length ids)) mod 65536.
Proof.
  induction calls as [|[message_buffer message_type] calls IH]; intros e Hm.
  - cbn. rewrite Z.add_0_r, Z.mod_small by lia. done.
  - cbn [encode_messages].
    pose proof (encode_message_id e message_buffer message_type false Hm) as H.
    destruct (Encoder.encode_message e message_buffer message_type false)
      as [[returned e'] imm].
    destruct H as (_ & Hm' & Hret).
    specialize (IH e' Hm').
    destruct (encode_messages e' calls) as [rs e''].
    cbn [fst snd] in *. destruct IH as [IH1 IH2].
    destruct returned as [id|].
    + destruct Hret as [-> Hnext].
      unfold assigned in *.
      set (ids := omap (λ r : option Z, r) rs) in *.
      change (omap (λ r : option Z, r) (Some (Encoder.message_id e) :: rs))
        with (Encoder.message_id e :: ids).
      cbn [List.length]. rewrite Nat2Z.inj_succ.
      rewrite seqZ_cons by lia. rewrite Z.pred_succ. cbn [fmap list_fmap].
      rewrite Z.add_0_r, (Z.mod_small (Encoder.message_id e)) by lia.
      split.
      * f_equal.
        transitivity ((λ k, (Encoder.message_id e' + k) mod 65536)
                        <$> seqZ 0 (Z.of_nat (List.length ids))); [exact IH1|].
        change (Z.succ 0) with (1 + 0).
        rewrite <- fmap_add_seqZ, <- list_fmap_compose.
        apply list_fmap_ext. intros i k _. cbn. rewrite Hnext.
        rewrite Zplus_mod_idemp_l. f_equal. lia.
      * rewrite IH2, Hnext. rewrite Zplus_mod_idemp_l. f_equal. lia.
    + subst e'. done.
Qed.

(** X1: the message IDs that successive calls of [encode_message] return
    are consecutive modulo 65536, starting from the counter; a rejected call
    (it returns [null]) uses up no ID.  So the IDs of up to 65536 accepted
    messages in a row are pairwise different, and each is newer, by the test
    of the decoder, than each of the 32767 accepted before it. *)
Theorem consecutive_message_ids e calls :
  0 <= Encoder.message_id e < 65536 →
  let ids := assigned (encode_messages e calls).1 in
  (∀ i : nat, (i < List.length ids)%nat →
     ids !! i = Some ((Encoder.message_id e + Z.of_nat i) mod 65536))
  ∧ Encoder.message_id (encode_messages e calls).2
    = (Encoder.message_id e + Z.of_nat (List.length ids)) mod 65536
  ∧ (Z.of_nat (List.length ids) <= 65536 → NoDup ids)
  ∧ (∀ (i j : nat) a b,
       ids !! i = Some a → ids !! j = Some b →
       Z.of_nat i < Z.of_nat j < Z.of_nat i + 32768 →
       _is_newer_message b a = true).
Proof.
  intros Hm ids. destruct (assigned_ids calls e Hm) as [Hids Hlast].
  fold ids in Hids, Hlast.
  assert (∀ i : nat, (i < List.length ids)%nat →
            ids !! i = Some ((Encoder.message_id e + Z.of_nat i) mod 65536))
    as Hnth.
  { intros i Hi. rewrite Hids, list_lookup_fmap.
    rewrite lookup_seqZ_lt by lia. cbn. do 2 f_equal; lia. }
  split_and!; try done.
  - intros Hlen. rewrite Hids. apply NoDup_fmap_2_strong; [|apply NoDup_seqZ].
    intros x y Hx%elem_of_seqZ Hy%elem_of_seqZ Heq.
    pose proof (Z.div_mod (Encoder.message_id e + x) 65536 ltac:(lia)).
    pose proof (Z.div_mod (Encoder.message_id e + y) 65536 ltac:(lia)).
    lia.
  - intros i j a b Ha Hb Hij.
    pose proof (lookup_lt_Some _ _ _ Ha). pose proof (lookup_lt_Some _ _ _ Hb).
    rewrite Hnth in Ha, Hb by done. injection Ha as <-. injection Hb as <-.
    apply is_newer_spec. rewrite <- Zminus_mod.
    replace (Encoder.message_id e + Z.of_nat j
             - (Encoder.message_id e + Z.of_nat i))
      with (Z.of_nat j - Z.of_nat i) by lia.
    rewrite Z.mod_small; lia.
Qed.

Lemma consecutive_message_ids_witness :
  NoDup (assigned
           (encode_messages (Encoder.new 7)
              [(JsBuffer [], 1); (JsOther, 1); (JsBuffer [], 64);
               (JsBuffer [], 2)]).1).
Proof.
  refine (proj1 (proj2 (proj2 (consecutive_message_ids (Encoder.new 7)
            [(JsBuffer [], 1); (JsOther, 1); (JsBuffer [], 64);
             (JsBuffer [], 2)] _))) _).
  all: vm_compute; try split; congruence.
Defined.

(** ** The buffer pool of the encoder *)

Lemma subarray_prefix (buffer : list byte) size :
  0 <= size <= Buffer.length buffer →
  Buffer.subarray buffer 0 size = take (Z.to_nat size) buffer.
Proof.
  intros H. unfold Buffer.subarray, Buffer.clamp_index.
  replace (size <? 0) with false by (symmetry; apply Z.ltb_ge; lia).
  change (0 <? 0) with false. cbv iota.
  replace (Z.min 0 (Buffer.length buffer)) with 0
    by (unfold Buffer.length in *; lia).
  rewrite drop_0. f_equal. lia.
Qed.

Lemma get_buffer_cases pool size :
  0 <= size →
  (Forall (λ buffer, Buffer.length buffer < size) pool
   ∧ ∃ fresh, Buffer.length fresh = size
              ∧ Encoder._get_buffer pool size = Some (fresh, pool))
  ∨ (∃ before buffer behind,
       pool = before ++ buffer :: behind
       ∧ Forall (λ b, Buffer.length b < size) before
       ∧ size <= Buffer.length buffer
       ∧ Encoder._get_buffer pool size
         = Some (take (Z.to_nat size) buffer, before ++ behind)).
Proof.
  intros Hs. induction pool as [|buffer rest IH].
  - left. split; [constructor|]. cbn. unfold Buffer.allocUnsafe.
    replace (size <? 0) with false by (symmetry; apply Z.ltb_ge; lia).
    cbn. eexists. split; [|done].
    unfold Buffer.length. rewrite length_replicate. lia.
  - cbn [Encoder._get_buffer]. rewrite Z.geb_leb.
    destruct (size <=? Buffer.length buffer) eqn:E.
    + apply Z.leb_le in E. right. exists [], buffer, rest.
      split_and!; try done. cbn [app]. do 2 f_equal.
      destruct (size =? Buffer.length buffer) eqn:E'.
      * apply Z.eqb_eq in E'. rewrite take_ge; [done|].
        unfold Buffer.length in *. lia.
      * apply subarray_prefix. lia.
    + apply Z.leb_gt in E.
      destruct IH as [[Hall (fresh & Hlen & ->)]
                     |(before & b & behind & -> & Hall & Hle & ->)].
      * left. split; [by constructor|]. by exists fresh.
      * right. exists (buffer :: before), b, behind.
        split_and!; try done. by constructor.
Qed.

Lemma get_buffer_sublist pool size b pool' :
  Encoder._get_buffer pool size = Some (b, pool') → pool' `sublist_of` pool.
Proof.
  revert b pool'. induction pool as [|buffer rest IH]; intros b pool'.
  - cbn. destruct (Buffer.allocUnsafe size); [|done]. by intros [= _ <-].
  - cbn [Encoder._get_buffer]. destruct (_ >=? _).
    + intros [= _ <-]. by apply sublist_cons.
    + destruct (Encoder._get_buffer rest size) as [[b' rest']|]; [|done].
      cbn. intros [= _ <-]. apply sublist_skip. by eapply IH.
Qed.

Lemma fragment_loop_sublist source_id message_buffer message_type message_id
    fragment_count (n : nat) :
  ∀ i pool,
  (Encoder.fragment_loop source_id pool message_buffer message_type message_id
     fragment_count i n).1.2 `sublist_of` pool.
Proof.
  induction n as [|n IH]; intros i pool; [done|].
  cbn [Encoder.fragment_loop].
  destruct (Encoder._get_buffer pool _) as [[packet_buffer pool1]|] eqn:E;
    [|done].
  apply get_buffer_sublist in E.
  destruct (Encoder.write_packet _ _ _ _ _ _ _ _ _); [|done].
  specialize (IH (i + 1) pool1).
  destruct (Encoder.fragment_loop _ pool1 _ _ _ _ _ _) as [[evs pool2] ok].
  cbn in *. by etrans.
Qed.

Lemma encode_pool_sublist e message_buffer message_type callback :
  Encoder._buffer_pool (Encoder.encode e message_buffer message_type callback).2
  `sublist_of` Encoder._buffer_pool e.
Proof.
  unfold Encoder.encode, Encoder.encode_message.
  destruct (_ || _); [done|]. destruct message_buffer as [b|]; [|done].
  destruct (_ >? _); [done|].
  cbn [Encoder.run_immediate]. unfold Encoder._encode_message_async.
  cbn [Encoder.increment_message_id Encoder.source_id Encoder._buffer_pool].
  pose proof (fragment_loop_sublist (Encoder.source_id e) b message_type
                (Encoder.message_id e)
                (Encoder.fragment_count_of (Buffer.length b))
                (Z.to_nat (Encoder.fragment_count_of (Buffer.length b)))
                0 (Encoder._buffer_pool e)) as H.
  destruct (Encoder.fragment_loop _ _ _ _ _ _ _ _) as [[evs pool] ok].
  by destruct ok.
Qed.

Lemma pool_bounded_sublist pool pool' :
  pool' `sublist_of` pool → pool_bounded pool → pool_bounded pool'.
Proof.
  intros Hsub [Hlen Hall]. split.
  - apply sublist_length in Hsub. lia.
  - rewrite Forall_forall in *. intros b Hb. apply Hall.
    by eapply sublist_submseteq, submseteq_Permutation in Hsub as [k ->];
      apply elem_of_app; left.
Qed.

(** X2: [_get_buffer] serves a request from the first pooled buffer that is
    long enough, which leaves the pool, cut to the size asked for; when no
    pooled buffer is long enough it allocates and the pool stays as it is.
    Either way the buffer handed out has exactly the size asked for. *)
Theorem get_buffer_spec pool size :
  0 <= size →
  ∃ b pool',
    Encoder._get_buffer pool size = Some (b, pool')
    ∧ Buffer.length b = size
    ∧ ((pool' = pool
        ∧ Forall (λ buffer, Buffer.length buffer < size) pool)
       ∨ ∃ before buffer behind,
           pool = before ++ buffer :: behind
           ∧ pool' = before ++ behind
           ∧ Forall (λ buffer, Buffer.length buffer < size) before
           ∧ size <= Buffer.length buffer
           ∧ b = take (Z.to_nat size) buffer).
Proof.
  intros Hs.
  destruct (get_buffer_cases pool size Hs)
    as [[Hall (fresh & Hlen & E)]|(before & buffer & behind & Hp & Hall & Hle & E)].
  - exists fresh, pool. split_and!; try done. by left.
  - eexists _, _. split; [exact E|]. split.
    + unfold Buffer.length in *. rewrite length_take. lia.
    + right. by exists before, buffer, behind.
Qed.

Lemma get_buffer_spec_witness :
  0 <= 2
  ∧ ∃ b pool',
      Encoder._get_buffer [[Byte.x01]; [Byte.x02; Byte.x03; Byte.x04]; []] 2
      = Some (b, pool')
      ∧ Buffer.length b = 2.
Proof.
  assert (0 <= 2) as H by lia. split; [exact H|].
  destruct (get_buffer_spec [[Byte.x01]; [Byte.x02; Byte.x03; Byte.x04]; []]
              2 H) as (b & pool' & E & Hl & _).
  by exists b, pool'.
Defined.

(** X3: the pool never holds more than 10 buffers, nor one above 64 KiB:
    [_return_buffer] keeps a buffer only within these bounds, and encoding a
    message puts no buffer into the pool (the pool afterwards is what is left
    of the pool before).  A buffer given back to an empty pool is the one the
    next request for its size gets. *)
Theorem buffer_pool_bounded e :
  pool_bounded (Encoder._buffer_pool e) →
  (∀ buffer,
     pool_bounded (Encoder._buffer_pool (Encoder._return_buffer e buffer)))
  ∧ (∀ message_buffer message_type callback,
       let e' := (Encoder.encode e message_buffer message_type callback).2 in
       Encoder._buffer_pool e' `sublist_of` Encoder._buffer_pool e
       ∧ pool_bounded (Encoder._buffer_pool e'))
  ∧ (∀ buffer,
       Encoder._buffer_pool e = [] →
       if Buffer.length buffer <=? 64 * 1024
       then Encoder._get_buffer
              (Encoder._buffer_pool (Encoder._return_buffer e buffer))
              (Buffer.length buffer)
            = Some (buffer, [])
       else Encoder._return_buffer e buffer = e).
Proof.
  intros [Hlen Hall]. split_and!.
  - intros buffer. unfold Encoder._return_buffer.
    destruct (Buffer.length buffer <=? 64 * 1024) eqn:E1; [|done].
    destruct (Z.of_nat _ <? 10) eqn:E2; [|done]. cbn.
    apply Z.leb_le in E1. apply Z.ltb_lt in E2. split.
    + rewrite length_app. cbn. lia.
    + apply Forall_app. split; [done|]. by constructor.
  - intros message_buffer message_type callback e'.
    pose proof (encode_pool_sublist e message_buffer message_type callback).
    split; [done|]. by eapply pool_bounded_sublist.
  - intros buffer Hempty. unfold Encoder._return_buffer. rewrite Hempty.
    destruct (Buffer.length buffer <=? 64 * 1024); [|done].
    change (Z.of_nat (List.length (@nil (list byte))) <? 10) with true.
    cbn. rewrite Z.geb_leb, Z.leb_refl, Z.eqb_refl. done.
Qed.

Lemma buffer_pool_bounded_witness :
  pool_bounded (Encoder._buffer_pool (Encoder.new 7))
  ∧ pool_bounded
      (Encoder._buffer_pool (Encoder._return_buffer (Encoder.new 7) [Byte.x01])).
Proof.
  assert (pool_bounded (Encoder._buffer_pool (Encoder.new 7))) as H.
  { split; [cbn; lia|constructor]. }
  split; [exact H|].
  exact (proj1 (buffer_pool_bounded (Encoder.new 7) H) [Byte.x01]).
Defined.

(** ** The events of one encoded message *)

Lemma wire_header_length version message_type message_id fragment_index
    fragment_count source_id :
  List.length (wire_header version message_type message_id fragment_index
                 fragment_count source_id) = 12%nat.
Proof. unfold wire_header. rewrite !length_app, !length_le_split. done. Qed.

Lemma fragment_payload_length message_buffer i :
  0 <= i →
  0 <= Buffer.length (fragment_payload message_buffer i) <= MAX_PAYLOAD_SIZE.
Proof.
  intros Hi. rewrite fragment_payload_chunk by done.
  unfold Buffer.length, MAX_PAYLOAD_SIZE. rewrite length_take. lia.
Qed.

Lemma sum_lengths (chunks : list (list byte)) :
  total_of (Buffer.length <$> chunks) = Buffer.length (concat chunks).
Proof.
  induction chunks as [|c chunks IH]; [done|].
  cbn. unfold total_of in IH. rewrite IH. unfold Buffer.length.
  rewrite length_app. lia.
Qed.

Lemma fragment_sizes_expected src message_buffer message_type message_id
    fragment_count (l : list Z) (tail : list Encoder.Event) :
  fragment_sizes
    ((expected_event src message_buffer message_type message_id fragment_count
      <$> l) ++ tail)
  = (Buffer.length <$> (fragment_payload message_buffer <$> l))
    ++ fragment_sizes tail.
Proof.
  induction l as [|k l IH]; [done|].
  cbn. unfold fragment_sizes in IH. by rewrite IH.
Qed.

(** X4: for an accepted message the encoder emits its packet events, then
    one [message:encoded] event, then calls the callback if there is one,
    once, both with the message ID, the type, the fragment count and
    [total_bytes] the length of the message.  Every packet is 12 bytes
    longer than the [fragment_size] reported with it, which is at most 1200
    (so no packet is above 1212 bytes), and the fragment sizes add up to
    [total_bytes]. *)
Theorem completion_follows_packets e message_buffer message_type callback :
  encoder_ok e → 0 <= message_type <= 63 →
  Encoder.fragment_count_of (Buffer.length message_buffer) <= 0xFFFF →
  let id := Encoder.message_id e in
  let len := Buffer.length message_buffer in
  let n := Encoder.fragment_count_of len in
  let evs :=
    (Encoder.encode e (JsBuffer message_buffer) message_type callback).1.2 in
  ∃ packet_events,
    evs = packet_events
          ++ Encoder.EvEncoded id message_type n len
             :: (if callback then [Encoder.EvCallback id message_type n len]
                 else [])
    ∧ Z.of_nat (List.length packet_events) = n
    ∧ (∀ (i : nat) ev, packet_events !! i = Some ev →
         ∃ p size,
           ev = Encoder.EvPacket p id message_type (Z.of_nat i) n size
           ∧ Buffer.length p = 12 + size ∧ 0 <= size <= 1200)
    ∧ total_of (fragment_sizes evs) = len.
Proof.
  intros He Ht Hc id len n evs.
  destruct (encode_events e message_buffer message_type callback He Ht Hc)
    as [pool' E].
  assert (1 <= n) as Hn by (unfold n, Encoder.fragment_count_of; lia).
  unfold evs. rewrite E. cbn [fst snd]. fold id len n.
  eexists. split; [reflexivity|]. split_and!.
  - rewrite length_fmap, length_seqZ. lia.
  - intros i ev. rewrite list_lookup_fmap.
    destruct (seqZ 0 n !! i) as [k|] eqn:Hk; [|done].
    apply lookup_seqZ in Hk as [-> Hi]. cbn. intros [= <-].
    eexists _, _. unfold expected_event. split.
    + f_equal; lia.
    + pose proof (fragment_payload_length message_buffer (0 + Z.of_nat i)
                    ltac:(lia)) as Hp.
      unfold MAX_PAYLOAD_SIZE in Hp. split; [|done].
      unfold expected_packet, Buffer.length.
      rewrite length_app, wire_header_length. lia.
  - rewrite fragment_sizes_expected.
    replace (fragment_sizes (Encoder.EvEncoded id message_type n len :: _))
      with (@nil Z) by (by destruct callback).
    rewrite app_nil_r, sum_lengths. unfold n, len.
    by rewrite concat_fragments.
Qed.

Lemma completion_follows_packets_witness :
  let e := Encoder.new 7 in
  let evs := (Encoder.encode e (JsBuffer [Byte.x41]) 5 true).1.2 in
  encoder_ok e ∧ 0 <= 5 <= 63
  ∧ Encoder.fragment_count_of (Buffer.length [Byte.x41]) <= 0xFFFF
  ∧ total_of (fragment_sizes evs) = 1.
Proof.
  intros e evs.
  assert (encoder_ok e) as H1 by (split; cbn; lia).
  assert (0 <= 5 <= 63) as H2 by lia.
  assert (Encoder.fragment_count_of (Buffer.length [Byte.x41]) <= 0xFFFF)
    as H3 by (vm_compute; discriminate).
  split_and!; try assumption.
  destruct (completion_follows_packets e [Byte.x41] 5 true H1 H2 H3)
    as (packet_events & _ & _ & _ & Hsum).
  exact Hsum.
Defined.

(** ** An encoder whose source ID does not fit 32 bits *)

Lemma write_packet_bad_source source_id message_buffer packet_buffer
    message_type message_id fragment_count fragment_index frag_start frag_end :
  ¬ (0 <= source_id < 2 ^ 32) →
  Encoder.write_packet source_id message_buffer packet_buffer message_type
    message_id fragment_count fragment_index frag_start frag_end = None.
Proof.
  intros Hs. unfold Encoder.write_packet.
  destruct (Buffer.writeUInt8 packet_buffer _ 0) as [b1|]; [|done]. cbn.
  destruct (Buffer.writeUInt8 b1 _ 1) as [b2|]; [|done]. cbn.
  destruct (Buffer.writeUInt16LE b2 _ 2) as [b3|]; [|done]. cbn.
  destruct (Buffer.writeUInt16LE b3 _ 4) as [b4|]; [|done]. cbn.
  destruct (Buffer.writeUInt16LE b4 _ 6) as [b5|]; [|done]. cbn.
  unfold Buffer.writeUInt32LE, Buffer.writeUIntLE.
  replace ((0 <=? source_id) && (source_id <? 2 ^ (8 * Z.of_nat 4)))
    with false; [done|].
  symmetry. apply andb_false_iff. rewrite Z.leb_gt, Z.ltb_ge.
  change (2 ^ (8 * Z.of_nat 4)) with (2 ^ 32). lia.
Qed.

(** X5: the constructor takes any number as source ID, but the header field
    has 32 bits: an encoder whose source ID is negative or above
    [0xFFFFFFFF] still accepts a well-formed message, returns its message ID
    and advances the counter, and then emits no packet, no completion and no
    callback, only the error event of the failed header write. *)
Theorem invalid_source_id_emits_error e message_buffer message_type callback :
  ¬ (0 <= Encoder.source_id e < 2 ^ 32) → 0 <= message_type <= 63 →
  Encoder.fragment_count_of (Buffer.length message_buffer) <= 0xFFFF →
  ∃ e',
    Encoder.encode e (JsBuffer message_buffer) message_type callback
    = (Some (Encoder.message_id e),
       [Encoder.EvError (Encoder.Thrown (Encoder.message_id e) message_type)],
       e')
    ∧ Encoder.message_id e' = (Encoder.message_id e + 1) mod 65536.
Proof.
  intros Hs Ht Hc.
  unfold Encoder.encode, Encoder.encode_message.
  replace ((message_type <? 0) || (message_type >? 63)) with false.
  2: { symmetry. rewrite orb_false_iff, Z.ltb_ge, Z.gtb_ltb, Z.ltb_ge. lia. }
  replace (_ >? 0xFFFF) with false.
  2: { symmetry. rewrite Z.gtb_ltb, Z.ltb_ge. lia. }
  cbn [Encoder.run_immediate]. unfold Encoder._encode_message_async.
  cbn [Encoder.source_id Encoder.increment_message_id Encoder._buffer_pool
         Encoder.message_id].
  assert (1 <= Encoder.fragment_count_of (Buffer.length message_buffer)) as H1.
  { unfold Encoder.fragment_count_of. lia. }
  destruct (Z.to_nat (Encoder.fragment_count_of (Buffer.length message_buffer)))
    as [|n'] eqn:En; [lia|].
  cbn [Encoder.fragment_loop].
  destruct (Encoder._get_buffer _ _) as [[packet_buffer pool1]|].
  - rewrite write_packet_bad_source by done. cbn. by eexists.
  - cbn. by eexists.
Qed.

Lemma invalid_source_id_emits_error_witness :
  ¬ (0 <= Encoder.source_id (Encoder.new (-1)) < 2 ^ 32) ∧ 0 <= 5 <= 63
  ∧ Encoder.fragment_count_of (Buffer.length [Byte.x41]) <= 0xFFFF
  ∧ ∃ e',
      Encoder.encode (Encoder.new (-1)) (JsBuffer [Byte.x41]) 5 true
      = (Some 0, [Encoder.EvError (Encoder.Thrown 0 5)], e').
Proof.
  assert (¬ (0 <= Encoder.source_id (Encoder.new (-1)) < 2 ^ 32)) as H1
    by (cbn; lia).
  assert (0 <= 5 <= 63) as H2 by lia.
  assert (Encoder.fragment_count_of (Buffer.length [Byte.x41]) <= 0xFFFF)
    as H3 by (vm_compute; discriminate).
  split_and!; try assumption.
  destruct (invalid_source_id_emits_error (Encoder.new (-1)) [Byte.x41] 5 true
              H1 H2 H3) as (e' & E & _).
  by exists e'.
Defined.

(** ** Which of two message IDs is the newer one *)

(** X6: of two message IDs that differ modulo 65536, exactly one is newer
    than the other, except that at a distance of exactly 32768 neither is;
    no ID is newer than itself, and never are both newer than each other.
    The test only looks at the IDs modulo 65536 and is unchanged when both
    move by the same amount. *)
Theorem is_newer_trichotomy a b :
  let dist := (a - b) mod 65536 in
  (dist = 0 →
     _is_newer_message a b = false ∧ _is_newer_message b a = false)
  ∧ (0 < dist < 32768 →
     _is_newer_message a b = true ∧ _is_newer_message b a = false)
  ∧ (dist = 32768 →
     _is_newer_message a b = false ∧ _is_newer_message b a = false)
  ∧ (32768 < dist →
     _is_newer_message a b = false ∧ _is_newer_message b a = true)
  ∧ (∀ k, _is_newer_message (a + k) (b + k) = _is_newer_message a b)
  ∧ (∀ k, _is_newer_message (a + 65536 * k) b = _is_newer_message a b)
  ∧ (∀ k, _is_newer_message a (b + 65536 * k) = _is_newer_message a b).
Proof.
  intros dist.
  pose proof (Z.mod_pos_bound (a - b) 65536 eq_refl) as Hd. fold dist in Hd.
  assert (dist ≠ 0 → (b - a) mod 65536 = 65536 - dist) as Hsym
    by apply circular_distance_sym.
  assert (dist = 0 → (b - a) mod 65536 = 0) as Hzero.
  { unfold dist. intros H0.
    apply Z.mod_divide in H0; [|done]. apply Z.mod_divide; [done|].
    destruct H0 as [q Hq]. exists (- q). lia. }
  split_and!.
  - intros H0. split; apply is_newer_false; [by left|left; by apply Hzero].
  - intros H. split; [by apply is_newer_spec|].
    apply is_newer_false. right. rewrite Hsym; lia.
  - intros H. split; apply is_newer_false; right; [lia|rewrite Hsym; lia].
  - intros H. split; [apply is_newer_false; right; lia|].
    apply is_newer_spec. rewrite Hsym; lia.
  - intros k. unfold _is_newer_message.
    by replace (a + k - (b + k)) with (a - b) by lia.
  - intros k. unfold _is_newer_message. change 0xFFFF with (Z.ones 16).
    rewrite !Z.land_ones by lia.
    replace (a + 65536 * k - b) with (a - b + k * 2 ^ 16) by lia.
    by rewrite Z.mod_add.
  - intros k. unfold _is_newer_message. change 0xFFFF with (Z.ones 16).
    rewrite !Z.land_ones by lia.
    replace (a - (b + 65536 * k)) with (a - b + (- k) * 2 ^ 16) by lia.
    by rewrite Z.mod_add.
Qed.

(** ** Validation of a packet *)

Lemma decode_packet_filters d p :
  ((Buffer.length p < 1 ∨ Buffer.readUInt8 p 0 ≠ MAGIC_BYTE)
   ∧ decode_packet d p = ignored d [])
  ∨ (Buffer.readUInt8 p 0 = MAGIC_BYTE ∧ 1 <= Buffer.length p < 12
     ∧ decode_packet d p = ignored d [EvError PacketTooShort])
  ∨ (Buffer.readUInt8 p 0 = MAGIC_BYTE ∧ 12 <= Buffer.length p
     ∧ packet_version p ≠ VERSION
     ∧ decode_packet d p
       = ignored d [EvError (UnsupportedVersion (packet_version p))])
  ∨ (Buffer.readUInt8 p 0 = MAGIC_BYTE ∧ 12 <= Buffer.length p
     ∧ packet_version p = VERSION ∧ ¬ addressed d p
     ∧ decode_packet d p = ignored d [])
  ∨ (Buffer.readUInt8 p 0 = MAGIC_BYTE ∧ 12 <= Buffer.length p
     ∧ packet_version p = VERSION ∧ addressed d p
     ∧ (packet_fragment_count p <= packet_fragment_index p
        ∨ packet_fragment_count p = 0
        ∨ MAX_PAYLOAD_SIZE < Buffer.length (packet_payload p))
     ∧ decode_packet d p
       = ignored d [EvError (InvalidFragment (packet_fragment_index p)
                               (packet_fragment_count p)
                               (Buffer.length (packet_payload p)))])
  ∨ (Buffer.readUInt8 p 0 = MAGIC_BYTE ∧ 12 <= Buffer.length p
     ∧ packet_version p = VERSION ∧ addressed d p
     ∧ accepted d p = true).
Proof.
  unfold decode_packet, accepted, addressed, listens.
  fold (packet_version p) (packet_type p) (packet_message_id p)
    (packet_fragment_index p) (packet_fragment_count p) (packet_source_id p)
    (packet_payload p).
  rewrite Z.geb_leb, Z.gtb_ltb, !Z.ltb_antisym.
  destruct (1 <=? Buffer.length p) eqn:E1;
    [apply Z.leb_le in E1|apply Z.leb_gt in E1; left; split; [lia|done]].
  destruct (Buffer.readUInt8 p 0 =? MAGIC_BYTE) eqn:E2;
    [apply Z.eqb_eq in E2|apply Z.eqb_neq in E2; left; split; [by right|done]].
  right.
  destruct (12 <=? Buffer.length p) eqn:E3;
    [apply Z.leb_le in E3|apply Z.leb_gt in E3; left; split_and!; try done; lia].
  right.
  destruct (packet_version p =? VERSION) eqn:E4;
    [apply Z.eqb_eq in E4|apply Z.eqb_neq in E4; left; by split_and!].
  right.
  destruct (packet_source_id p =? source_id d) eqn:E5;
    [apply Z.eqb_eq in E5
    |apply Z.eqb_neq in E5; left; split_and!; try done; by intros [? _]].
  destruct (message_types d) as [types|] eqn:Ety.
  - case_bool_decide as Hty; cbn [negb andb].
    2: { left. split_and!; try done. by intros [_ ?]. }
    right.
    destruct (packet_fragment_count p <=? packet_fragment_index p) eqn:E6;
      [apply Z.leb_le in E6; left; split_and!; try done; by left
      |apply Z.leb_gt in E6].
    destruct (packet_fragment_count p =? 0) eqn:E7;
      [apply Z.eqb_eq in E7; left; split_and!; try done; right; by left
      |apply Z.eqb_neq in E7].
    destruct (Buffer.length (packet_payload p) <=? MAX_PAYLOAD_SIZE) eqn:E8;
      [apply Z.leb_le in E8
      |apply Z.leb_gt in E8; left; split_and!; try done; right; by right].
    right. cbn. by split_and!.
  - cbn [negb andb]. right.
    destruct (packet_fragment_count p <=? packet_fragment_index p) eqn:E6;
      [apply Z.leb_le in E6; left; split_and!; try done; by left
      |apply Z.leb_gt in E6].
    destruct (packet_fragment_count p =? 0) eqn:E7;
      [apply Z.eqb_eq in E7; left; split_and!; try done; right; by left
      |apply Z.eqb_neq in E7].
    destruct (Buffer.length (packet_payload p) <=? MAX_PAYLOAD_SIZE) eqn:E8;
      [apply Z.leb_le in E8
      |apply Z.leb_gt in E8; left; split_and!; try done; right; by right].
    right. cbn. by split_and!.
Qed.

Lemma stored_errors d T id idx cnt evs a' e :
  Forall lifecycle evs →
  EvError e ∈ emitted (stored d T id idx cnt evs a') →
  (∃ r c, e = FragmentCountExceeded r c) ∨ (∃ why, e = ReassemblyFailed id why).
Proof.
  intros Hlife. rewrite Forall_forall in Hlife.
  unfold stored. repeat case_match; cbn [emitted ignored].
  - intros [Hin|Hin%list_elem_of_singleton]%elem_of_app;
      [by apply Hlife in Hin|].
    left. injection Hin as ->. by eexists _, _.
  - absent Hlife.
  - intros [[Hin|Hin%list_elem_of_singleton]%elem_of_app|Hin]%elem_of_app;
      [by apply Hlife in Hin|done|].
    apply reassemble_events in Hin
      as [(?&?&?&?)|[(?&?&?)|(why & [= ->])]]; try done.
    right. by eexists.
  - absent Hlife.
Qed.

Lemma accumulate_errors d T id idx cnt payload e :
  EvError e ∈ emitted (accumulate d T id idx cnt payload) →
  (∃ expected, e = MessageIdMismatch expected id)
  ∨ e = DuplicateFragment idx id
  ∨ (∃ r c, e = FragmentCountExceeded r c)
  ∨ (∃ why, e = ReassemblyFailed id why).
Proof.
  destruct (accumulate_cases d T id idx cnt payload)
    as [(?&?&?&->)|[(?&?&?&?&?&->)|[(?&?&?&?&->)|(evs&a&He&?&->)]]];
    cbn [emitted ignored].
  - by intros ?%elem_of_nil.
  - intros [= ->]%list_elem_of_singleton. left. by eexists.
  - intros [= ->]%list_elem_of_singleton. right. by left.
  - intros Hin. right. right.
    eapply stored_errors; [|done]. by eapply entry_lifecycle.
Qed.

(** X7: what [decode_packet] reports about a packet it does not take.  A
    buffer that is empty or does not start with the magic byte is dropped
    without an event.  The length and version checks come before the source
    and type filters, so "packet too short" and "unsupported version" are
    also reported for packets of other sources and of filtered types; an
    "invalid fragment" error (index not below count, count zero, or more
    than 1200 payload bytes) is reported only for a packet of the decoder's
    own source and of a type it accepts.  A packet that fails any check
    leaves the decoder unchanged, makes the call return false, defers
    nothing and emits at most that one error. *)
Theorem decode_packet_validation d p :
  let o := decode_packet d p in
  let jtp := 1 <= Buffer.length p ∧ Buffer.readUInt8 p 0 = MAGIC_BYTE in
  (¬ jtp → o = ignored d [])
  ∧ (EvError PacketTooShort ∈ emitted o ↔ jtp ∧ Buffer.length p < 12)
  ∧ (∀ v, EvError (UnsupportedVersion v) ∈ emitted o
          ↔ jtp ∧ 12 <= Buffer.length p
            ∧ v = packet_version p ∧ v ≠ VERSION)
  ∧ (∀ i c s, EvError (InvalidFragment i c s) ∈ emitted o
          ↔ jtp ∧ 12 <= Buffer.length p ∧ packet_version p = VERSION
            ∧ addressed d p
            ∧ i = packet_fragment_index p ∧ c = packet_fragment_count p
            ∧ s = Buffer.length (packet_payload p)
            ∧ (c <= i ∨ c = 0 ∨ MAX_PAYLOAD_SIZE < s))
  ∧ (jtp → 12 <= Buffer.length p → packet_version p = VERSION →
     ¬ addressed d p → o = ignored d [])
  ∧ (accepted d p = false →
     returned o = false ∧ after o = d ∧ deferred o = []
     ∧ (emitted o = [] ∨ ∃ e, emitted o = [EvError e])).
Proof.
  intros o jtp. unfold o, jtp. clear o jtp.
  assert (accepted d p = true →
          ∀ e, EvError e ∈ emitted (decode_packet d p) →
               e ≠ PacketTooShort ∧ (∀ v, e ≠ UnsupportedVersion v)
               ∧ ∀ i c s, e ≠ InvalidFragment i c s) as Hacc.
  { intros Hacc e. rewrite decode_packet_accepted by done.
    intros [(?&->)|[->|[(?&?&->)|(?&->)]]]%accumulate_errors; by split_and!. }
  assert (accepted d p = true →
          packet_fragment_index p < packet_fragment_count p
          ∧ packet_fragment_count p ≠ 0
          ∧ Buffer.length (packet_payload p) <= MAX_PAYLOAD_SIZE) as Hfields.
  { unfold accepted.
    rewrite !andb_true_iff, negb_true_iff, Z.ltb_lt, Z.eqb_neq, !Z.leb_le.
    tauto. }
  destruct (decode_packet_filters d p)
    as [[H ->]|[(Hm & Hl & ->)|[(Hm & Hl & Hv & ->)|[(Hm & Hl & Hv & Ha & ->)
       |[(Hm & Hl & Hv & Ha & Hbad & ->)|(Hm & Hl & Hv & Ha & Ht)]]]]];
    cbn [emitted ignored returned after deferred].
  - split_and!.
    + done.
    + rewrite elem_of_nil. split; [done|]. intros [[? ?] _]. lia.
    + intros v. rewrite elem_of_nil. split; [done|]. intros [[? ?] _]. lia.
    + intros i c s. rewrite elem_of_nil. split; [done|]. intros [[? ?] _]. lia.
    + done.
    + intros _. split_and!; try done. by left.
  - split_and!.
    + intros Hn. exfalso. apply Hn. split; [lia|done].
    + rewrite list_elem_of_singleton. split; [|done]. intros _.
      split_and!; try done; lia.
    + intros v. rewrite list_elem_of_singleton. split; [done|]. lia.
    + intros i c s. rewrite list_elem_of_singleton. split; [done|]. lia.
    + lia.
    + intros _. split_and!; try done. right. by eexists.
  - split_and!.
    + intros Hn. exfalso. apply Hn. split; [lia|done].
    + rewrite list_elem_of_singleton. split; [done|]. lia.
    + intros v. rewrite list_elem_of_singleton. split.
      * intros [= ->]. split_and!; try done; lia.
      * by intros (_ & _ & -> & _).
    + intros i c s. rewrite list_elem_of_singleton. split; [done|].
      by intros (_ & _ & ? & _).
    + done.
    + intros _. split_and!; try done. right. by eexists.
  - split_and!.
    + done.
    + rewrite elem_of_nil. split; [done|]. lia.
    + intros v. rewrite elem_of_nil. split; [done|]. by intros (_ & _ & -> & ?).
    + intros i c s. rewrite elem_of_nil. split; [done|].
      by intros (_ & _ & _ & ? & _).
    + done.
    + intros _. split_and!; try done. by left.
  - split_and!.
    + intros Hn. exfalso. apply Hn. split; [lia|done].
    + rewrite list_elem_of_singleton. split; [done|]. lia.
    + intros v. rewrite list_elem_of_singleton. split; [done|].
      by intros (_ & _ & -> & ?).
    + intros i c s. rewrite list_elem_of_singleton. split.
      * intros [= -> -> ->]. split_and!; try done; lia.
      * by intros (_ & _ & _ & _ & -> & -> & -> & _).
    + done.
    + intros _. split_and!; try done. right. by eexists.
  - specialize (Hacc Ht). destruct (Hfields Ht) as (Hi & Hc & Hs).
    split_and!.
    + intros Hn. exfalso. apply Hn. split; [lia|done].
    + split; [|lia]. intros Hin. by destruct (Hacc _ Hin) as (? & _).
    + intros v. split; [|by intros (_ & _ & -> & ?)].
      intros Hin. destruct (Hacc _ Hin) as (_ & Hn & _). by destruct (Hn v).
    + intros i c s. split.
      * intros Hin. destruct (Hacc _ Hin) as (_ & _ & Hn).
        by destruct (Hn i c s).
      * intros (_ & _ & _ & _ & -> & -> & -> & Hbad). lia.
    + done.
    + by rewrite Ht.
Qed.

(** ** The value that [decode_packet] returns *)

Lemma reassemble_no_receipt d T id T' id' idx cnt n :
  EvFragmentReceived T' id' idx cnt n ∉ (_reassemble_message d T id).1.
Proof.
  intros Hin. apply reassemble_events in Hin
    as [(?&?&?&?)|[(?&?&?)|(?&?)]]; done.
Qed.

Lemma stored_returns d T id idx cnt evs a' :
  Forall lifecycle evs →
  let o := stored d T id idx cnt evs a' in
  (returned o = true
   ∧ EvFragmentReceived T id idx cnt (fragments_received a') ∈ emitted o)
  ∨ (returned o = false ∧ deferred o = []
     ∧ after o = reset_message_state d (Some T)
     ∧ emitted o
       = evs ++ [EvError (FragmentCountExceeded (fragments_received a')
                            (fragment_count a'))]).
Proof.
  intros Hlife. unfold stored. repeat case_match; cbn.
  - right. split_and!; try done. by rewrite delete_insert_eq.
  - left. split; [done|]. apply elem_of_app. right. by left.
  - left. split; [done|]. rewrite elem_of_app. left.
    apply elem_of_app. right. by left.
  - left. split; [done|]. apply elem_of_app. right. by left.
Qed.

(** X8: [decode_packet] returns true exactly when it emits a
    [fragment_received] event, that is when the fragment was stored.  When
    it returns false it defers nothing, and the decoder is unchanged unless
    the call reports that the fragment count is exceeded, in which case the
    accumulator of the type of the packet is removed. *)
Theorem returns_true_iff_stored d p :
  let o := decode_packet d p in
  (returned o = true
   ↔ ∃ T id idx cnt n, EvFragmentReceived T id idx cnt n ∈ emitted o)
  ∧ (returned o = false →
     deferred o = []
     ∧ (after o = d
        ∨ ((∃ r c, EvError (FragmentCountExceeded r c) ∈ emitted o)
           ∧ after o = reset_message_state d (Some (packet_type p))))).
Proof.
  cbv zeta. destruct (accepted d p) eqn:E.
  2: { destruct (decode_packet_rejected d p E)
         as (Hr & Ha & Hd & [He|(e & He & _)]); rewrite Hr, He.
       - split; [|by split; [|left]]. split; [done|].
         by intros (?&?&?&?&?&?%elem_of_nil).
       - split; [|by split; [|left]]. split; [done|].
         by intros (?&?&?&?&?&?%list_elem_of_singleton). }
  rewrite decode_packet_accepted by done.
  destruct (accumulate_cases d (packet_type p) (packet_message_id p)
              (packet_fragment_index p) (packet_fragment_count p)
              (packet_payload p))
    as [(?&?&?&->)|[(?&?&?&?&?&->)|[(?&?&?&?&->)|(evs&a&He&?&->)]]];
    cbn [emitted ignored returned deferred after].
  - split; [|by split; [|left]]. split; [done|].
    by intros (?&?&?&?&?&?%elem_of_nil).
  - split; [|by split; [|left]]. split; [done|].
    by intros (?&?&?&?&?&?%list_elem_of_singleton).
  - split; [|by split; [|left]]. split; [done|].
    by intros (?&?&?&?&?&?%list_elem_of_singleton).
  - pose proof (entry_lifecycle _ _ _ _ _ _ He) as Hlife.
    destruct (stored_returns d (packet_type p) (packet_message_id p)
                (packet_fragment_index p) (packet_fragment_count p) evs
                (store a (packet_fragment_index p) (packet_payload p)) Hlife)
      as [[Hr Hin]|(Hr & Hd & Ha & Hev)]; rewrite Hr.
    + split; [|done]. split; [|done]. intros _. by eexists _, _, _, _, _.
    + split.
      * split; [done|]. intros (T & id & idx & cnt & n & Hin).
        rewrite Hev in Hin. rewrite Forall_forall in Hlife.
        apply elem_of_app in Hin as [Hin|Hin%list_elem_of_singleton];
          [by apply Hlife in Hin|done].
      * intros _. split; [done|]. right. split; [|done].
        eexists _, _. rewrite Hev. apply elem_of_app. right. by left.
Qed.

(** ** Resetting the decoder *)

(** X9: [reset_message_state], for all types or for the type of the packet,
    makes the decoder forget which message ID was in flight: the next valid
    fragment of that type is stored as the first fragment of a new message
    whatever its message ID, also one older than the message that was in
    flight before the reset.  A reassembly that was deferred for the type
    before the reset finds nothing and emits nothing. *)
Theorem reset_forgets_history d p message_type :
  accepted d p = true →
  message_type = None ∨ message_type = Some (packet_type p) →
  let d' := reset_message_state d message_type in
  let o := decode_packet d' p in
  returned o = true
  ∧ (∃ rest,
       emitted o
       = EvMessageStart (packet_type p) (packet_message_id p)
           (packet_fragment_count p)
         :: EvFragmentReceived (packet_type p) (packet_message_id p)
              (packet_fragment_index p) (packet_fragment_count p) 1
         :: rest)
  ∧ (∀ id, _reassemble_message d' (packet_type p) id = ([], d')).
Proof.
  intros Hacc Hty d' o.
  assert (_accumulators d' !! packet_type p = None) as Hnone.
  { destruct Hty as [->| ->]; cbn; [done|apply lookup_delete_eq]. }
  assert (accepted d' p = true) as Hacc'.
  { rewrite <- Hacc. unfold accepted. by destruct Hty as [->| ->]. }
  destruct (accepted_fields d p Hacc) as [Hidx _].
  split_and!.
  2: { unfold o. rewrite decode_packet_accepted by done.
       rewrite (accumulate_entry _ _ _ _ _ _ _ _
                  (entry_fresh d' _ _ _ Hnone) (lookup_empty _)).
       unfold stored. cbn [fragments_received store fresh_accumulator
                             fragment_count message_len].
       replace (0 + 1 >? packet_fragment_count p) with false
         by (symmetry; rewrite Z.gtb_ltb; apply Z.ltb_ge; lia).
       repeat case_match; cbn [emitted]; by eexists. }
  - unfold o. rewrite decode_packet_accepted by done.
    rewrite (accumulate_entry _ _ _ _ _ _ _ _
               (entry_fresh d' _ _ _ Hnone) (lookup_empty _)).
    unfold stored. cbn [fragments_received store fresh_accumulator
                          fragment_count message_len].
    replace (0 + 1 >? packet_fragment_count p) with false
      by (symmetry; rewrite Z.gtb_ltb; apply Z.ltb_ge; lia).
    by repeat case_match.
  - intros id. unfold _reassemble_message. by rewrite Hnone.
Qed.

Lemma reset_forgets_history_witness :
  let a := {| message_id := 10; fragment_count := 2; fragments_received := 1;
              fragments := {[0 := []]}; message_len := 0; valid := true |} in
  let d := with_accumulators (new 7 None) {[1 := a]} in
  let p := wire_header VERSION 1 9 1 2 7 in
  accepted d p = true
  ∧ returned (decode_packet d p) = false
  ∧ returned (decode_packet (reset_message_state d None) p) = true.
Proof.
  intros a d p.
  assert (accepted d p = true) as H1 by (vm_compute; reflexivity).
  split_and!; [assumption|vm_compute; reflexivity|].
  exact (proj1 (reset_forgets_history d p None H1 (or_introl eq_refl))).
Defined.

(** ** Bounds on the state of the decoder *)

Lemma read_bound width p offset :
  0 <= Buffer.readUIntLE width p offset < 2 ^ (8 * Z.of_nat width).
Proof.
  unfold Buffer.readUIntLE.
  pose proof (le_combine_bound
                (take width (drop (Z.to_nat offset) p ++ replicate width Byte.x00)))
    as H.
  rewrite length_take, length_app, length_replicate in H.
  replace (width `min` (List.length (drop (Z.to_nat offset) p) + width))%nat
    with width in H by lia.
  done.
Qed.

Lemma accepted_bounds d p :
  accepted d p = true →
  0 <= packet_type p < MAX_PACKET_TYPES
  ∧ match message_types d with
    | Some types => packet_type p ∈ types
    | None => True
    end
  ∧ 0 <= packet_message_id p <= MAX_MESSAGE_ID
  ∧ 0 <= packet_fragment_index p < packet_fragment_count p
  ∧ 1 <= packet_fragment_count p <= MAX_FRAGMENT_COUNT
  ∧ Buffer.length (packet_payload p) <= MAX_PAYLOAD_SIZE.
Proof.
  intros Hacc. destruct (accepted_fields d p Hacc) as [Hidx Hlen].
  pose proof (read_bound 2 p 2) as Hid. pose proof (read_bound 2 p 6) as Hcnt.
  change (2 ^ (8 * Z.of_nat 2)) with 65536 in Hid, Hcnt.
  unfold MAX_MESSAGE_ID, MAX_FRAGMENT_COUNT, MAX_PACKET_TYPES.
  fold (Buffer.readUInt16LE p 2) in Hid. fold (packet_message_id p) in Hid.
  fold (Buffer.readUInt16LE p 6) in Hcnt. fold (packet_fragment_count p) in Hcnt.
  split_and!; try lia.
  - apply land_63_range.
  - apply land_63_range.
  - unfold accepted in Hacc. rewrite !andb_true_iff in Hacc.
    destruct Hacc as [[[[_ Hty] _] _] _].
    destruct (message_types d); [|done]. by apply bool_decide_eq_true in Hty.
Qed.

Lemma decode_packet_bounded d p :
  map_Forall (λ _, accumulator_bounded) (_accumulators d) →
  map_Forall (λ _, accumulator_bounded) (_accumulators (after (decode_packet d p))).
Proof.
  intros H. destruct (accepted d p) eqn:E.
  2: { by destruct (decode_packet_rejected d p E) as (_ & -> & _). }
  rewrite decode_packet_accepted by done.
  destruct (accepted_bounds d p E) as (_ & _ & Hid & Hidx & Hcnt & Hlen).
  apply accumulate_Forall; [done|].
  intros a Ha _ _.
  assert (accumulator_bounded a) as (Ha1 & Ha2 & Ha3).
  { destruct Ha as [->|(_ & Ha & _)]; [|done].
    split; [done|]. split; [done|]. apply map_Forall_empty. }
  split; [done|]. split; [done|]. cbn [fragments store].
  apply map_Forall_insert_2; [|done]. unfold MAX_FRAGMENT_COUNT in *. lia.
Qed.

Lemma decode_packet_keys d p :
  keys_accepted d → keys_accepted (after (decode_packet d p)).
Proof.
  intros H T HT. destruct (decode_packet_config d p) as [_ ->].
  destruct (decide (T = packet_type p)) as [->|Hne].
  - destruct (accepted d p) eqn:E.
    + by destruct (accepted_bounds d p E) as (? & ? & _).
    + destruct (decode_packet_rejected d p E) as (_ & Ha & _).
      rewrite Ha in HT. by apply H.
  - rewrite decode_packet_frame in HT by done. by apply H.
Qed.

Lemma reset_keys d T : keys_accepted d → keys_accepted (reset_message_state d T).
Proof.
  intros H T' HT'.
  replace (message_types (reset_message_state d T)) with (message_types d)
    by (by destruct T).
  apply H. destruct T as [T|]; cbn in HT'.
  - destruct HT' as [a Ha]. apply lookup_delete_Some in Ha as [_ Ha]. by eexists.
  - rewrite lookup_empty in HT'. by destruct HT'.
Qed.

Lemma reassemble_keys d T id :
  keys_accepted d → keys_accepted (_reassemble_message d T id).2.
Proof.
  intros H. unfold _reassemble_message.
  repeat case_match; cbn [snd]; try done; by apply (reset_keys d (Some T)).
Qed.

Lemma run_invariant (I : Decoder.t → Prop) :
  (∀ d p, I d → I (after (decode_packet d p))) →
  (∀ d T, I d → I (reset_message_state d T)) →
  (∀ d T id, I d → I (_reassemble_message d T id).2) →
  ∀ actions w, I (decoder w) → I (decoder (run w actions).2).
Proof.
  intros Hp Hr Ht. induction actions as [|a actions IH]; intros w H; [done|].
  rewrite run_snd_cons. apply IH.
  destruct a as [p|T|]; cbn.
  - by apply Hp.
  - by apply Hr.
  - destruct (immediates w) as [|[T id] rest]; [done|].
    specialize (Ht (decoder w) T id H).
    by destruct (_reassemble_message (decoder w) T id).
Qed.

Lemma total_length_bound (m : gmap Z (list byte)) :
  map_Forall (λ _ fragment, Buffer.length fragment <= MAX_PAYLOAD_SIZE) m →
  total_length m <= MAX_PAYLOAD_SIZE * Z.of_nat (size m).
Proof.
  induction m as [|i b m Hi IH] using map_ind.
  - intros _. rewrite total_length_empty, map_size_empty. lia.
  - intros H. apply map_Forall_insert in H as [Hb H]; [|done].
    rewrite total_length_insert, map_size_insert_None by done.
    specialize (IH H). unfold MAX_PAYLOAD_SIZE in *. lia.
Qed.

(** X10: the state of a decoder stays within fixed bounds.  In every state
    that [new JTPDecoder], calls of [decode_packet] and [reset_message_state]
    and deferred reassemblies lead to, there are at most 64 accumulators,
    each filed under a type in 0..63 that the decoder accepts; each has a
    16-bit message ID, a fragment count in 1..65535, fragments of at most
    1200 bytes under 16-bit indices, and holds at most
    [1200 * fragment_count] bytes, which is at most [MAX_MESSAGE_SIZE]. *)
Theorem decoder_state_bounded src types actions :
  let d := decoder (run (start (new src types)) actions).2 in
  Z.of_nat (size (_accumulators d)) <= MAX_PACKET_TYPES
  ∧ keys_accepted d
  ∧ ∀ T a, _accumulators d !! T = Some a →
           accumulator_bounded a
           ∧ 0 <= message_len a <= MAX_PAYLOAD_SIZE * fragment_count a
           ∧ MAX_PAYLOAD_SIZE * fragment_count a <= MAX_MESSAGE_SIZE.
Proof.
  intros d.
  assert (keys_accepted d) as Hkeys.
  { apply (run_invariant keys_accepted).
    - apply decode_packet_keys.
    - apply reset_keys.
    - apply reassemble_keys.
    - intros T HT. cbn in HT. rewrite lookup_empty in HT. by destruct HT. }
  assert (map_Forall (λ _, accumulator_bounded) (_accumulators d)) as Hb.
  { apply (run_invariant
             (λ d, map_Forall (λ _, accumulator_bounded) (_accumulators d))).
    - apply decode_packet_bounded.
    - intros. by apply reset_Forall.
    - intros. by apply reassemble_Forall.
    - apply map_Forall_empty. }
  assert (decoder_ok d) as Hok by (apply run_ok, map_Forall_empty).
  split_and!; [|done|].
  - assert (dom (_accumulators d) ⊆ list_to_set (seqZ 0 MAX_PACKET_TYPES))
      as Hsub.
    { intros T HT%elem_of_dom. apply elem_of_list_to_set, elem_of_seqZ.
      destruct (Hkeys T HT) as [? _]. lia. }
    apply subseteq_size in Hsub.
    rewrite size_dom, size_list_to_set, length_seqZ in Hsub
      by apply NoDup_seqZ.
    unfold MAX_PACKET_TYPES in *. lia.
  - intros T a Hl. pose proof (Hb T a Hl) as (H1 & H2 & H3).
    destruct (Hok T a Hl) as (Hr & Hm & Hle).
    split; [done|].
    assert (total_length (fragments a)
            <= MAX_PAYLOAD_SIZE * Z.of_nat (size (fragments a))) as Htl.
    { apply total_length_bound. intros i b Hib. by apply (H3 i b Hib). }
    assert (0 <= total_length (fragments a)) as Hnn.
    { unfold total_length. apply (map_fold_weak_ind (λ s _, 0 <= s)); [done|].
      intros i b m s _ Hs. unfold Buffer.length. lia. }
    unfold MAX_MESSAGE_SIZE, MAX_PAYLOAD_SIZE, MAX_FRAGMENT_COUNT in *. lia.
Qed.

(** ** The events of completed messages *)

Lemma paired_app evs1 evs2 : paired evs1 → paired evs2 → paired (evs1 ++ evs2).
Proof.
  intros H1 H2. induction H1; cbn; [done|by constructor|by constructor].
Qed.

Lemma paired_lifecycle evs : Forall lifecycle evs → paired evs.
Proof.
  induction 1 as [|ev evs Hev _ IH]; [constructor|].
  apply paired_other; [|done]. by destruct ev.
Qed.

Lemma copy_length source target targetStart sourceStart sourceEnd b :
  Buffer.copy source target targetStart sourceStart sourceEnd = Some b →
  List.length b = List.length target.
Proof.
  unfold Buffer.copy. case_match; [done|]. intros [= <-]. apply blit_length.
Qed.

Lemma reassemble_loop_length m (n : nat) :
  ∀ message_buffer offset i b,
  reassemble_loop m message_buffer offset i n = inr b →
  List.length b = List.length message_buffer.
Proof.
  induction n as [|n IH]; intros message_buffer offset i b; cbn.
  - by intros [= <-].
  - destruct (m !! i) as [fragment|]; [|done].
    destruct (Buffer.copy _ _ _ _ _) as [message_buffer'|] eqn:E; [|done].
    intros H. apply IH in H. rewrite H. by eapply copy_length.
Qed.

Lemma reassemble_paired d T id : paired (_reassemble_message d T id).1.
Proof.
  unfold _reassemble_message.
  destruct (_accumulators d !! T) as [a|]; [|constructor].
  destruct (negb _); [constructor|]. cbn [fst].
  unfold Buffer.allocUnsafe.
  destruct (message_len a <? 0) eqn:E.
  { apply paired_other; [done|constructor]. }
  apply Z.ltb_ge in E.
  destruct (reassemble_loop _ _ _ _ _) as [why|b] eqn:El.
  { apply paired_other; [done|constructor]. }
  apply reassemble_loop_length in El. rewrite length_replicate in El.
  apply paired_message; [|constructor]. unfold Buffer.length. lia.
Qed.

Lemma decode_packet_paired d p : paired (emitted (decode_packet d p)).
Proof.
  destruct (accepted d p) eqn:E.
  2: { destruct (decode_packet_rejected d p E)
         as (_ & _ & _ & [->|(e & -> & _)]); [constructor|].
       apply paired_other; [done|constructor]. }
  rewrite decode_packet_accepted by done.
  destruct (accumulate_cases d (packet_type p) (packet_message_id p)
              (packet_fragment_index p) (packet_fragment_count p)
              (packet_payload p))
    as [(?&?&?&->)|[(?&?&?&?&?&->)|[(?&?&?&?&->)|(evs&a&He&?&->)]]];
    cbn [emitted ignored].
  - constructor.
  - apply paired_other; [done|constructor].
  - apply paired_other; [done|constructor].
  - pose proof (paired_lifecycle _ (entry_lifecycle _ _ _ _ _ _ He)) as Hevs.
    unfold stored. repeat case_match; cbn [emitted ignored].
    + apply paired_app; [done|]. apply paired_other; [done|constructor].
    + apply paired_app; [done|]. apply paired_other; [done|constructor].
    + apply paired_app; [|apply reassemble_paired].
      apply paired_app; [done|]. apply paired_other; [done|constructor].
    + apply paired_app; [done|]. apply paired_other; [done|constructor].
Qed.

(** X11: whatever packets, resets and turns of the event loop a decoder goes
    through, every [message] event it emits carries a Buffer of exactly
    [total_bytes] bytes and is followed at once by the [message_complete]
    event with the same type, message ID, fragment count and [total_bytes];
    no [message_complete] comes without its [message]. *)
Theorem message_events_paired src types actions :
  paired (run (start (new src types)) actions).1.
Proof.
  generalize (start (new src types)).
  induction actions as [|a actions IH]; intros w; [constructor|].
  cbn [run]. destruct (step w a) as [evs w1] eqn:Es.
  specialize (IH w1). destruct (run w1 actions) as [evs' w2].
  cbn [fst] in *. apply paired_app; [|done].
  destruct a as [p|T|]; cbn in Es.
  - injection Es as <- _. apply decode_packet_paired.
  - injection Es as <- _. constructor.
  - destruct (immediates w) as [|[T id] rest].
    + injection Es as <- _. constructor.
    + pose proof (reassemble_paired (decoder w) T id) as H.
      destruct (_reassemble_message (decoder w) T id).
      by injection Es as <- _.
Qed.

(** ** Fragment counts that agree *)

Lemma no_count_exceeded d p :
  decoder_in_range d → fits d p = true →
  ∀ r c, EvError (FragmentCountExceeded r c) ∉ emitted (decode_packet d p).
Proof.
  intros H Hfit r c.
  destruct (accepted d p) eqn:E.
  2: { destruct (decode_packet_rejected d p E) as (_ & _ & _ & [->|(e & -> & He)]).
       - apply not_elem_of_nil.
       - intros [= <-]%list_elem_of_singleton.
         destruct He as [?|[(?&?)|(?&?&?&?)]]; done. }
  destruct (accepted_fields d p E) as [Hidx _].
  rewrite decode_packet_accepted by done.
  destruct (accumulate_cases d (packet_type p) (packet_message_id p)
              (packet_fragment_index p) (packet_fragment_count p)
              (packet_payload p))
    as [(?&?&?&->)|[(?&?&?&?&?&->)|[(?&?&?&?&->)|(evs&a&He&Hn&->)]]];
    cbn [emitted ignored].
  - apply not_elem_of_nil.
  - by intros ?%list_elem_of_singleton.
  - by intros ?%list_elem_of_singleton.
  - pose proof (entry_lifecycle _ _ _ _ _ _ He) as Hlife.
    rewrite Forall_forall in Hlife.
    assert (fragments_received a + 1 <= fragment_count a) as Hroom.
    { destruct He as [Hl|old Hl Hnew|a Hl Hid]; cbn; try lia.
      destruct (H _ _ Hl) as [(Hs & _ & Hle) Hin].
      destruct (decide (fragments_received a = fragment_count a)) as [Hfull|];
        [|lia].
      destruct (complete_is_full a Hin Hs Hfull (packet_fragment_index p))
        as [b Hb]; [|by rewrite Hn in Hb].
      unfold fits in Hfit. rewrite E, Hl, Hid, Z.eqb_refl in Hfit.
      apply Z.ltb_lt in Hfit. lia. }
    unfold stored. cbn [fragments_received fragment_count store].
    replace (fragments_received a + 1 >? fragment_count a) with false
      by (symmetry; rewrite Z.gtb_ltb; apply Z.ltb_ge; lia).
    repeat case_match; cbn [emitted].
    + absent Hlife.
    + intros [[Hin|Hin%list_elem_of_singleton]%elem_of_app|Hin]%elem_of_app;
        [by apply Hlife in Hin|done|].
      apply reassemble_events in Hin as [(?&?&?&?)|[(?&?&?)|(?&?)]]; done.
    + absent Hlife.
Qed.

(** X12: as long as every fragment that joins a message in flight has its
    index below the fragment count that message was started with (as when
    all fragments of a message carry the same fragment count), the decoder
    never reports that a fragment count is exceeded, through any sequence of
    packets, resets and deferred reassemblies. *)
Theorem fitting_run_never_exceeds_count src types actions :
  well_behaved (start (new src types)) actions = true →
  ∀ r c,
    EvError (FragmentCountExceeded r c)
    ∉ (run (start (new src types)) actions).1.
Proof.
  intros Hwb r c.
  assert (decoder_in_range (decoder (start (new src types)))) as Hr
    by apply map_Forall_empty.
  revert Hr Hwb. generalize (start (new src types)).
  induction actions as [|a actions IH]; intros w Hr Hwb.
  { apply not_elem_of_nil. }
  cbn [well_behaved] in Hwb. apply andb_true_iff in Hwb as [Ha Hwb].
  assert (decoder_in_range (decoder (step w a).2)) as Hr'.
  { pose proof (run_in_range [a] w Hr) as H1. cbn [well_behaved] in H1.
    rewrite Ha in H1. specialize (H1 eq_refl).
    rewrite run_snd_cons in H1. exact H1. }
  specialize (IH (step w a).2 Hr' Hwb).
  cbn [run]. destruct (step w a) as [evs w1] eqn:Es.
  cbn [snd] in IH. destruct (run w1 actions) as [evs' w2]. cbn [fst] in *.
  intros [Hin|Hin]%elem_of_app; [|done].
  destruct a as [p|T|]; cbn in Es.
  - injection Es as <- _. by apply (no_count_exceeded (decoder w) p Hr Ha r c).
  - injection Es as <- _. by apply elem_of_nil in Hin.
  - destruct (immediates w) as [|[T id] rest].
    + injection Es as <- _. by apply elem_of_nil in Hin.
    + pose proof (reassemble_events (decoder w) T id
                    (EvError (FragmentCountExceeded r c))) as H.
      destruct (_reassemble_message (decoder w) T id).
      injection Es as <- _.
      destruct (H Hin) as [(?&?&?&?)|[(?&?&?)|(?&?)]]; done.
Qed.

Lemma fitting_run_never_exceeds_count_witness :
  let actions :=
    [Accept (wire_header VERSION 1 9 0 2 7); Turn;
     Accept (wire_header VERSION 1 9 1 2 7); Reset None] in
  well_behaved (start (new 7 None)) actions = true
  ∧ EvError (FragmentCountExceeded 3 2) ∉ (run (start (new 7 None)) actions).1.
Proof.
  intros actions.
  assert (well_behaved (start (new 7 None)) actions = true) as H
    by (vm_compute; reflexivity).
  split; [exact H|].
  exact (fitting_run_never_exceeds_count 7 None actions H 3 2).
Defined.

(** ** Delivery of a message of any size *)

Lemma packet_decode src T id msg d k :
  0 <= src < 2 ^ 32 → 0 <= T <= 63 → 0 <= id < 2 ^ 16 →
  Encoder.fragment_count_of (Buffer.length msg) <= 0xFFFF →
  listens src T d →
  0 <= k < Encoder.fragment_count_of (Buffer.length msg) →
  let p := expected_packet src msg T id
             (Encoder.fragment_count_of (Buffer.length msg)) k in
  accepted d p = true
  ∧ packet_type p = T ∧ packet_message_id p = id
  ∧ packet_fragment_index p = k
  ∧ packet_fragment_count p = Encoder.fragment_count_of (Buffer.length msg)
  ∧ packet_source_id p = src
  ∧ packet_payload p = fragment_payload msg k.
Proof.
  intros Hsrc HT Hid Hcnt [Hs Hty] Hk p.
  destruct (header_fields VERSION T id k
              (Encoder.fragment_count_of (Buffer.length msg)) src
              (fragment_payload msg k))
    as (Hl & Hmagic & Hv & Ht & Hi & Hx & Hc & Hsr & Hp);
    try (unfold VERSION; lia).
  rewrite (land_63_id T HT) in Ht.
  fold (expected_packet src msg T id
          (Encoder.fragment_count_of (Buffer.length msg)) k) in *.
  fold p in Hl, Hmagic, Hv, Ht, Hi, Hx, Hc, Hsr, Hp.
  split_and!; try done.
  unfold accepted. rewrite Hl, Hmagic, Hv, Ht, Hx, Hc, Hsr, Hp, Hs.
  rewrite !Z.eqb_refl.
  pose proof (fragment_payload_length msg k ltac:(lia)).
  rewrite !andb_true_iff, negb_true_iff, !Z.leb_le, Z.ltb_lt, Z.eqb_neq.
  split_and!; try done; try lia.
  destruct (message_types d); [|done]. by apply bool_decide_eq_true.
Qed.

Lemma decode_all_app d ps qs :
  decode_all d (ps ++ qs)
  = ((decode_all d ps).1.1 ++ (decode_all (decode_all d ps).2 qs).1.1,
     (decode_all d ps).1.2 ++ (decode_all (decode_all d ps).2 qs).1.2,
     (decode_all (decode_all d ps).2 qs).2).
Proof.
  revert d. induction ps as [|p ps IH]; intros d; cbn [app decode_all].
  - cbn [fst snd app]. by destruct (decode_all d qs) as [[? ?] ?].
  - rewrite IH. destruct (decode_all (after (decode_packet d p)) ps) as [[? ?] ?].
    cbn [fst snd]. by rewrite !app_assoc.
Qed.

Lemma run_app actions1 actions2 :
  ∀ w, run w (actions1 ++ actions2)
       = ((run w actions1).1 ++ (run (run w actions1).2 actions2).1,
          (run (run w actions1).2 actions2).2).
Proof.
  induction actions1 as [|a actions1 IH]; intros w; cbn [app run].
  - cbn [fst snd app]. by destruct (run w actions2).
  - destruct (step w a) as [evs w1]. rewrite IH.
    destruct (run w1 actions1) as [evs1 w2]. cbn [fst snd].
    by rewrite app_assoc.
Qed.

Lemma run_accepts ps :
  ∀ w, run w (Accept <$> ps)
       = ((decode_all (decoder w) ps).1.1,
          {| decoder := (decode_all (decoder w) ps).2;
             immediates := immediates w ++ (decode_all (decoder w) ps).1.2 |}).
Proof.
  induction ps as [|p ps IH]; intros w; cbn [fmap list_fmap run decode_all].
  - cbn. rewrite app_nil_r. by destruct w.
  - cbn [step]. fold (list_fmap _ _ Accept ps).
    change (list_fmap _ _ Accept ps) with (Accept <$> ps).
    rewrite IH. cbn [decoder immediates].
    destruct (decode_all (after (decode_packet (decoder w) p)) ps)
      as [[evs imm] d'].
    cbn [fst snd]. by rewrite app_assoc.
Qed.

Lemma decoder_eq d d' :
  source_id d' = source_id d → message_types d' = message_types d →
  (∀ T, _accumulators d' !! T = _accumulators d !! T) → d' = d.
Proof.
  destruct d, d'. cbn. intros -> -> H. f_equal. by apply map_eq.
Qed.

Lemma same_elsewhere_refl T d : same_elsewhere T d d.
Proof. by split_and!. Qed.

Lemma same_elsewhere_trans T d1 d2 d3 :
  same_elsewhere T d1 d2 → same_elsewhere T d2 d3 → same_elsewhere T d1 d3.
Proof.
  intros (H1 & H2 & H3) (H4 & H5 & H6). split_and!; try congruence.
  intros T' Hne. by rewrite H6, H3.
Qed.

Lemma decode_packet_elsewhere T d p :
  packet_type p = T → same_elsewhere T d (after (decode_packet d p)).
Proof.
  intros <-. destruct (decode_packet_config d p) as [Hs Ht].
  split_and!; try done. intros T' Hne. by apply decode_packet_frame.
Qed.

Lemma decode_all_elsewhere T ps :
  ∀ d, Forall (λ p, packet_type p = T) ps →
       same_elsewhere T d (decode_all d ps).2.
Proof.
  induction ps as [|p ps IH]; intros d Hall; cbn [decode_all].
  - apply same_elsewhere_refl.
  - apply Forall_cons in Hall as [Hp Hall].
    specialize (IH (after (decode_packet d p)) Hall).
    destruct (decode_all (after (decode_packet d p)) ps) as [[evs imm] d'].
    cbn [snd] in *. eapply same_elsewhere_trans; [|done].
    by apply decode_packet_elsewhere.
Qed.

Lemma same_elsewhere_reset T d d' :
  same_elsewhere T d d' →
  reset_message_state d' (Some T) = reset_message_state d (Some T).
Proof.
  intros (Hs & Ht & Hl). apply decoder_eq; try done.
  intros T'. cbn. destruct (decide (T' = T)) as [->|Hne].
  - by rewrite !lookup_delete_eq.
  - rewrite !lookup_delete_ne by done. by apply Hl.
Qed.

Lemma reset_absent d T :
  _accumulators d !! T = None → reset_message_state d (Some T) = d.
Proof.
  intros Hl. apply decoder_eq; try done.
  intros T'. cbn. destruct (decide (T' = T)) as [->|Hne].
  - by rewrite lookup_delete_eq.
  - by rewrite lookup_delete_ne.
Qed.

Lemma receipts_app T id cnt ks1 ks2 :
  ∀ n, receipts T id cnt n (ks1 ++ ks2)
       = receipts T id cnt n ks1
         ++ receipts T id cnt (n + Z.of_nat (List.length ks1)) ks2.
Proof.
  induction ks1 as [|k ks1 IH]; intros n; cbn [app receipts List.length].
  - by rewrite Z.add_0_r.
  - rewrite IH. cbn. do 3 f_equal. lia.
Qed.

Lemma completed_app evs1 evs2 :
  completed (evs1 ++ evs2) = completed evs1 ++ completed evs2.
Proof. apply omap_app. Qed.

Lemma errors_app evs1 evs2 : errors (evs1 ++ evs2) = errors evs1 ++ errors evs2.
Proof. apply omap_app. Qed.

Lemma completed_lifecycle evs tail :
  Forall lifecycle evs → completed (evs ++ tail) = completed tail.
Proof.
  induction 1 as [|ev evs Hev _ IH]; [done|]. cbn. by destruct ev.
Qed.

Lemma errors_lifecycle evs tail :
  Forall lifecycle evs → errors (evs ++ tail) = errors tail.
Proof.
  induction 1 as [|ev evs Hev _ IH]; [done|]. cbn. by destruct ev.
Qed.

Lemma prelude_lifecycle T id cnt d : Forall lifecycle (prelude T id cnt d).
Proof. unfold prelude. case_match; by repeat constructor. Qed.

Section Delivery.
Variables (src T id : Z) (msg : list byte).
Local Abbreviation count := (Encoder.fragment_count_of (Buffer.length msg)).
Local Abbreviation packet := (expected_packet src msg T id count).

Hypothesis Hsrc : 0 <= src < 2 ^ 32.
Hypothesis HT : 0 <= T <= 63.
Hypothesis Hid : 0 <= id < 2 ^ 16.
Hypothesis Hcount : count <= 0xFFFF.

Lemma count_pos : 1 <= count.
Proof. unfold Encoder.fragment_count_of. lia. Qed.

Lemma gathering_entry d D k :
  gathering src T id msg d D → k ∉ D →
  ∃ a, entry d T id count (overture T id count d D) a
       ∧ fragments a !! k = None
       ∧ (accumulator_ok a
          ∨ fragments a = ∅ ∧ fragments_received a = 0 ∧ message_len a = 0)
       ∧ message_id a = id ∧ fragment_count a = count
       ∧ fragments_received a = Z.of_nat (List.length D)
       ∧ ∀ j, fragments a !! j
              = if decide (j ∈ D) then Some (fragment_payload msg j) else None.
Proof.
  intros [_ Hc] Hk. destruct D as [|k0 D].
  - exists (fresh_accumulator id count). unfold vacant in Hc.
    unfold overture, prelude.
    destruct (_accumulators d !! T) as [old|] eqn:Hl.
    + split_and!; try done; [by apply entry_newer|by right].
    + split_and!; try done; [by apply entry_fresh|by right].
  - destruct Hc as (a & Hl & Hi & Hn & Hr & Hok & Hf).
    exists a. split_and!; try done.
    + by constructor.
    + rewrite Hf. by rewrite decide_False.
    + by left.
Qed.

Lemma deliver_fragment d D k :
  gathering src T id msg d D → NoDup (k :: D) →
  (∀ j, j ∈ k :: D → 0 <= j < count) →
  let o := decode_packet d (packet k) in
  let receipt :=
    EvFragmentReceived T id k count (Z.of_nat (List.length D) + 1) in
  returned o = true ∧ listens src T (after o)
  ∧ (Z.of_nat (List.length D) + 1 < count →
     emitted o = overture T id count d D ++ [receipt]
     ∧ deferred o = []
     ∧ gathering src T id msg (after o) (k :: D))
  ∧ (Z.of_nat (List.length D) + 1 = count →
     if reassembly_deferred count (Buffer.length msg)
     then emitted o = overture T id count d D ++ [receipt]
          ∧ deferred o = [(T, id)]
          ∧ _reassemble_message (after o) T id
            = (closing T id count msg,
               reset_message_state (after o) (Some T))
          ∧ ∃ a, _accumulators (after o) !! T = Some a
                 ∧ message_id a = id ∧ fragment_count a = count
                 ∧ fragments_received a = count
     else emitted o = overture T id count d D ++ [receipt]
                      ++ closing T id count msg
          ∧ deferred o = []
          ∧ _accumulators (after o) !! T = None).
Proof.
  intros Hcol Hnd Hrange.
  apply NoDup_cons in Hnd as [Hk HndD].
  destruct (gathering_entry d D k Hcol Hk)
    as (a & He & Hnone & Hok & Hi & Hn & Hr & Hf).
  destruct Hcol as [Hlis _].
  assert (0 <= k < count) as Hkr by (apply Hrange; left).
  destruct (packet_decode src T id msg d k Hsrc HT Hid Hcount Hlis Hkr)
    as (Hacc & Hp1 & Hp2 & Hp3 & Hp4 & _ & Hp6).
  cbv zeta.
  assert (listens src T (after (decode_packet d (packet k)))) as Hlis'.
  { destruct (decode_packet_config d (packet k)) as [Hs Ht].
    unfold listens. by rewrite Hs, Ht. }
  rewrite decode_packet_accepted by done.
  rewrite Hp1, Hp2, Hp3, Hp4, Hp6.
  rewrite decode_packet_accepted, Hp1, Hp2, Hp3, Hp4, Hp6 in Hlis' by done.
  rewrite (accumulate_entry _ _ _ _ _ _ _ _ He Hnone) in Hlis' |- *.
  set (a' := store a k (fragment_payload msg k)) in *.
  assert (∀ j, fragments a' !! j
               = if decide (j ∈ k :: D) then Some (fragment_payload msg j)
                 else None) as Hf'.
  { intros j. unfold a'. cbn [fragments store].
    destruct (decide (j = k)) as [->|Hne].
    - rewrite lookup_insert_eq. rewrite decide_True; [done|left].
    - rewrite lookup_insert_ne by done. rewrite Hf.
      destruct (decide (j ∈ D)).
      + rewrite decide_True; [done|by right].
      + rewrite decide_False; [done|]. rewrite elem_of_cons. tauto. }
  assert (Z.of_nat (List.length D) + 1 <= count) as Hle.
  { assert (List.length (k :: D) ≤ List.length (seqZ 0 count))%nat as Hsub.
    { apply submseteq_length, NoDup_submseteq; [by constructor|].
      intros j Hj. apply elem_of_seqZ. specialize (Hrange j Hj). lia. }
    rewrite length_seqZ in Hsub. simpl in Hsub. lia. }
  assert (accumulator_ok a') as Hok'.
  { apply store_ok; [done|done|]. unfold a'. cbn [fragments_received store]. lia. }
  assert (indices_in_range a') as Hin.
  { intros j Hj. rewrite Hf' in Hj. destruct (decide (j ∈ k :: D)).
    - change (fragment_count a') with (fragment_count a). rewrite Hn.
      by apply Hrange.
    - by destruct Hj. }
  assert (fragments_received a' = Z.of_nat (List.length D) + 1) as Hr'.
  { unfold a'. cbn [fragments_received store]. lia. }
  assert (fragment_count a' = count) as Hn' by done.
  assert (message_id a' = id) as Hi' by done.
  unfold stored in Hlis' |- *. fold a' in Hlis' |- *.
  rewrite Hr', Hn' in Hlis' |- *.
  replace (Z.of_nat (List.length D) + 1 >? count) with false in Hlis' |- *
    by (symmetry; rewrite Z.gtb_ltb; apply Z.ltb_ge; lia).
  destruct (Z.of_nat (List.length D) + 1 =? count) eqn:Efin.
  - apply Z.eqb_eq in Efin.
    assert (_accumulators (with_accumulators d (<[T:=a']> (_accumulators d)))
              !! T = Some a') as Hl'.
    { cbn [_accumulators with_accumulators]. apply lookup_insert_eq. }
    assert (fragments_received a' = fragment_count a') as Hfull by lia.
    pose proof (reassemble_complete _ _ _ Hl' Hok' Hin Hfull) as Hre.
    rewrite Hi', Hn' in Hre.
    assert (in_order (fragments a') 0 count = msg) as Hmsg.
    { unfold in_order.
      transitivity (concat (fragment_payload msg <$> seqZ 0 count));
        [|apply concat_fragments].
      f_equal. apply list_fmap_ext. intros i j Hj.
      apply list_elem_of_lookup_2, elem_of_seqZ in Hj.
      destruct (complete_is_full a' Hin (proj1 Hok') Hfull j ltac:(lia))
        as [b Hb].
      rewrite Hf' in Hb |- *. by destruct (decide (j ∈ k :: D)). }
    assert (message_len a' = Buffer.length msg) as Hml.
    { destruct Hok' as (Hs' & Hm' & _). rewrite Hm'.
      rewrite (total_length_in_order (seqZ 0 count)).
      - fold (in_order (fragments a') 0 count). by rewrite Hmsg.
      - apply NoDup_seqZ.
      - intros j. rewrite elem_of_seqZ. split.
        + intros Hj. apply Hin in Hj. lia.
        + intros Hj. apply (complete_is_full a' Hin Hs' Hfull). lia. }
    rewrite Hmsg, Hml in Hre. rewrite Hml in Hlis' |- *.
    fold (reassembly_deferred count (Buffer.length msg)) in Hlis' |- *.
    destruct (reassembly_deferred count (Buffer.length msg)).
    + cbn [returned deferred emitted after] in Hlis' |- *.
      split; [done|]. split; [done|]. split; [intros; lia|].
      intros _. split; [done|]. split; [done|]. split; [done|].
      exists a'. split; [done|]. split; [done|]. split; [done|]. lia.
    + rewrite Hre in Hlis' |- *.
      cbn [returned deferred emitted after fst snd] in Hlis' |- *.
      split; [done|]. split; [done|]. split; [intros; lia|].
      intros _. split_and!.
      * by rewrite <- app_assoc.
      * done.
      * cbn. apply lookup_delete_eq.
  - apply Z.eqb_neq in Efin.
    cbn [returned deferred emitted after] in Hlis' |- *.
    split; [done|]. split; [done|]. split; [|intros; lia].
    intros _. split; [done|]. split; [done|]. split; [done|].
    exists a'. split; [cbn; apply lookup_insert_eq|].
    split_and!; try done. rewrite Hr'. simpl. lia.
Qed.

Lemma deliver_some ks :
  ∀ D d,
  gathering src T id msg d D → NoDup (ks ++ D) →
  (∀ j, j ∈ ks ++ D → 0 <= j < count) →
  Z.of_nat (List.length (ks ++ D)) < count →
  ∃ d',
    decode_all d (packet <$> ks)
    = (match ks with
       | [] => []
       | _ => overture T id count d D
              ++ receipts T id count (Z.of_nat (List.length D)) ks
       end, [], d')
    ∧ gathering src T id msg d' (reverse ks ++ D).
Proof.
  induction ks as [|k ks IH]; intros D d Hcol Hnd Hrange Hlen.
  { by exists d. }
  assert (NoDup (k :: D)) as HndkD.
  { apply NoDup_cons. apply NoDup_cons in Hnd as [Hk Hnd].
    split; [|by apply NoDup_app in Hnd as (_&_&?)].
    by eapply not_elem_of_app_tail. }
  assert (∀ j, j ∈ k :: D → 0 <= j < count) as HrkD.
  { intros j Hj. apply Hrange. by apply elem_of_cons_app_tail. }
  destruct (deliver_fragment d D k Hcol HndkD HrkD) as (_ & _ & Hmid & _).
  destruct Hmid as (Hev & Hdef & Hcol').
  { cbn [app List.length] in Hlen. rewrite length_app in Hlen. lia. }
  destruct (IH (k :: D) (after (decode_packet d (packet k))) Hcol')
    as (d' & Hrun & Hcol'').
  - by rewrite <- Permutation_middle.
  - intros j Hj. apply Hrange. by apply elem_of_app_cons_middle.
  - rewrite <- Permutation_middle. done.
  - exists d'. cbn [fmap list_fmap decode_all].
    fold (list_fmap Z (list byte) packet ks).
    change (list_fmap Z (list byte) packet ks) with (packet <$> ks).
    rewrite Hrun, Hev, Hdef. split.
    + f_equal. f_equal. cbn [receipts]. rewrite <- app_assoc. f_equal.
      cbn [app]. f_equal. destruct ks as [|k2 ks]; [done|].
      cbn [overture app List.length]. do 2 f_equal. lia.
    + rewrite reverse_cons, <- app_assoc. done.
Qed.

Lemma deliver_fragments ks :
  ∀ D d,
  gathering src T id msg d D → NoDup (ks ++ D) →
  (∀ j, j ∈ ks ++ D → 0 <= j < count) →
  Z.of_nat (List.length (ks ++ D)) = count → ks ≠ [] →
  ∃ d',
    decode_all d (packet <$> ks)
    = (overture T id count d D
       ++ receipts T id count (Z.of_nat (List.length D)) ks
       ++ (if reassembly_deferred count (Buffer.length msg) then []
           else closing T id count msg),
       if reassembly_deferred count (Buffer.length msg) then [(T, id)] else [],
       d')
    ∧ listens src T d'
    ∧ if reassembly_deferred count (Buffer.length msg)
      then _reassemble_message d' T id
           = (closing T id count msg, reset_message_state d' (Some T))
           ∧ ∃ a, _accumulators d' !! T = Some a
                  ∧ message_id a = id ∧ fragment_count a = count
                  ∧ fragments_received a = count
      else _accumulators d' !! T = None.
Proof.
  induction ks as [|k ks IH]; intros D d Hcol Hnd Hrange Hlen Hne; [done|].
  assert (NoDup (k :: D)) as HndkD.
  { apply NoDup_cons. apply NoDup_cons in Hnd as [Hk Hnd].
    split; [|by apply NoDup_app in Hnd as (_&_&?)].
    by eapply not_elem_of_app_tail. }
  assert (∀ j, j ∈ k :: D → 0 <= j < count) as HrkD.
  { intros j Hj. apply Hrange. by apply elem_of_cons_app_tail. }
  destruct (deliver_fragment d D k Hcol HndkD HrkD) as (_ & Hlis & Hmid & Hfin).
  cbn [fmap list_fmap decode_all].
  destruct ks as [|k2 ks].
  - exists (after (decode_packet d (packet k))).
    cbn [fmap list_fmap decode_all receipts].
    specialize (Hfin ltac:(cbn in Hlen; lia)).
    destruct (reassembly_deferred count (Buffer.length msg)).
    + destruct Hfin as (Hev & Hdef & Hlast & Hacc).
      rewrite Hev, Hdef, !app_nil_r. by split_and!.
    + destruct Hfin as (Hev & Hdef & Hlast).
      rewrite Hev, Hdef, !app_nil_r. by split_and!.
  - destruct Hmid as (Hev & Hdef & Hcol').
    { cbn [app List.length] in Hlen. rewrite length_app in Hlen.
      cbn [List.length] in Hlen. lia. }
    destruct (IH (k :: D) (after (decode_packet d (packet k))) Hcol')
      as (d' & Hrun & Hlis' & Hlast); try done.
    + by rewrite <- Permutation_middle.
    + intros j Hj. apply Hrange. by apply elem_of_app_cons_middle.
    + rewrite <- Hlen. rewrite !length_app. cbn [List.length]. lia.
    + exists d'. fold (list_fmap Z (list byte) packet) in Hrun |- *.
      change (list_fmap Z (list byte) packet (k2 :: ks))
        with (packet <$> k2 :: ks).
      rewrite Hrun, Hev, Hdef. split_and!; try done.
      cbn [receipts overture List.length]. rewrite <- !app_assoc. cbn [app].
      replace (Z.of_nat (S (List.length D)))
        with (Z.of_nat (List.length D) + 1) by lia.
      done.
Qed.

Lemma packets_of_type ks :
  (∀ j, j ∈ ks → 0 <= j < count) →
  Forall (λ p, packet_type p = T) (packet <$> ks).
Proof.
  intros Hrange. apply Forall_fmap, Forall_forall. intros k Hk. cbn.
  by destruct (packet_decode src T id msg (new src None) k Hsrc HT Hid Hcount
                 ltac:(by split) (Hrange k Hk)) as (_ & ? & _).
Qed.

Lemma deliver_and_turn d ks :
  listens src T d → vacant T id d → ks ≡ₚ seqZ 0 count →
  run (start d) ((Accept <$> (packet <$> ks)) ++ [Turn])
  = (prelude T id count d ++ receipts T id count 0 ks
     ++ closing T id count msg,
     start (reset_message_state d (Some T)))
  ∧ (run (start d) (Accept <$> (packet <$> ks))).1
    = prelude T id count d ++ receipts T id count 0 ks
      ++ (if reassembly_deferred count (Buffer.length msg) then []
          else closing T id count msg).
Proof.
  intros Hlis Hvac Hks. pose proof count_pos as Hpos.
  assert (∀ j, j ∈ ks → 0 <= j < count) as Hrange.
  { intros j. rewrite Hks, elem_of_seqZ. lia. }
  destruct (deliver_fragments ks [] d) as (d' & Hrun & _ & Hlast).
  - done.
  - rewrite app_nil_r, Hks. apply NoDup_seqZ.
  - intros j. rewrite app_nil_r. apply Hrange.
  - rewrite app_nil_r, Hks, length_seqZ. lia.
  - intros ->. apply Permutation_nil_l in Hks.
    apply (f_equal List.length) in Hks. rewrite length_seqZ in Hks.
    cbn in Hks. lia.
  - pose proof (decode_all_elsewhere T (packet <$> ks) d
                  (packets_of_type ks Hrange)) as Hsame.
    rewrite Hrun in Hsame. cbn [snd] in Hsame.
    rewrite run_app, run_accepts. cbn [decoder immediates start fst snd].
    rewrite Hrun. cbn [fst snd overture List.length app].
    split; [|done].
    destruct (reassembly_deferred count (Buffer.length msg)).
    + destruct Hlast as [Hlast _].
      cbn [run step immediates decoder]. rewrite Hlast.
      cbn [fst snd]. rewrite !app_nil_r, <- !app_assoc.
      by rewrite (same_elsewhere_reset T d d').
    + cbn [run step immediates decoder fst snd]. rewrite !app_nil_r.
      rewrite <- (same_elsewhere_reset T d d') by done.
      by rewrite reset_absent.
Qed.

Lemma overture_lifecycle d D : Forall lifecycle (overture T id count d D).
Proof. destruct D; [apply prelude_lifecycle|constructor]. Qed.

Lemma deliver_duplicate d D k :
  gathering src T id msg d D → (∀ j, j ∈ D → 0 <= j < count) → k ∈ D →
  decode_packet d (packet k) = ignored d [EvError (DuplicateFragment k id)].
Proof.
  intros [Hlis Hc] Hrange Hk.
  destruct (packet_decode src T id msg d k Hsrc HT Hid Hcount Hlis
              (Hrange k Hk)) as (Hacc & Hp1 & Hp2 & Hp3 & _).
  destruct D as [|k0 D]; [by apply elem_of_nil in Hk|].
  destruct Hc as (a & Hl & Hi & _ & _ & _ & Hf).
  rewrite <- Hp1 in Hl.
  rewrite (duplicate_in_flight d (packet k) a Hacc Hl).
  - by rewrite Hp2, Hp3.
  - by rewrite Hp2.
  - rewrite Hp3, Hf. by rewrite decide_True.
Qed.

Lemma bounded_indices (D : list Z) :
  NoDup D → (∀ j, j ∈ D → 0 <= j < count) →
  Z.of_nat (List.length D) <= count.
Proof.
  intros Hnd Hrange.
  assert (List.length D ≤ List.length (seqZ 0 count))%nat as Hsub.
  { apply submseteq_length, NoDup_submseteq; [done|].
    intros j Hj. apply elem_of_seqZ. specialize (Hrange j Hj). lia. }
  rewrite length_seqZ in Hsub. pose proof count_pos. lia.
Qed.

Lemma deliver_repeating ks :
  ∀ D d,
  gathering src T id msg d D → NoDup D →
  (∀ j, j ∈ ks ++ D → 0 <= j < count) →
  (∃ m, 0 <= m < count ∧ m ∉ ks ++ D) →
  ∃ evs d' D',
    decode_all d (packet <$> ks) = (evs, [], d')
    ∧ completed evs = []
    ∧ errors evs = (λ k, DuplicateFragment k id) <$> repeats D ks
    ∧ gathering src T id msg d' D' ∧ NoDup D'
    ∧ (∀ j, j ∈ D' ↔ j ∈ ks ∨ j ∈ D)
    ∧ (List.length D' + List.length (repeats D ks)
       = List.length D + List.length ks)%nat.
Proof.
  induction ks as [|k ks IH]; intros D d Hcol Hnd Hrange (m & Hm & Hmiss).
  { exists [], d, D. split_and!; try done. intros j. rewrite elem_of_nil. tauto. }
  cbn [fmap list_fmap decode_all repeats].
  fold (list_fmap Z (list byte) packet ks).
  change (list_fmap Z (list byte) packet ks) with (packet <$> ks).
  destruct (decide (k ∈ D)) as [Hk|Hk].
  - assert (∀ j, j ∈ D → 0 <= j < count) as HrD.
    { intros j Hj. apply Hrange, elem_of_app. by right. }
    rewrite (deliver_duplicate d D k Hcol HrD Hk).
    cbn [after emitted deferred ignored].
    destruct (IH D d Hcol Hnd) as (evs & d' & D' & Hrun & Hc & He & Hg & Hn & Hin & Hlen).
    { intros j Hj. apply Hrange. by right. }
    { exists m. split; [done|]. intros Hj. apply Hmiss. by right. }
    rewrite Hrun. eexists _, d', D'. split; [reflexivity|].
    split_and!; try done.
    + rewrite errors_app, He. done.
    + intros j. rewrite Hin, elem_of_cons. split; [tauto|].
      intros [[->|?]|?]; tauto.
    + cbn [List.length]. lia.
  - assert (NoDup (k :: D)) as HndkD by (by constructor).
    assert (∀ j, j ∈ k :: D → 0 <= j < count) as HrkD.
    { intros j Hj. apply Hrange. by apply elem_of_cons_app_tail. }
    assert (Z.of_nat (List.length D) + 1 < count) as Hroom.
    { pose proof (bounded_indices (m :: k :: D)) as Hb.
      cbn [List.length] in Hb. rewrite !Nat2Z.inj_succ in Hb.
      cut (Z.succ (Z.succ (Z.of_nat (List.length D))) <= count); [lia|].
      apply Hb.
      - constructor; [|done]. intros Hin. apply Hmiss.
        by apply elem_of_cons_app_tail.
      - intros j [->|Hj]%elem_of_cons; [done|]. by apply HrkD. }
    destruct (deliver_fragment d D k Hcol HndkD HrkD) as (_ & _ & Hmid & _).
    destruct (Hmid Hroom) as (Hev & Hdef & Hcol').
    destruct (IH (k :: D) (after (decode_packet d (packet k))) Hcol' HndkD)
      as (evs & d' & D' & Hrun & Hc & He & Hg & Hn & Hin & Hlen).
    { intros j Hj. apply Hrange. by apply elem_of_app_cons_middle. }
    { exists m. split; [done|]. intros Hj. apply Hmiss.
      by apply elem_of_app_cons_middle. }
    rewrite Hrun, Hev, Hdef. eexists _, d', D'. split; [reflexivity|].
    split_and!; try done.
    + rewrite <- app_assoc, completed_lifecycle by apply overture_lifecycle.
      done.
    + rewrite <- app_assoc, errors_lifecycle by apply overture_lifecycle.
      done.
    + intros j. rewrite Hin, !elem_of_cons. tauto.
    + cbn [List.length] in *. lia.
Qed.

Lemma finish_and_turn d0 d D ks :
  same_elsewhere T d0 d → gathering src T id msg d D → NoDup (ks ++ D) →
  (∀ j, j ∈ ks ++ D → 0 <= j < count) →
  Z.of_nat (List.length (ks ++ D)) = count → ks ≠ [] →
  run (start d) ((Accept <$> (packet <$> ks)) ++ [Turn])
  = (overture T id count d D
     ++ receipts T id count (Z.of_nat (List.length D)) ks
     ++ closing T id count msg,
     start (reset_message_state d0 (Some T))).
Proof.
  intros Hsame0 Hcol Hnd Hrange Hlen Hne.
  destruct (deliver_fragments ks D d Hcol Hnd Hrange Hlen Hne)
    as (d' & Hrun & _ & Hlast).
  assert (same_elsewhere T d0 d') as Hsame.
  { eapply same_elsewhere_trans; [exact Hsame0|].
    pose proof (decode_all_elsewhere T (packet <$> ks) d) as H.
    rewrite Hrun in H. apply H, packets_of_type.
    intros j Hj. apply Hrange, elem_of_app. by left. }
  rewrite run_app, run_accepts. cbn [decoder immediates start fst snd].
  rewrite Hrun. cbn [fst snd app].
  destruct (reassembly_deferred count (Buffer.length msg)).
  - destruct Hlast as [Hlast _].
    cbn [run step immediates decoder]. rewrite Hlast.
    cbn [fst snd]. rewrite ?app_nil_r, <- ?app_assoc.
    by rewrite (same_elsewhere_reset T d0 d').
  - cbn [run step immediates decoder fst snd]. rewrite ?app_nil_r.
    rewrite <- ?app_assoc.
    rewrite <- (same_elsewhere_reset T d0 d') by done.
    by rewrite reset_absent.
Qed.
End Delivery.

Lemma message_delivery e d message_buffer message_type callback delivered :
  encoder_ok e → 0 <= message_type <= 63 →
  Encoder.fragment_count_of (Buffer.length message_buffer) <= 0xFFFF →
  listens (Encoder.source_id e) message_type d →
  vacant message_type (Encoder.message_id e) d →
  delivered
  ≡ₚ Encoder.packets
       (Encoder.encode e (JsBuffer message_buffer) message_type callback).1.2 →
  let id := Encoder.message_id e in
  let n := Encoder.fragment_count_of (Buffer.length message_buffer) in
  ∃ ks,
    ks ≡ₚ seqZ 0 n
    ∧ delivered
      = expected_packet (Encoder.source_id e) message_buffer message_type id n
        <$> ks
    ∧ run (start d) ((Accept <$> delivered) ++ [Turn])
      = (prelude message_type id n d ++ receipts message_type id n 0 ks
         ++ closing message_type id n message_buffer,
         start (reset_message_state d (Some message_type)))
    ∧ (run (start d) (Accept <$> delivered)).1
      = prelude message_type id n d ++ receipts message_type id n 0 ks
        ++ (if reassembly_deferred n (Buffer.length message_buffer) then []
            else closing message_type id n message_buffer).
Proof.
  intros He Ht Hc Hlis Hvac Hperm id n.
  destruct (sent_packets e message_buffer message_type callback He Ht Hc)
    as [_ Hsent].
  rewrite Hsent in Hperm. destruct He as [Hs Hm].
  apply Permutation_map_inv in Hperm as (ks & -> & Hks).
  exists ks. split; [by symmetry|]. split; [done|].
  apply (deliver_and_turn (Encoder.source_id e) message_type
           (Encoder.message_id e) message_buffer Hs Ht Hm Hc d ks Hlis Hvac).
  by symmetry.
Qed.

(** ** Round trips *)

Lemma completed_closing T id cnt msg :
  completed (closing T id cnt msg) = [(msg, T, id, cnt, Buffer.length msg)].
Proof. reflexivity. Qed.

Lemma completed_delivery T id cnt d ks tail :
  completed (prelude T id cnt d ++ receipts T id cnt 0 ks ++ tail)
  = completed tail.
Proof.
  rewrite completed_lifecycle by apply prelude_lifecycle.
  apply completed_receipts.
Qed.

Lemma errors_delivery T id cnt d ks tail :
  errors (prelude T id cnt d ++ receipts T id cnt 0 ks ++ tail) = errors tail.
Proof.
  rewrite errors_lifecycle by apply prelude_lifecycle.
  apply errors_receipts.
Qed.

Lemma vacant_absent T id d : _accumulators d !! T = None → vacant T id d.
Proof. intros H. unfold vacant. by rewrite H. Qed.

(** X13: a message of any size the encoder accepts (up to 65535 fragments),
    all of whose packets reach, in any order, a decoder of the same source
    ID that accepts the type and has no message of that type in flight, is
    delivered exactly once, unchanged, with no error.  A message of at most
    100 fragments and 64 KiB is delivered by the call that takes its last
    fragment; a larger one is delivered on the next turn of the event loop
    and not before.  Afterwards the decoder is exactly as it was before the
    first packet. *)
Theorem any_size_round_trip e d message_buffer message_type callback delivered :
  encoder_ok e → 0 <= message_type <= 63 →
  Encoder.fragment_count_of (Buffer.length message_buffer) <= 0xFFFF →
  listens (Encoder.source_id e) message_type d →
  _accumulators d !! message_type = None →
  delivered
  ≡ₚ Encoder.packets
       (Encoder.encode e (JsBuffer message_buffer) message_type callback).1.2 →
  let n := Encoder.fragment_count_of (Buffer.length message_buffer) in
  let message :=
    (message_buffer, message_type, Encoder.message_id e, n,
     Buffer.length message_buffer) in
  let arrived := run (start d) (Accept <$> delivered) in
  let turned := run arrived.2 [Turn] in
  completed (arrived.1 ++ turned.1) = [message]
  ∧ errors (arrived.1 ++ turned.1) = []
  ∧ turned.2 = start d
  ∧ completed arrived.1
    = (if reassembly_deferred n (Buffer.length message_buffer) then []
       else [message])
  ∧ ∃ ks,
      delivered
      = expected_packet (Encoder.source_id e) message_buffer message_type
          (Encoder.message_id e) n <$> ks
      ∧ arrived.1 ++ turned.1
        = EvMessageStart message_type (Encoder.message_id e) n
          :: receipts message_type (Encoder.message_id e) n 0 ks
          ++ closing message_type (Encoder.message_id e) n message_buffer.
Proof.
  intros He Ht Hc Hlis Hnone Hperm n message arrived turned.
  destruct (message_delivery e d message_buffer message_type callback delivered
              He Ht Hc Hlis (vacant_absent _ _ _ Hnone) Hperm)
    as (ks & Hks & Hdel & Hrun & Harr).
  rewrite run_app in Hrun. fold arrived in Hrun, Harr. fold turned in Hrun.
  injection Hrun as Hev Hfin. fold n in Hev, Harr, Hdel.
  rewrite Hev, Hfin, Harr, !completed_delivery, errors_delivery.
  split_and!; try done.
  - f_equal. by apply (reset_absent d message_type).
  - by destruct (reassembly_deferred n (Buffer.length message_buffer)).
  - exists ks. split; [done|]. unfold prelude. by rewrite Hnone.
Qed.

Lemma any_size_round_trip_witness :
  let e := Encoder.new 7 in
  let d := new 7 (Some [5]) in
  let m := [Byte.x41; Byte.x42] in
  let delivered := Encoder.packets (Encoder.encode e (JsBuffer m) 5 false).1.2 in
  encoder_ok e ∧ 0 <= 5 <= 63
  ∧ Encoder.fragment_count_of (Buffer.length m) <= 0xFFFF
  ∧ listens (Encoder.source_id e) 5 d
  ∧ _accumulators d !! 5 = None
  ∧ completed (run (start d) (Accept <$> delivered)).1 = [(m, 5, 0, 1, 2)].
Proof.
  intros e d m delivered.
  assert (encoder_ok e) as H1 by (split; cbn; lia).
  assert (0 <= 5 <= 63) as H2 by lia.
  assert (Encoder.fragment_count_of (Buffer.length m) <= 0xFFFF) as H3
    by (vm_compute; discriminate).
  assert (listens (Encoder.source_id e) 5 d) as H4.
  { split; [reflexivity|]. cbn. set_solver. }
  assert (_accumulators d !! 5 = None) as H5 by reflexivity.
  split_and!; try assumption.
  exact (proj1 (proj2 (proj2 (proj2
           (any_size_round_trip e d m 5 false delivered H1 H2 H3 H4 H5
              (Permutation_refl _)))))).
Defined.

(** X14: the replay of a delivered message is delivered again.  The decoder
    keeps nothing of a message once it is complete, so the same packets,
    arriving a second time, start the same message anew and complete it a
    second time, without any error. *)
Theorem completed_message_is_forgotten e d message_buffer message_type callback
    delivered :
  encoder_ok e → 0 <= message_type <= 63 →
  Encoder.fragment_count_of (Buffer.length message_buffer) <= 0xFFFF →
  listens (Encoder.source_id e) message_type d →
  _accumulators d !! message_type = None →
  delivered
  ≡ₚ Encoder.packets
       (Encoder.encode e (JsBuffer message_buffer) message_type callback).1.2 →
  let message :=
    (message_buffer, message_type, Encoder.message_id e,
     Encoder.fragment_count_of (Buffer.length message_buffer),
     Buffer.length message_buffer) in
  let once := (Accept <$> delivered) ++ [Turn] in
  completed (run (start d) (once ++ once)).1 = [message; message]
  ∧ errors (run (start d) (once ++ once)).1 = []
  ∧ (run (start d) (once ++ once)).2 = start d.
Proof.
  intros He Ht Hc Hlis Hnone Hperm message once.
  destruct (message_delivery e d message_buffer message_type callback delivered
              He Ht Hc Hlis (vacant_absent _ _ _ Hnone) Hperm)
    as (ks & Hks & _ & Hrun & _).
  fold once in Hrun. rewrite (reset_absent d message_type Hnone) in Hrun.
  rewrite run_app, Hrun. cbn [fst snd]. rewrite Hrun. cbn [fst snd].
  rewrite completed_app, errors_app, !completed_delivery, !errors_delivery.
  done.
Qed.

Lemma completed_message_is_forgotten_witness :
  let e := Encoder.new 7 in
  let d := new 7 None in
  let m := [Byte.x41; Byte.x42] in
  let delivered := Encoder.packets (Encoder.encode e (JsBuffer m) 5 false).1.2 in
  let once := (Accept <$> delivered) ++ [Turn] in
  encoder_ok e ∧ 0 <= 5 <= 63
  ∧ Encoder.fragment_count_of (Buffer.length m) <= 0xFFFF
  ∧ listens (Encoder.source_id e) 5 d
  ∧ _accumulators d !! 5 = None
  ∧ completed (run (start d) (once ++ once)).1
    = [(m, 5, 0, 1, 2); (m, 5, 0, 1, 2)].
Proof.
  intros e d m delivered once.
  assert (encoder_ok e) as H1 by (split; cbn; lia).
  assert (0 <= 5 <= 63) as H2 by lia.
  assert (Encoder.fragment_count_of (Buffer.length m) <= 0xFFFF) as H3
    by (vm_compute; discriminate).
  assert (listens (Encoder.source_id e) 5 d) as H4 by (by split).
  assert (_accumulators d !! 5 = None) as H5 by reflexivity.
  split_and!; try assumption.
  exact (proj1 (completed_message_is_forgotten e d m 5 false delivered
                  H1 H2 H3 H4 H5 (Permutation_refl _))).
Defined.

(** X15: a message whose packets all arrive while an older message of the
    same type is still incomplete replaces it: the decoder first reports the
    older message as incomplete, with the number of fragments it had
    received, then delivers the new message whole and without error; the
    accumulator of the older message is gone and every other type is
    untouched. *)
Theorem newer_message_replaces_older e d old message_buffer message_type
    callback delivered :
  encoder_ok e → 0 <= message_type <= 63 →
  Encoder.fragment_count_of (Buffer.length message_buffer) <= 0xFFFF →
  listens (Encoder.source_id e) message_type d →
  _accumulators d !! message_type = Some old →
  _is_newer_message (Encoder.message_id e) (message_id old) = true →
  delivered
  ≡ₚ Encoder.packets
       (Encoder.encode e (JsBuffer message_buffer) message_type callback).1.2 →
  let n := Encoder.fragment_count_of (Buffer.length message_buffer) in
  let result := run (start d) ((Accept <$> delivered) ++ [Turn]) in
  (∃ rest,
     result.1
     = EvMessageIncomplete message_type (message_id old)
         (fragments_received old) (fragment_count old)
       :: EvMessageStart message_type (Encoder.message_id e) n
       :: rest)
  ∧ completed result.1
    = [(message_buffer, message_type, Encoder.message_id e, n,
        Buffer.length message_buffer)]
  ∧ errors result.1 = []
  ∧ result.2 = start (reset_message_state d (Some message_type)).
Proof.
  intros He Ht Hc Hlis Hold Hnew Hperm n result.
  destruct (message_delivery e d message_buffer message_type callback delivered
              He Ht Hc Hlis) as (ks & Hks & _ & Hrun & _); [|done|].
  { unfold vacant. by rewrite Hold. }
  fold n in Hrun. fold result in Hrun. rewrite Hrun. cbn [fst snd].
  rewrite completed_delivery, errors_delivery.
  split_and!; try done.
  unfold prelude. rewrite Hold. by eexists.
Qed.

Lemma newer_message_replaces_older_witness :
  let old := {| message_id := 65535; fragment_count := 3;
                fragments_received := 1; fragments := {[0 := []]};
                message_len := 0; valid := true |} in
  let e := Encoder.new 7 in
  let d := with_accumulators (new 7 None) {[5 := old]} in
  let m := [Byte.x41; Byte.x42] in
  let delivered := Encoder.packets (Encoder.encode e (JsBuffer m) 5 false).1.2 in
  encoder_ok e ∧ 0 <= 5 <= 63
  ∧ Encoder.fragment_count_of (Buffer.length m) <= 0xFFFF
  ∧ listens (Encoder.source_id e) 5 d
  ∧ _accumulators d !! 5 = Some old
  ∧ _is_newer_message (Encoder.message_id e) (message_id old) = true
  ∧ completed (run (start d) ((Accept <$> delivered) ++ [Turn])).1
    = [(m, 5, 0, 1, 2)].
Proof.
  intros old e d m delivered.
  assert (encoder_ok e) as H1 by (split; cbn; lia).
  assert (0 <= 5 <= 63) as H2 by lia.
  assert (Encoder.fragment_count_of (Buffer.length m) <= 0xFFFF) as H3
    by (vm_compute; discriminate).
  assert (listens (Encoder.source_id e) 5 d) as H4 by (by split).
  assert (_accumulators d !! 5 = Some old) as H5 by reflexivity.
  assert (_is_newer_message (Encoder.message_id e) (message_id old) = true)
    as H6 by reflexivity.
  split_and!; try assumption.
  exact (proj1 (proj2 (newer_message_replaces_older e d old m 5 false delivered
                         H1 H2 H3 H4 H5 H6 (Permutation_refl _)))).
Defined.

Lemma encode_next e message_buffer message_type callback :
  encoder_ok e → 0 <= message_type <= 63 →
  Encoder.fragment_count_of (Buffer.length message_buffer) <= 0xFFFF →
  let e' := (Encoder.encode e (JsBuffer message_buffer) message_type callback).2 in
  encoder_ok e' ∧ Encoder.source_id e' = Encoder.source_id e
  ∧ Encoder.message_id e' = (Encoder.message_id e + 1) mod 0x10000.
Proof.
  intros He Ht Hc.
  destruct (encode_events e message_buffer message_type callback He Ht Hc)
    as [pool' ->].
  cbn. split_and!; try done. split; [apply He|].
  cbn. apply Z.mod_pos_bound. done.
Qed.

(** X16: a stream of messages of one type, encoded one after the other by
    one encoder, each delivered completely (its packets in any order, then a
    turn of the event loop) before the packets of the next, arrives as the
    same messages in the same order, numbered consecutively modulo 65536
    from the counter of the encoder, without any error; the decoder ends as
    it began.  This holds for any number of messages, also beyond the
    wrap-around of the message ID. *)
Theorem message_stream_round_trip messages :
  ∀ e d T deliveries,
  encoder_ok e → 0 <= T <= 63 →
  Forall (λ message_buffer,
            Encoder.fragment_count_of (Buffer.length message_buffer) <= 0xFFFF)
    messages →
  listens (Encoder.source_id e) T d → _accumulators d !! T = None →
  Forall2 (≡ₚ) deliveries (send_all e messages T) →
  let result := run (start d) (arrival deliveries) in
  completed result.1 = expected_messages (Encoder.message_id e) T messages
  ∧ errors result.1 = []
  ∧ result.2 = start d.
Proof.
  induction messages as [|m messages IH];
    intros e d T deliveries He HT Hfit Hlis Hnone Hdel.
  { cbn in Hdel. apply Forall2_nil_inv_r in Hdel as ->. by cbn. }
  apply Forall_cons in Hfit as [Hm Hfit].
  cbn [send_all] in Hdel.
  destruct (encode_next e m T false He HT Hm) as (He' & Hs' & Hid').
  destruct (Encoder.encode e (JsBuffer m) T false) as [[r evs] e'] eqn:Eenc.
  cbn [snd] in He', Hs', Hid'.
  apply Forall2_cons_inv_r in Hdel as (delivered & rest & Hperm & Hrest & ->).
  destruct (message_delivery e d m T false delivered He HT Hm Hlis
              (vacant_absent _ _ _ Hnone)) as (ks & Hks & _ & Hrun & _).
  { by rewrite Eenc. }
  rewrite (reset_absent d T Hnone) in Hrun.
  rewrite <- Hs' in Hlis.
  specialize (IH e' d T rest He' HT Hfit Hlis Hnone Hrest).
  destruct IH as (IH1 & IH2 & IH3).
  cbv zeta. unfold arrival. cbn [fmap list_fmap concat].
  fold (arrival rest). rewrite run_app, Hrun. cbn [fst snd].
  rewrite completed_app, errors_app, completed_delivery, errors_delivery.
  rewrite IH1, IH2, IH3, Hid'. done.
Qed.

Lemma message_stream_round_trip_witness :
  let e := Encoder.new 7 in
  let d := new 7 None in
  let messages := [[Byte.x41]; []; [Byte.x42; Byte.x43]] in
  encoder_ok e ∧ 0 <= 5 <= 63
  ∧ Forall (λ message_buffer,
              Encoder.fragment_count_of (Buffer.length message_buffer) <= 0xFFFF)
      messages
  ∧ listens (Encoder.source_id e) 5 d
  ∧ _accumulators d !! 5 = None
  ∧ completed (run (start d) (arrival (send_all e messages 5))).1
    = [([Byte.x41], 5, 0, 1, 1); ([], 5, 1, 1, 0);
       ([Byte.x42; Byte.x43], 5, 2, 1, 2)].
Proof.
  intros e d messages.
  assert (encoder_ok e) as H1 by (split; cbn; lia).
  assert (0 <= 5 <= 63) as H2 by lia.
  assert (Forall (λ message_buffer,
                    Encoder.fragment_count_of (Buffer.length message_buffer)
                    <= 0xFFFF) messages) as H3
    by (repeat constructor; vm_compute; discriminate).
  assert (listens (Encoder.source_id e) 5 d) as H4 by (by split).
  assert (_accumulators d !! 5 = None) as H5 by reflexivity.
  split; [exact H1|]. split; [exact H2|]. split; [exact H3|].
  split; [exact H4|]. split; [exact H5|].
  refine (proj1 (message_stream_round_trip messages e d 5
                   (send_all e messages 5) H1 H2 H3 H4 H5 _)).
  apply Forall2_same_length_lookup_2; [done|].
  intros i x y Hx Hy. rewrite Hx in Hy. by injection Hy as <-.
Defined.

(** ** Lost fragments *)

Lemma receipts_lifecycle_free T id cnt ks :
  ∀ n, completed (receipts T id cnt n ks) = []
       ∧ errors (receipts T id cnt n ks) = [].
Proof. induction ks as [|k ks IH]; intros n; [done|]. cbn. apply IH. Qed.

(** X17: as long as a fragment of a message is missing, the decoder delivers
    nothing and reports nothing.  When only some of the packets of a message
    reach a decoder that has no message of the type in flight, each at most
    once and in any order, no [message] event and no error is emitted and no
    reassembly is deferred; the accumulator of the type holds the message ID
    and fragment count of the message and counts the fragments that came. *)
Theorem incomplete_message_is_held e d message_buffer message_type callback
    delivered :
  encoder_ok e → 0 <= message_type <= 63 →
  Encoder.fragment_count_of (Buffer.length message_buffer) <= 0xFFFF →
  listens (Encoder.source_id e) message_type d →
  _accumulators d !! message_type = None →
  delivered
  ⊆+ Encoder.packets
       (Encoder.encode e (JsBuffer message_buffer) message_type callback).1.2 →
  Z.of_nat (List.length delivered)
  < Encoder.fragment_count_of (Buffer.length message_buffer) →
  let result := decode_all d delivered in
  completed result.1.1 = [] ∧ errors result.1.1 = [] ∧ result.1.2 = []
  ∧ (delivered ≠ [] →
     ∃ a, _accumulators result.2 !! message_type = Some a
          ∧ message_id a = Encoder.message_id e
          ∧ fragment_count a
            = Encoder.fragment_count_of (Buffer.length message_buffer)
          ∧ fragments_received a = Z.of_nat (List.length delivered)).
Proof.
  intros He Ht Hc Hlis Hnone Hsub Hlen result.
  destruct (sent_packets e message_buffer message_type callback He Ht Hc)
    as [_ Hsent].
  rewrite Hsent in Hsub. destruct He as [Hs Hm].
  apply submseteq_Permutation in Hsub as [others Hperm].
  symmetry in Hperm.
  apply Permutation_map_inv in Hperm as (all & Hall & Hks).
  symmetry in Hall. apply fmap_app_inv in Hall as (ks & ks' & -> & -> & ->).
  rewrite length_fmap in Hlen.
  assert (NoDup (ks ++ ks')) as Hnd by (rewrite <- Hks; apply NoDup_seqZ).
  destruct (deliver_some (Encoder.source_id e) message_type
              (Encoder.message_id e) message_buffer Hs Ht Hm Hc ks [] d)
    as (d' & Hrun & _ & Hcol).
  - split; [done|]. by apply vacant_absent.
  - rewrite app_nil_r. by apply NoDup_app in Hnd as (? & _).
  - intros j. rewrite app_nil_r. intros Hj.
    assert (j ∈ seqZ 0 (Encoder.fragment_count_of (Buffer.length message_buffer)))
      as Hin by (rewrite Hks; apply elem_of_app; by left).
    apply elem_of_seqZ in Hin. lia.
  - by rewrite app_nil_r.
  - unfold result. rewrite Hrun. cbn [fst snd].
    split_and!; try done.
    + destruct ks as [|k ks]; [done|].
      rewrite completed_lifecycle by (cbn; apply prelude_lifecycle).
      apply receipts_lifecycle_free.
    + destruct ks as [|k ks]; [done|].
      rewrite errors_lifecycle by (cbn; apply prelude_lifecycle).
      apply receipts_lifecycle_free.
    + intros Hne. destruct ks as [|k ks]; [done|].
      rewrite app_nil_r in Hcol.
      destruct (reverse (k :: ks)) as [|k' ks''] eqn:Erev.
      { apply (f_equal List.length) in Erev.
        rewrite length_reverse in Erev. done. }
      destruct Hcol as (a & Hl & Hi & Hn & Hr & _).
      exists a. split_and!; try done.
      rewrite Hr, <- Erev, length_reverse, length_fmap. done.
Qed.

Lemma incomplete_message_is_held_witness :
  let e := Encoder.new 7 in
  let d := new 7 None in
  let m := replicate 1201 Byte.x41 in
  let delivered :=
    drop 1 (Encoder.packets (Encoder.encode e (JsBuffer m) 5 false).1.2) in
  encoder_ok e ∧ 0 <= 5 <= 63
  ∧ Encoder.fragment_count_of (Buffer.length m) <= 0xFFFF
  ∧ listens (Encoder.source_id e) 5 d
  ∧ _accumulators d !! 5 = None
  ∧ Z.of_nat (List.length delivered)
    < Encoder.fragment_count_of (Buffer.length m)
  ∧ completed (decode_all d delivered).1.1 = [].
Proof.
  intros e d m delivered.
  assert (encoder_ok e) as H1 by (split; cbn; lia).
  assert (0 <= 5 <= 63) as H2 by lia.
  assert (Encoder.fragment_count_of (Buffer.length m) <= 0xFFFF) as H3
    by (vm_compute; discriminate).
  assert (listens (Encoder.source_id e) 5 d) as H4 by (by split).
  assert (_accumulators d !! 5 = None) as H5 by reflexivity.
  assert (Z.of_nat (List.length delivered)
          < Encoder.fragment_count_of (Buffer.length m)) as H6
    by (vm_compute; reflexivity).
  split; [exact H1|]. split; [exact H2|]. split; [exact H3|].
  split; [exact H4|]. split; [exact H5|]. split; [exact H6|].
  refine (proj1 (incomplete_message_is_held e d m 5 false delivered
                   H1 H2 H3 H4 H5 _ H6)).
  apply sublist_submseteq, sublist_drop.
Defined.

(** ** Packets that are not for this decoder *)

Lemma foreign_packet_ignored src T id msg d k :
  0 <= src < 2 ^ 32 → 0 <= T <= 63 → 0 <= id < 2 ^ 16 →
  Encoder.fragment_count_of (Buffer.length msg) <= 0xFFFF →
  0 <= k < Encoder.fragment_count_of (Buffer.length msg) →
  ¬ listens src T d →
  decode_packet d
    (expected_packet src msg T id
       (Encoder.fragment_count_of (Buffer.length msg)) k)
  = ignored d [].
Proof.
  intros Hsrc HT Hid Hcnt Hk Hnot.
  destruct (packet_decode src T id msg (new src None) k Hsrc HT Hid Hcnt
              ltac:(by split) Hk) as (_ & Hty & _ & _ & _ & Hs & _).
  destruct (decode_packet_filters d
              (expected_packet src msg T id
                 (Encoder.fragment_count_of (Buffer.length msg)) k))
    as [[_ ->]|[(Hm & Hl & ->)|[(Hm & Hl & Hv & ->)|[(Hm & Hl & Hv & Ha & ->)
       |[(Hm & Hl & Hv & Ha & _)|(Hm & Hl & Hv & Ha & _)]]]]]; try done.
  - exfalso. unfold expected_packet, Buffer.length in Hl.
    rewrite length_app, wire_header_length in Hl. lia.
  - exfalso. apply Hv.
    by destruct (header_fields VERSION T id k
                   (Encoder.fragment_count_of (Buffer.length msg)) src
                   (fragment_payload msg k))
      as (_ & _ & ? & _); try (unfold VERSION; lia).
  - exfalso. apply Hnot. unfold addressed in Ha. by rewrite Hs, Hty in Ha.
  - exfalso. apply Hnot. unfold addressed in Ha. by rewrite Hs, Hty in Ha.
Qed.

(** X18: the packets of an encoder never disturb a decoder they are not
    meant for.  If the decoder is configured for another source ID, or with
    a list of types that leaves out the type of the message, every packet of
    the message is dropped by [decode_packet] without any event, the call
    returns false and the decoder, with the messages it has in flight, is
    unchanged; so is it after any number of such packets. *)
Theorem foreign_packets_are_ignored e d message_buffer message_type callback
    delivered :
  encoder_ok e → 0 <= message_type <= 63 →
  Encoder.fragment_count_of (Buffer.length message_buffer) <= 0xFFFF →
  ¬ listens (Encoder.source_id e) message_type d →
  delivered
  ⊆ Encoder.packets
      (Encoder.encode e (JsBuffer message_buffer) message_type callback).1.2 →
  (∀ p, p ∈ delivered → decode_packet d p = ignored d [])
  ∧ decode_all d delivered = ([], [], d).
Proof.
  intros He Ht Hc Hnot Hsub.
  destruct (sent_packets e message_buffer message_type callback He Ht Hc)
    as [_ Hsent].
  rewrite Hsent in Hsub. destruct He as [Hs Hm].
  assert (∀ p, p ∈ delivered → decode_packet d p = ignored d []) as Hone.
  { intros p Hp. apply Hsub, list_elem_of_fmap in Hp as (k & -> & Hk).
    apply elem_of_seqZ in Hk. apply foreign_packet_ignored; try done; lia. }
  split; [done|]. clear Hsub.
  induction delivered as [|p ps IH]; [done|].
  cbn [decode_all]. rewrite (Hone p) by left. cbn [after emitted deferred ignored].
  rewrite IH; [done|]. intros q Hq. apply Hone. by right.
Qed.

Lemma foreign_packets_are_ignored_witness :
  let e := Encoder.new 8 in
  let d := new 7 (Some [1; 2]) in
  let m := [Byte.x41; Byte.x42] in
  let delivered := Encoder.packets (Encoder.encode e (JsBuffer m) 5 false).1.2 in
  encoder_ok e ∧ 0 <= 5 <= 63
  ∧ Encoder.fragment_count_of (Buffer.length m) <= 0xFFFF
  ∧ ¬ listens (Encoder.source_id e) 5 d
  ∧ decode_all d delivered = ([], [], d).
Proof.
  intros e d m delivered.
  assert (encoder_ok e) as H1 by (split; cbn; lia).
  assert (0 <= 5 <= 63) as H2 by lia.
  assert (Encoder.fragment_count_of (Buffer.length m) <= 0xFFFF) as H3
    by (vm_compute; discriminate).
  assert (¬ listens (Encoder.source_id e) 5 d) as H4 by (by intros [? _]).
  split; [exact H1|]. split; [exact H2|]. split; [exact H3|].
  split; [exact H4|].
  exact (proj2 (foreign_packets_are_ignored e d m 5 false delivered
                  H1 H2 H3 H4 (reflexivity _))).
Defined.

(** ** The packet builder of the decoder tests *)

Lemma writeUIntLE_range width b value offset b' :
  Buffer.writeUIntLE width b value offset = Some b' →
  0 <= value < 2 ^ (8 * Z.of_nat width).
Proof.
  unfold Buffer.writeUIntLE. case_match eqn:E; [|done]. intros _.
  rewrite !andb_true_iff, !Z.leb_le, Z.ltb_lt in E. lia.
Qed.

Lemma createValidPacket_write source_id message_type message_id fragment_index
    fragment_count payload :
  DecoderTest.createValidPacket source_id message_type message_id
    fragment_index fragment_count payload
  = Encoder.write_packet source_id payload
      (replicate (Z.to_nat (12 + Buffer.length payload)) Byte.x00)
      message_type message_id fragment_count fragment_index
      0 (Buffer.length payload).
Proof.
  unfold DecoderTest.createValidPacket, Buffer.allocUnsafe.
  replace (12 + Buffer.length payload <? 0) with false; [done|].
  symmetry. apply Z.ltb_ge. unfold Buffer.length. lia.
Qed.

(** X19: the packet builder of the decoder tests writes the wire format of
    the encoder.  It returns a packet exactly when the source ID fits 32
    bits and the message ID, fragment index and fragment count fit 16 bits
    (otherwise a header write throws), and the packet is then the 12-byte
    header followed by the payload: the decoder reads back from it the
    fields it was built from (the type modulo 64), [decode_packet] filters
    and accumulates it by these fields, and built from the source
    ID, message ID, fragment count and a fragment of a message it is the
    very packet the encoder emits for that fragment. *)
Theorem createValidPacket_spec source_id message_type message_id fragment_index
    fragment_count payload :
  let built :=
    DecoderTest.createValidPacket source_id message_type message_id
      fragment_index fragment_count payload in
  (∀ p, built = Some p
        ↔ (0 <= source_id < 2 ^ 32 ∧ 0 <= message_id < 2 ^ 16
           ∧ 0 <= fragment_index < 2 ^ 16 ∧ 0 <= fragment_count < 2 ^ 16)
          ∧ p = wire_header VERSION message_type message_id fragment_index
                  fragment_count source_id ++ payload)
  ∧ (∀ p, built = Some p →
          Buffer.readUInt8 p 0 = MAGIC_BYTE
          ∧ packet_version p = VERSION
          ∧ packet_type p = Z.land message_type 0x3F
          ∧ packet_message_id p = message_id
          ∧ packet_fragment_index p = fragment_index
          ∧ packet_fragment_count p = fragment_count
          ∧ packet_source_id p = source_id
          ∧ packet_payload p = payload
          ∧ ∀ d,
              decode_packet d p
              = if negb (source_id =? Decoder.source_id d) then ignored d []
                else if match message_types d with
                        | Some types =>
                            negb (bool_decide
                                    (Z.land message_type 0x3F ∈ types))
                        | None => false
                        end
                then ignored d []
                else if (fragment_index >=? fragment_count)
                        || (fragment_count =? 0)
                        || (Buffer.length payload >? MAX_PAYLOAD_SIZE)
                then ignored d
                       [EvError (InvalidFragment fragment_index
                                   fragment_count (Buffer.length payload))]
                else accumulate d (Z.land message_type 0x3F) message_id
                       fragment_index fragment_count payload)
  ∧ (∀ e message_buffer callback,
       encoder_ok e → 0 <= message_type <= 63 →
       source_id = Encoder.source_id e → message_id = Encoder.message_id e →
       fragment_count = Encoder.fragment_count_of (Buffer.length message_buffer) →
       fragment_count <= 0xFFFF → 0 <= fragment_index < fragment_count →
       payload = fragment_payload message_buffer fragment_index →
       built
       = Encoder.packets
           (Encoder.encode e (JsBuffer message_buffer) message_type
              callback).1.2
         !! Z.to_nat fragment_index).
Proof.
  intros built.
  assert (∀ p, built = Some p
               ↔ (0 <= source_id < 2 ^ 32 ∧ 0 <= message_id < 2 ^ 16
                  ∧ 0 <= fragment_index < 2 ^ 16
                  ∧ 0 <= fragment_count < 2 ^ 16)
                 ∧ p = wire_header VERSION message_type message_id
                         fragment_index fragment_count source_id ++ payload)
    as Hiff.
  { intros p. unfold built. rewrite createValidPacket_write.
    assert (0 <= Buffer.length payload) as Hnn by (unfold Buffer.length; lia).
    split.
    - intros Hp.
      assert (0 <= source_id < 2 ^ 32 ∧ 0 <= message_id < 2 ^ 16
              ∧ 0 <= fragment_index < 2 ^ 16 ∧ 0 <= fragment_count < 2 ^ 16)
        as Hr.
      { revert Hp. unfold Encoder.write_packet.
        destruct (Buffer.writeUInt8 _ _ 0) as [b1|]; [|done]. cbn.
        destruct (Buffer.writeUInt8 b1 _ 1) as [b2|]; [|done]. cbn.
        destruct (Buffer.writeUInt16LE b2 _ 2) as [b3|] eqn:E3; [|done]. cbn.
        destruct (Buffer.writeUInt16LE b3 _ 4) as [b4|] eqn:E4; [|done]. cbn.
        destruct (Buffer.writeUInt16LE b4 _ 6) as [b5|] eqn:E5; [|done]. cbn.
        destruct (Buffer.writeUInt32LE b5 _ 8) as [b6|] eqn:E6; [|done]. cbn.
        intros _.
        apply writeUIntLE_range in E3, E4, E5, E6.
        change (2 ^ (8 * Z.of_nat 2)) with (2 ^ 16) in *.
        change (2 ^ (8 * Z.of_nat 4)) with (2 ^ 32) in *. done. }
      split; [done|]. destruct Hr as (H1 & H2 & H3 & H4).
      rewrite write_packet_ok in Hp; try done; try lia.
      + injection Hp as <-. rewrite Z.sub_0_r, drop_0, take_ge; [done|].
        unfold Buffer.length. lia.
      + unfold Buffer.length at 1. rewrite length_replicate. lia.
    - intros [(H1 & H2 & H3 & H4) ->].
      rewrite write_packet_ok; try done; try lia.
      + rewrite Z.sub_0_r, drop_0, take_ge; [done|].
        unfold Buffer.length. lia.
      + unfold Buffer.length at 1. rewrite length_replicate. lia. }
  split; [exact Hiff|]. split.
  - intros p [(H1 & H2 & H3 & H4) ->]%Hiff.
    destruct (header_fields VERSION message_type message_id fragment_index
                fragment_count source_id payload)
      as (_ & ? & ? & ? & ? & ? & ? & ? & ?); try (unfold VERSION; lia).
    do 8 (split; [done|]).
    intros d. by rewrite decode_header by (unfold VERSION; lia).
  - intros e message_buffer callback He Ht -> -> Hn Hc Hi ->.
    destruct (sent_packets e message_buffer message_type callback He Ht)
      as [_ ->]; [by rewrite <- Hn|].
    rewrite <- Hn, list_lookup_fmap, lookup_seqZ_lt by lia.
    cbn. rewrite Z2Nat.id by lia. apply Hiff.
    destruct He as [Hs Hm]. split_and!; try done; lia.
Qed.

(** ** The largest message *)

(** X20: [encode_message] takes a Buffer (with a type in 0..63) exactly when
    it is at most [MAX_MESSAGE_SIZE] = 1200 * 65535 = 78642000 bytes long,
    the size that fits 65535 fragments; one more byte and the call returns
    [null]. *)
Theorem encode_message_size_limit e message_buffer message_type callback :
  0 <= message_type <= 63 →
  let returned :=
    (Encoder.encode_message e (JsBuffer message_buffer) message_type
       callback).1.1 in
  (Encoder.fragment_count_of (Buffer.length message_buffer)
   <= MAX_FRAGMENT_COUNT
   ↔ Buffer.length message_buffer <= MAX_MESSAGE_SIZE)
  ∧ (returned = Some (Encoder.message_id e)
     ↔ Buffer.length message_buffer <= MAX_MESSAGE_SIZE)
  ∧ (returned = None ↔ MAX_MESSAGE_SIZE < Buffer.length message_buffer).
Proof.
  intros Ht returned.
  assert (0 <= Buffer.length message_buffer) as Hnn
    by (unfold Buffer.length; lia).
  assert (Encoder.fragment_count_of (Buffer.length message_buffer)
          <= MAX_FRAGMENT_COUNT
          ↔ Buffer.length message_buffer <= MAX_MESSAGE_SIZE) as Hiff.
  { unfold Encoder.fragment_count_of, MAX_MESSAGE_SIZE, MAX_FRAGMENT_COUNT,
      MAX_PAYLOAD_SIZE.
    pose proof (Z.div_mod (Buffer.length message_buffer + 1200 - 1) 1200
                  ltac:(lia)).
    pose proof (Z.mod_pos_bound (Buffer.length message_buffer + 1200 - 1) 1200
                  ltac:(lia)).
    lia. }
  split; [done|].
  unfold returned, Encoder.encode_message.
  replace ((message_type <? 0) || (message_type >? 63)) with false.
  2: { symmetry. rewrite orb_false_iff, Z.ltb_ge, Z.gtb_ltb, Z.ltb_ge. lia. }
  change 0xFFFF with MAX_FRAGMENT_COUNT.
  destruct (_ >? MAX_FRAGMENT_COUNT) eqn:E; cbn [fst].
  - rewrite Z.gtb_ltb in E. apply Z.ltb_lt in E.
    assert (MAX_MESSAGE_SIZE < Buffer.length message_buffer) as Hlen.
    { destruct (decide (Buffer.length message_buffer <= MAX_MESSAGE_SIZE))
        as [Hle|]; [apply Hiff in Hle|]; lia. }
    split; (split; [|]); intros; try done; lia.
  - rewrite Z.gtb_ltb in E. apply Z.ltb_ge in E.
    assert (Buffer.length message_buffer <= MAX_MESSAGE_SIZE) as Hlen
      by (by apply Hiff).
    split; (split; [|]); intros; try done; lia.
Qed.

Lemma encode_message_size_limit_witness :
  0 <= 5 <= 63
  ∧ (Encoder.encode_message (Encoder.new 7) (JsBuffer [Byte.x41]) 5 false).1.1
    = Some 0.
Proof.
  assert (0 <= 5 <= 63) as H by lia. split; [exact H|].
  apply (proj1 (proj2 (encode_message_size_limit (Encoder.new 7) [Byte.x41] 5
                         false H))).
  vm_compute. discriminate.
Defined.

(** ** A decoder with an empty list of types *)

(** X21: a decoder constructed with an empty list of message types (which,
    unlike [null], is a filter that no type passes) never stores a fragment:
    whatever packets, resets and turns it goes through, its accumulators
    stay empty, nothing is deferred, and the only events it ever emits are
    the errors for a packet that is too short or has another version. *)
Theorem empty_type_list_accepts_nothing src actions :
  let result := run (start (new src (Some []))) actions in
  _accumulators (decoder result.2) = ∅
  ∧ immediates result.2 = []
  ∧ Forall (λ ev, ev = EvError PacketTooShort
                  ∨ ∃ v, ev = EvError (UnsupportedVersion v)) result.1.
Proof.
  cbv zeta.
  assert (message_types (decoder (start (new src (Some [])))) = Some ∅
          ∧ _accumulators (decoder (start (new src (Some [])))) = ∅
          ∧ immediates (start (new src (Some []))) = []) as Hinv by done.
  revert Hinv. generalize (start (new src (Some []))).
  induction actions as [|a actions IH]; intros w (Hty & Hacc & Himm).
  { by split_and!. }
  cbn [run].
  assert (∃ evs w1,
            step w a = (evs, w1)
            ∧ (message_types (decoder w1) = Some ∅
               ∧ _accumulators (decoder w1) = ∅ ∧ immediates w1 = [])
            ∧ Forall (λ ev, ev = EvError PacketTooShort
                            ∨ ∃ v, ev = EvError (UnsupportedVersion v)) evs)
    as (evs & w1 & -> & Hinv & Hevs).
  { destruct a as [p|T|]; cbn [step].
    - eexists _, _. split; [done|]. cbn [decoder immediates]. rewrite Himm.
      destruct (decode_packet_filters (decoder w) p)
        as [[_ ->]|[(_ & _ & ->)|[(_ & _ & _ & ->)|[(_ & _ & _ & _ & ->)
           |[(_ & _ & _ & [_ Ha] & _)|(_ & _ & _ & [_ Ha] & _)]]]]];
        cbn [emitted after deferred ignored].
      + by split_and!.
      + split_and!; try done. repeat constructor.
      + split_and!; try done. constructor; [|done]. right. by eexists.
      + by split_and!.
      + rewrite Hty in Ha. by apply elem_of_empty in Ha.
      + rewrite Hty in Ha. by apply elem_of_empty in Ha.
    - eexists _, _. split; [done|]. cbn [decoder immediates].
      split; [|done]. destruct T as [T|]; cbn; split_and!; try done.
      by rewrite Hacc, delete_empty.
    - rewrite Himm. by eexists _, _. }
  specialize (IH w1 Hinv). destruct (run w1 actions) as [evs' w2].
  cbn [fst snd] in *. destruct IH as (IH1 & IH2 & IH3).
  split_and!; try done. by apply Forall_app.
Qed.

(** ** Types do not interfere *)

Lemma same_at_refl T d : same_at T d d.
Proof. by split_and!. Qed.

Lemma reassemble_at T d d' id :
  same_at T d d' →
  (_reassemble_message d' T id).1 = (_reassemble_message d T id).1
  ∧ same_at T (_reassemble_message d T id).2 (_reassemble_message d' T id).2.
Proof.
  intros Hsame. pose proof Hsame as (Hs & Ht & Hl).
  unfold _reassemble_message. rewrite Hl.
  destruct (_accumulators d !! T) as [a|]; [|split; [done|exact Hsame]].
  destruct (negb _); [split; [done|exact Hsame]|]. cbn [fst snd].
  split; [done|]. split; [done|]. split; [done|].
  cbn. by rewrite !lookup_delete_eq.
Qed.

Lemma entry_at T d d' id cnt evs a :
  same_at T d d' → entry d T id cnt evs a → entry d' T id cnt evs a.
Proof.
  intros (_ & _ & Hl) [H|old H Hnew|a' H Hid]; rewrite <- Hl in H.
  - by apply entry_fresh.
  - by apply entry_newer.
  - by apply entry_same.
Qed.

Lemma stored_at T d d' id idx cnt evs a' :
  same_at T d d' →
  let o := stored d T id idx cnt evs a' in
  let o' := stored d' T id idx cnt evs a' in
  returned o' = returned o ∧ emitted o' = emitted o
  ∧ deferred o' = deferred o ∧ same_at T (after o) (after o').
Proof.
  intros (Hs & Ht & Hl).
  assert (same_at T (with_accumulators d (<[T:=a']> (_accumulators d)))
            (with_accumulators d' (<[T:=a']> (_accumulators d')))) as Hin.
  { split_and!; try done. cbn. by rewrite !lookup_insert_eq. }
  destruct (reassemble_at T _ _ id Hin) as [Hev Hafter].
  unfold stored. cbv zeta.
  destruct (_ >? _).
  { cbn [returned emitted deferred after ignored].
    split; [done|]. split; [done|]. split; [done|].
    split; [done|]. split; [done|]. cbn. by rewrite !lookup_delete_eq. }
  destruct (_ =? _); [|by cbn].
  destruct (_ || _); [by cbn|].
  cbn [returned emitted deferred after]. by rewrite Hev.
Qed.

Lemma accumulate_at T d d' id idx cnt payload :
  same_at T d d' →
  let o := accumulate d T id idx cnt payload in
  let o' := accumulate d' T id idx cnt payload in
  returned o' = returned o ∧ emitted o' = emitted o
  ∧ deferred o' = deferred o ∧ same_at T (after o) (after o').
Proof.
  intros Hsame. pose proof Hsame as (Hs & Ht & Hl). cbv zeta.
  destruct (accumulate_cases d T id idx cnt payload)
    as [(a & Ha & Hold & ->)|[(a & Ha & Hne & Hold & Hnew & ->)
       |[(a & Ha & Hid & Hdup & ->)|(evs & a & He & Hn & ->)]]].
  - replace (accumulate d' T id idx cnt payload) with (ignored d' []);
      [by cbn|].
    unfold accumulate. by rewrite Hl, Ha, Hold.
  - replace (accumulate d' T id idx cnt payload)
      with (ignored d' [EvError (MessageIdMismatch (message_id a) id)]);
      [by cbn|].
    unfold accumulate. rewrite Hl, Ha, Hold, Hnew.
    replace (id =? message_id a) with false; [done|].
    symmetry. apply Z.eqb_neq. congruence.
  - replace (accumulate d' T id idx cnt payload)
      with (ignored d' [EvError (DuplicateFragment idx id)]);
      [by cbn|].
    unfold accumulate. rewrite Hl, Ha. cbv beta iota.
    rewrite Hid, !is_newer_irrefl. cbv beta iota.
    rewrite Hid, Z.eqb_refl. cbn [negb].
    by rewrite bool_decide_eq_true_2.
  - rewrite (accumulate_entry d' T id idx cnt payload evs a
               (entry_at T d d' id cnt evs a Hsame He) Hn).
    by apply stored_at.
Qed.

Lemma rejected_at d d' p :
  source_id d' = source_id d → message_types d' = message_types d →
  accepted d p = false →
  emitted (decode_packet d' p) = emitted (decode_packet d p).
Proof.
  intros Hs Ht. unfold decode_packet, accepted. rewrite Hs, Ht.
  fold (packet_version p) (packet_type p) (packet_message_id p)
    (packet_fragment_index p) (packet_fragment_count p) (packet_source_id p)
    (packet_payload p).
  rewrite Z.geb_leb, Z.gtb_ltb, !Z.ltb_antisym.
  destruct (1 <=? Buffer.length p); [|done].
  destruct (Buffer.readUInt8 p 0 =? MAGIC_BYTE); [|done].
  destruct (12 <=? Buffer.length p); [|done].
  destruct (packet_version p =? VERSION); [|done].
  destruct (packet_source_id p =? source_id d); [|done].
  destruct (match message_types d with
            | Some types => negb (bool_decide (packet_type p ∈ types))
            | None => false end) eqn:E; [done|].
  replace (match message_types d with
            | Some types => bool_decide (packet_type p ∈ types)
            | None => true end) with true.
  2: { destruct (message_types d); [|done]. by apply negb_false_iff in E. }
  destruct (packet_fragment_count p <=? packet_fragment_index p); [done|].
  destruct (packet_fragment_count p =? 0); [done|].
  destruct (Buffer.length (packet_payload p) <=? MAX_PAYLOAD_SIZE); [|done].
  cbn. discriminate.
Qed.

Lemma decode_packet_at d d' p :
  same_at (packet_type p) d d' →
  emitted (decode_packet d' p) = emitted (decode_packet d p)
  ∧ same_at (packet_type p) (after (decode_packet d p))
      (after (decode_packet d' p)).
Proof.
  intros Hsame. pose proof Hsame as (Hs & Ht & Hl).
  assert (accepted d' p = accepted d p) as Hacc.
  { unfold accepted. by rewrite Hs, Ht. }
  destruct (accepted d p) eqn:E.
  - rewrite !decode_packet_accepted by done.
    by destruct (accumulate_at _ d d' (packet_message_id p)
                   (packet_fragment_index p) (packet_fragment_count p)
                   (packet_payload p) Hsame) as (_ & ? & _ & ?).
  - split; [by apply rejected_at|].
    destruct (decode_packet_rejected d p E) as (_ & -> & _).
    by destruct (decode_packet_rejected d' p Hacc) as (_ & -> & _).
Qed.

Lemma completed_type d p message :
  message ∈ completed (emitted (decode_packet d p)) →
  message.1.1.1.2 = packet_type p.
Proof.
  unfold completed. rewrite list_elem_of_omap. intros (ev & Hin & Hev).
  destruct ev as [| | | |b T id c n|]; try done. injection Hev as <-.
  cbn. destruct (accepted d p) eqn:E.
  2: { destruct (decode_packet_rejected d p E)
         as (_ & _ & _ & [He|(e & He & _)]); rewrite He in Hin.
       - by apply elem_of_nil in Hin.
       - by apply list_elem_of_singleton in Hin. }
  rewrite decode_packet_accepted in Hin by done.
  destruct (accumulate_cases d (packet_type p) (packet_message_id p)
              (packet_fragment_index p) (packet_fragment_count p)
              (packet_payload p))
    as [(?&?&?&Heq)|[(?&?&?&?&?&Heq)|[(?&?&?&?&Heq)|(evs&a&He&?&Heq)]]];
    rewrite Heq in Hin; cbn [emitted ignored] in Hin.
  - by apply elem_of_nil in Hin.
  - by apply list_elem_of_singleton in Hin.
  - by apply list_elem_of_singleton in Hin.
  - pose proof (entry_lifecycle _ _ _ _ _ _ He) as Hlife.
    rewrite Forall_forall in Hlife.
    unfold stored in Hin. revert Hin.
    repeat case_match; cbn [emitted ignored].
    + absent Hlife.
    + absent Hlife.
    + intros [[Hin|Hin%list_elem_of_singleton]%elem_of_app|Hin]%elem_of_app;
        [by apply Hlife in Hin|done|].
      apply reassemble_events in Hin
        as [(?&?&?&[= _ -> _ _ _])|[(?&?&?)|(?&?)]]; done.
    + absent Hlife.
Qed.

Lemma filter_all {A} (P : A → Prop) `{∀ x, Decision (P x)} (l : list A) :
  (∀ x, x ∈ l → P x) → filter P l = l.
Proof.
  induction l as [|x l IH]; intros Hall; [done|].
  rewrite filter_cons_True by (apply Hall; left).
  f_equal. apply IH. intros y Hy. apply Hall. by right.
Qed.

Lemma filter_none {A} (P : A → Prop) `{∀ x, Decision (P x)} (l : list A) :
  (∀ x, x ∈ l → ¬ P x) → filter P l = [].
Proof.
  induction l as [|x l IH]; intros Hall; [done|].
  rewrite filter_cons_False by (apply Hall; left).
  apply IH. intros y Hy. apply Hall. by right.
Qed.

Lemma decode_all_at T ps :
  ∀ d d', same_at T d d' →
  completed_of T (decode_all d ps).1.1
  = completed (decode_all d' (of_type T ps)).1.1.
Proof.
  induction ps as [|p ps IH]; intros d d' Hsame; [done|].
  unfold of_type. rewrite filter_cons. fold (of_type T ps).
  cbn [decode_all].
  destruct (decide (packet_type p = T)) as [<-|Hne].
  - destruct (decode_packet_at d d' p Hsame) as [Hev Hafter].
    specialize (IH _ _ Hafter).
    cbn [decode_all].
    destruct (decode_all (after (decode_packet d p)) ps) as [[evs imm] d1].
    destruct (decode_all (after (decode_packet d' p)) _) as [[evs' imm'] d1'].
    cbn [fst snd] in *. unfold completed_of in *.
    rewrite !completed_app, filter_app, IH, Hev. f_equal.
    apply filter_all. intros message. apply completed_type.
  - assert (same_at T (after (decode_packet d p)) d') as Hafter.
    { destruct Hsame as (Hs & Ht & Hl).
      destruct (decode_packet_config d p) as [Hs' Ht'].
      split; [congruence|]. split; [congruence|].
      by rewrite decode_packet_frame. }
    specialize (IH _ _ Hafter).
    destruct (decode_all (after (decode_packet d p)) ps) as [[evs imm] d1].
    cbn [fst snd] in *. unfold completed_of in *.
    rewrite completed_app, filter_app, IH.
    rewrite filter_none; [done|].
    intros message Hin%completed_type. congruence.
Qed.

(** X22: the messages of one type that a decoder delivers while it takes a
    sequence of packets are those it would deliver if the packets of every
    other type (and everything that is no packet of that type) were left
    out of the sequence: what arrives for other types never changes what is
    delivered for this one. *)
Theorem types_do_not_interfere d T delivered :
  completed_of T (decode_all d delivered).1.1
  = completed (decode_all d (of_type T delivered)).1.1.
Proof. apply decode_all_at, same_at_refl. Qed.

(** ** A large message overtaken before it is reassembled *)

Lemma completed_message_id d p message :
  message ∈ completed (emitted (decode_packet d p)) →
  message.1.1.2 = packet_message_id p.
Proof.
  unfold completed. rewrite list_elem_of_omap. intros (ev & Hin & Hev).
  destruct ev as [| | | |b T id c n|]; try done. injection Hev as <-.
  cbn. destruct (accepted d p) eqn:E.
  2: { destruct (decode_packet_rejected d p E)
         as (_ & _ & _ & [He|(e & He & _)]); rewrite He in Hin.
       - by apply elem_of_nil in Hin.
       - by apply list_elem_of_singleton in Hin. }
  rewrite decode_packet_accepted in Hin by done.
  destruct (accumulate_cases d (packet_type p) (packet_message_id p)
              (packet_fragment_index p) (packet_fragment_count p)
              (packet_payload p))
    as [(?&?&?&Heq)|[(?&?&?&?&?&Heq)|[(?&?&?&?&Heq)|(evs&a&He&?&Heq)]]];
    rewrite Heq in Hin; cbn [emitted ignored] in Hin.
  - by apply elem_of_nil in Hin.
  - by apply list_elem_of_singleton in Hin.
  - by apply list_elem_of_singleton in Hin.
  - pose proof (entry_lifecycle _ _ _ _ _ _ He) as Hlife.
    rewrite Forall_forall in Hlife.
    unfold stored in Hin. revert Hin.
    repeat case_match; cbn [emitted ignored].
    + absent Hlife.
    + absent Hlife.
    + intros [[Hin|Hin%list_elem_of_singleton]%elem_of_app|Hin]%elem_of_app;
        [by apply Hlife in Hin|done|].
      apply reassemble_events in Hin
        as [(?&?&?&[= _ _ -> _ _])|[(?&?&?)|(?&?)]]; done.
    + absent Hlife.
Qed.

Lemma after_preempt d p a :
  accepted d p = true →
  _accumulators d !! packet_type p = Some a →
  _is_newer_message (packet_message_id p) (message_id a) = true →
  _accumulators (after (decode_packet d p)) !! packet_type p = None
  ∨ ∃ a', _accumulators (after (decode_packet d p)) !! packet_type p = Some a'
          ∧ message_id a' = packet_message_id p.
Proof.
  intros Hacc Hl Hnew. rewrite decode_packet_accepted by done.
  rewrite (accumulate_entry _ _ _ _ _ _ _ _
             (entry_newer d _ _ _ a Hl Hnew) (lookup_empty _)).
  set (a' := store (fresh_accumulator (packet_message_id p)
                      (packet_fragment_count p))
               (packet_fragment_index p) (packet_payload p)).
  set (d' := with_accumulators d (<[packet_type p:=a']> (_accumulators d))).
  assert (_accumulators d' !! packet_type p = Some a') as Hl'
    by apply lookup_insert_eq.
  unfold stored. fold d'. repeat case_match; cbn [after ignored].
  - left. apply reset_lookup_eq.
  - right. by exists a'.
  - left. apply (reassemble_same d' (packet_type p) a' Hl').
  - right. by exists a'.
Qed.

Lemma preempt_not_deferred d p a :
  accepted d p = true →
  _accumulators d !! packet_type p = Some a →
  _is_newer_message (packet_message_id p) (message_id a) = true →
  deferred (decode_packet d p) = [].
Proof.
  intros Hacc Hl Hnew. rewrite decode_packet_accepted by done.
  rewrite (accumulate_entry _ _ _ _ _ _ _ _
             (entry_newer d _ _ _ a Hl Hnew) (lookup_empty _)).
  destruct (accepted_fields d p Hacc) as [Hidx Hlen].
  unfold MAX_PAYLOAD_SIZE in Hlen.
  unfold stored. cbn [store fresh_accumulator fragments_received
                      fragment_count message_len].
  destruct (0 + 1 >? packet_fragment_count p); [done|].
  destruct (0 + 1 =? packet_fragment_count p) eqn:E; [|done].
  apply Z.eqb_eq in E. rewrite <- E.
  replace (0 + 1 >? 100) with false by done.
  replace (0 + Buffer.length (packet_payload p) >? 64 * 1024) with false
    by (symmetry; rewrite Z.gtb_ltb; apply Z.ltb_ge; lia).
  done.
Qed.

(** X23: a message that is reassembled on a later turn of the event loop
    (more than 100 fragments or more than 64 KiB) is lost when a valid
    fragment of a newer message of the same type arrives after its last
    fragment and before that turn.  The decoder then reports the complete
    message as incomplete, with all [n] of [n] fragments received, and no
    message with that ID is delivered: when the turn comes, the one deferred
    reassembly finds the accumulator of the type gone or holding the newer
    message ID, emits nothing and leaves the decoder as it is. *)
Theorem deferred_message_is_lost_when_overtaken e d message_buffer message_type
    callback delivered p :
  encoder_ok e → 0 <= message_type <= 63 →
  Encoder.fragment_count_of (Buffer.length message_buffer) <= 0xFFFF →
  listens (Encoder.source_id e) message_type d →
  _accumulators d !! message_type = None →
  delivered
  ≡ₚ Encoder.packets
       (Encoder.encode e (JsBuffer message_buffer) message_type callback).1.2 →
  reassembly_deferred
    (Encoder.fragment_count_of (Buffer.length message_buffer))
    (Buffer.length message_buffer) = true →
  accepted d p = true → packet_type p = message_type →
  _is_newer_message (packet_message_id p) (Encoder.message_id e) = true →
  let n := Encoder.fragment_count_of (Buffer.length message_buffer) in
  let result := run (start d) ((Accept <$> delivered) ++ [Accept p; Turn]) in
  let before := run (start d) ((Accept <$> delivered) ++ [Accept p]) in
  EvMessageIncomplete message_type (Encoder.message_id e) n n ∈ result.1
  ∧ (∀ message, message ∈ completed result.1 →
                message.1.1.2 ≠ Encoder.message_id e)
  ∧ immediates before.2 = [(message_type, Encoder.message_id e)]
  ∧ (_accumulators (decoder before.2) !! message_type = None
     ∨ ∃ a, _accumulators (decoder before.2) !! message_type = Some a
            ∧ message_id a = packet_message_id p
            ∧ message_id a ≠ Encoder.message_id e)
  ∧ step before.2 Turn
    = ([], {| decoder := decoder before.2; immediates := [] |})
  ∧ result = (before.1, {| decoder := decoder before.2; immediates := [] |}).
Proof.
  intros He Ht Hc Hlis Hnone Hperm Hdef Hacc Hty Hnew n result before.
  subst n result before.
  set (n := Encoder.fragment_count_of (Buffer.length message_buffer)) in *.
  destruct (sent_packets e message_buffer message_type callback He Ht Hc)
    as [_ Hsent].
  rewrite Hsent in Hperm. destruct He as [Hs Hm].
  apply Permutation_map_inv in Hperm as (ks & Hdel & Hks).
  change (delivered
          = expected_packet (Encoder.source_id e) message_buffer message_type
              (Encoder.message_id e) n <$> ks) in Hdel.
  subst delivered.
  assert (1 <= n) as Hpos by (unfold n, Encoder.fragment_count_of; lia).
  assert (∀ j, j ∈ ks → 0 <= j < n) as Hrange.
  { intros j. rewrite <- Hks, elem_of_seqZ. lia. }
  destruct (deliver_fragments (Encoder.source_id e) message_type
              (Encoder.message_id e) message_buffer Hs Ht Hm Hc ks [] d)
    as (d' & Hrun & _ & Hlast).
  { split; [done|]. by apply vacant_absent. }
  { rewrite app_nil_r, <- Hks. apply NoDup_seqZ. }
  { intros j. rewrite app_nil_r. apply Hrange. }
  { rewrite app_nil_r, <- Hks, length_seqZ. fold n. lia. }
  { intros ->. apply Permutation_nil_r in Hks.
    apply (f_equal List.length) in Hks. rewrite length_seqZ in Hks.
    cbn in Hks. lia. }
  fold n in Hrun, Hlast. rewrite Hdef in Hrun, Hlast.
  destruct Hlast as (_ & a & Hl & Hid & Hcnt & Hrcv).
  pose proof (decode_all_elsewhere message_type _ d
                (packets_of_type (Encoder.source_id e) message_type
                   (Encoder.message_id e) message_buffer Hs Ht Hm Hc ks Hrange))
    as Hsame.
  fold n in Hsame. rewrite Hrun in Hsame. cbn [snd] in Hsame.
  destruct Hsame as (Hsrc' & Hty' & _).
  assert (accepted d' p = true) as Hacc'.
  { rewrite <- Hacc. unfold accepted. by rewrite Hsrc', Hty'. }
  assert (_is_newer_message (packet_message_id p) (message_id a) = true)
    as Hnew' by (by rewrite Hid).
  rewrite <- Hty in Hl.
  destruct (preempted d' p a Hacc' Hl Hnew') as (rest & _ & Hev & _).
  pose proof (preempt_not_deferred d' p a Hacc' Hl Hnew') as Hnodef.
  assert (packet_message_id p ≠ Encoder.message_id e) as Hne.
  { intros E. rewrite E, is_newer_irrefl in Hnew. done. }
  assert (_reassemble_message (after (decode_packet d' p)) message_type
            (Encoder.message_id e)
          = ([], after (decode_packet d' p))) as Hturn.
  { unfold _reassemble_message. rewrite <- Hty.
    destruct (after_preempt d' p a Hacc' Hl Hnew') as [->|(a' & -> & Hid')];
      [done|].
    replace (message_id a' =? Encoder.message_id e) with false; [done|].
    symmetry. apply Z.eqb_neq. by rewrite Hid'. }
  rewrite !run_app, run_accepts.
  change (decoder (start d)) with d.
  change (immediates (start d)) with (@nil (Z * Z)).
  rewrite Hrun. cbn [fst snd app].
  cbn [run step decoder immediates app]. rewrite Hnodef, Hturn. cbn [fst snd app].
  rewrite !app_nil_r. split; [|split; [|split; [|split; [|split]]]].
  - apply elem_of_app. right. rewrite Hev, Hty, Hid, Hcnt, Hrcv. by left.
  - intros message. rewrite completed_app.
    cbn [overture]. rewrite completed_lifecycle by apply prelude_lifecycle.
    rewrite (proj1 (receipts_lifecycle_free _ _ _ _ _)).
    intros [Hin|Hin%completed_message_id]%elem_of_app.
    + by apply elem_of_nil in Hin.
    + by rewrite Hin.
  - done.
  - cbn [decoder]. rewrite <- Hty.
    destruct (after_preempt d' p a Hacc' Hl Hnew') as [->|(a' & -> & Hid')];
      [by left|].
    right. exists a'. split; [done|]. split; [done|]. by rewrite Hid'.
  - cbn [decoder immediates]. by rewrite Hturn.
  - done.
Qed.

Lemma deferred_message_is_lost_when_overtaken_witness :
  let e := Encoder.new 7 in
  let d := new 7 None in
  let m := replicate (Z.to_nat 65537) Byte.x41 in
  let n := Encoder.fragment_count_of (Buffer.length m) in
  let delivered := Encoder.packets (Encoder.encode e (JsBuffer m) 5 false).1.2 in
  let p := wire_header VERSION 5 1 0 1 7 in
  encoder_ok e ∧ 0 <= 5 <= 63 ∧ n <= 0xFFFF
  ∧ listens (Encoder.source_id e) 5 d
  ∧ _accumulators d !! 5 = None
  ∧ reassembly_deferred n (Buffer.length m) = true
  ∧ accepted d p = true ∧ packet_type p = 5
  ∧ _is_newer_message (packet_message_id p) (Encoder.message_id e) = true
  ∧ EvMessageIncomplete 5 (Encoder.message_id e) n n
    ∈ (run (start d) ((Accept <$> delivered) ++ [Accept p; Turn])).1.
Proof.
  intros e d m n delivered p.
  assert (encoder_ok e) as H1 by (split; cbn; lia).
  assert (0 <= 5 <= 63) as H2 by lia.
  assert (n <= 0xFFFF) as H3 by (vm_compute; discriminate).
  assert (listens (Encoder.source_id e) 5 d) as H4 by (by split).
  assert (_accumulators d !! 5 = None) as H5 by reflexivity.
  assert (reassembly_deferred n (Buffer.length m) = true) as H6
    by (vm_compute; reflexivity).
  assert (accepted d p = true) as H7 by (vm_compute; reflexivity).
  assert (packet_type p = 5) as H8 by (vm_compute; reflexivity).
  assert (_is_newer_message (packet_message_id p) (Encoder.message_id e) = true)
    as H9 by (vm_compute; reflexivity).
  split; [exact H1|]. split; [exact H2|]. split; [exact H3|].
  split; [exact H4|]. split; [exact H5|]. split; [exact H6|].
  split; [exact H7|]. split; [exact H8|]. split; [exact H9|].
  exact (proj1 (deferred_message_is_lost_when_overtaken e d m 5 false delivered
                  p H1 H2 H3 H4 H5 (Permutation_refl _) H6 H7 H8 H9)).
Defined.

(** ** Fragments that arrive more than once *)

Lemma preimage {A B} (f : A → B) (Q : A → Prop) (l : list B) :
  (∀ y, y ∈ l → ∃ x, y = f x ∧ Q x) →
  ∃ xs, l = f <$> xs ∧ Forall Q xs.
Proof.
  induction l as [|y l IH]; intros H.
  - by exists [].
  - destruct (H y ltac:(left)) as (x & -> & Hx).
    destruct IH as (xs & -> & Hxs); [intros; apply H; by right|].
    exists (x :: xs). split; [done|]. by constructor.
Qed.

Lemma expected_packet_inj src T id msg j k :
  0 <= src < 2 ^ 32 → 0 <= T <= 63 → 0 <= id < 2 ^ 16 →
  Encoder.fragment_count_of (Buffer.length msg) <= 0xFFFF →
  0 <= j < Encoder.fragment_count_of (Buffer.length msg) →
  0 <= k < Encoder.fragment_count_of (Buffer.length msg) →
  expected_packet src msg T id
    (Encoder.fragment_count_of (Buffer.length msg)) j
  = expected_packet src msg T id
      (Encoder.fragment_count_of (Buffer.length msg)) k →
  j = k.
Proof.
  intros Hsrc HT Hid Hcnt Hj Hk E.
  destruct (packet_decode src T id msg (new src None) j Hsrc HT Hid Hcnt
              ltac:(by split) Hj) as (_ & _ & _ & Hij & _).
  destruct (packet_decode src T id msg (new src None) k Hsrc HT Hid Hcnt
              ltac:(by split) Hk) as (_ & _ & _ & Hik & _).
  rewrite E in Hij. congruence.
Qed.

(** X24: fragments that arrive again before their message is complete do
    no harm.  If the packets of a message reach a decoder (same source ID,
    type accepted, no message of the type in flight) in any order and any
    of them more than once, and the packet that arrives last had not
    arrived before, then the message is delivered exactly once and
    unchanged; the only errors are the 'Duplicate fragment' errors, one for
    each packet that had arrived before, and the decoder ends as it
    began. *)
Theorem duplicates_before_completion e d message_buffer message_type callback
    front final :
  encoder_ok e → 0 <= message_type <= 63 →
  Encoder.fragment_count_of (Buffer.length message_buffer) <= 0xFFFF →
  listens (Encoder.source_id e) message_type d →
  _accumulators d !! message_type = None →
  let sent :=
    Encoder.packets
      (Encoder.encode e (JsBuffer message_buffer) message_type callback).1.2 in
  (∀ p, p ∈ front → p ∈ sent) → final ∈ sent → final ∉ front →
  (∀ p, p ∈ sent → p = final ∨ p ∈ front) →
  let n := Encoder.fragment_count_of (Buffer.length message_buffer) in
  let result := run (start d) ((Accept <$> (front ++ [final])) ++ [Turn]) in
  completed result.1
  = [(message_buffer, message_type, Encoder.message_id e, n,
      Buffer.length message_buffer)]
  ∧ Forall (λ err, ∃ k, err = DuplicateFragment k (Encoder.message_id e))
      (errors result.1)
  ∧ Z.of_nat (List.length (errors result.1))
    = Z.of_nat (List.length front) - (n - 1)
  ∧ result.2 = start d.
Proof.
  intros He Ht Hc Hlis Hnone sent Hfront Hfinal Hnew Hall n result.
  destruct (sent_packets e message_buffer message_type callback He Ht Hc)
    as [_ Hsent].
  fold sent n in Hsent. destruct He as [Hs Hm].
  set (pk := expected_packet (Encoder.source_id e) message_buffer message_type
               (Encoder.message_id e) n) in *.
  assert (1 <= n) as Hpos by (unfold n, Encoder.fragment_count_of; lia).
  assert (∀ p, p ∈ sent ↔ ∃ k, p = pk k ∧ 0 <= k < n) as Hin_sent.
  { intros p. rewrite Hsent, list_elem_of_fmap.
    split; intros (k & -> & Hk); exists k; split; try done.
    - apply elem_of_seqZ in Hk. lia.
    - apply elem_of_seqZ. lia. }
  destruct (preimage pk (λ k, 0 <= k < n) front) as (kf & -> & Hkf).
  { intros p Hp. by apply Hin_sent, Hfront. }
  rewrite Forall_forall in Hkf.
  apply Hin_sent in Hfinal as (kl & -> & Hkl).
  assert (kl ∉ kf) as Hklf.
  { intros Hin. apply Hnew, list_elem_of_fmap. by exists kl. }
  assert (∀ j, 0 <= j < n → j = kl ∨ j ∈ kf) as Hcover.
  { intros j Hj. destruct (Hall (pk j)) as [E|Hin].
    - apply Hin_sent. by exists j.
    - left. by apply (expected_packet_inj (Encoder.source_id e) message_type
                        (Encoder.message_id e) message_buffer j kl).
    - right. apply list_elem_of_fmap in Hin as (k & E & Hk).
      rewrite (expected_packet_inj (Encoder.source_id e) message_type
                 (Encoder.message_id e) message_buffer j k); try done.
      by apply Hkf. }
  destruct (deliver_repeating (Encoder.source_id e) message_type
              (Encoder.message_id e) message_buffer Hs Ht Hm Hc kf [] d)
    as (evs & d' & D' & Hrun & Hcomp & Herr & Hg & Hnd & Hin & Hlen).
  { split; [done|]. by apply vacant_absent. }
  { constructor. }
  { intros j. rewrite app_nil_r. apply Hkf. }
  { exists kl. split; [done|]. by rewrite app_nil_r. }
  fold n pk in Hrun.
  assert (∀ j, j ∈ D' ↔ j ∈ kf) as Hin'.
  { intros j. rewrite Hin, elem_of_nil. tauto. }
  assert (kl :: D' ≡ₚ seqZ 0 n) as Hperm.
  { apply NoDup_Permutation.
    - constructor; [by rewrite Hin'|done].
    - apply NoDup_seqZ.
    - intros j. rewrite elem_of_cons, Hin', elem_of_seqZ. split.
      + intros [->|Hj]; [lia|]. specialize (Hkf j Hj). lia.
      + intros Hj. apply Hcover. lia. }
  assert (Z.of_nat (List.length (kl :: D')) = n) as HlenD.
  { rewrite Hperm, length_seqZ. lia. }
  pose proof (decode_all_elsewhere message_type (pk <$> kf) d
                (packets_of_type (Encoder.source_id e) message_type
                   (Encoder.message_id e) message_buffer Hs Ht Hm Hc kf Hkf))
    as Hsame.
  rewrite Hrun in Hsame. cbn [snd] in Hsame.
  assert (run (start d') ((Accept <$> (pk <$> [kl])) ++ [Turn])
          = (overture message_type (Encoder.message_id e) n d' D'
             ++ receipts message_type (Encoder.message_id e) n
                  (Z.of_nat (List.length D')) [kl]
             ++ closing message_type (Encoder.message_id e) n message_buffer,
             start (reset_message_state d (Some message_type)))) as Hfin.
  { apply (finish_and_turn (Encoder.source_id e) message_type
             (Encoder.message_id e) message_buffer Hs Ht Hm Hc d d' D' [kl]
             Hsame Hg).
    - cbn [app]. rewrite Hperm. apply NoDup_seqZ.
    - cbn [app]. intros j Hj. rewrite Hperm in Hj.
      apply elem_of_seqZ in Hj. lia.
    - done.
    - done. }
  unfold result. rewrite fmap_app, <- app_assoc, run_app, run_accepts.
  change (decoder (start d)) with d.
  change (immediates (start d)) with (@nil (Z * Z)).
  rewrite Hrun. cbn [fst snd app].
  change {| decoder := d'; immediates := [] |} with (start d').
  change (Accept <$> [pk kl]) with (Accept <$> (pk <$> [kl])).
  rewrite Hfin. cbn [fst snd].
  rewrite completed_app, errors_app, Hcomp, Herr.
  rewrite completed_lifecycle, errors_lifecycle by apply overture_lifecycle.
  cbn [receipts app]. rewrite app_nil_r.
  split_and!.
  - done.
  - apply Forall_fmap, Forall_forall. intros k _. by exists k.
  - rewrite length_fmap, length_fmap. cbn [List.length] in HlenD, Hlen. lia.
  - by rewrite (reset_absent d message_type Hnone).
Qed.

Lemma duplicates_before_completion_witness :
  let e := Encoder.new 7 in
  let d := new 7 None in
  let m := replicate (Z.to_nat 1201) Byte.x41 in
  let sent := Encoder.packets (Encoder.encode e (JsBuffer m) 5 false).1.2 in
  let front := take 1 sent ++ take 1 sent in
  let final := default [] (sent !! S O) in
  encoder_ok e ∧ 0 <= 5 <= 63
  ∧ Encoder.fragment_count_of (Buffer.length m) <= 0xFFFF
  ∧ listens (Encoder.source_id e) 5 d
  ∧ _accumulators d !! 5 = None
  ∧ (∀ p, p ∈ front → p ∈ sent) ∧ final ∈ sent ∧ (final ∉ front)
  ∧ (∀ p, p ∈ sent → p = final ∨ p ∈ front)
  ∧ Z.of_nat
      (List.length
         (errors (run (start d) ((Accept <$> (front ++ [final])) ++ [Turn])).1))
    = Z.of_nat (List.length front)
      - (Encoder.fragment_count_of (Buffer.length m) - 1).
Proof.
  intros e d m sent front final.
  assert (encoder_ok e) as H1 by (split; cbn; lia).
  assert (0 <= 5 <= 63) as H2 by lia.
  assert (Encoder.fragment_count_of (Buffer.length m) <= 0xFFFF) as H3
    by (vm_compute; discriminate).
  assert (listens (Encoder.source_id e) 5 d) as H4 by (by split).
  assert (_accumulators d !! 5 = None) as H5 by reflexivity.
  assert (∃ a b, sent = [a; b] ∧ a ≠ b) as (a & b & E & Hab).
  { eexists _, _. split; [vm_compute; reflexivity|]. discriminate. }
  assert (front = [a; a]) as Ef by (unfold front; by rewrite E).
  assert (final = b) as El by (unfold final; by rewrite E).
  assert (∀ p, p ∈ front → p ∈ sent) as H6.
  { intros p. rewrite Ef, E, !elem_of_cons, !elem_of_nil. tauto. }
  assert (final ∈ sent) as H7.
  { rewrite El, E, !elem_of_cons. tauto. }
  assert (final ∉ front) as H8.
  { rewrite El, Ef, !elem_of_cons, elem_of_nil. intros [?|[?|[]]]; congruence. }
  assert (∀ p, p ∈ sent → p = final ∨ p ∈ front) as H9.
  { intros p. rewrite El, Ef, E, !elem_of_cons, !elem_of_nil. tauto. }
  split; [exact H1|]. split; [exact H2|]. split; [exact H3|].
  split; [exact H4|]. split; [exact H5|]. split; [exact H6|].
  split; [exact H7|]. split; [exact H8|]. split; [exact H9|].
  exact (proj1 (proj2 (proj2 (duplicates_before_completion e d m 5 false front
                                final H1 H2 H3 H4 H5 H6 H7 H8 H9)))).
Defined.

(** ** When a message-ID mismatch is reported *)

(** X25: in every state a decoder can reach, [decode_packet] reports a
    message-ID mismatch exactly for a valid packet whose message ID is at
    distance exactly 32768 (modulo 65536) from the ID of the message in
    flight for its type: at that distance neither ID is newer than the
    other, so the packet is neither dropped as old nor taken as the start
    of a newer message.  At every other distance the error cannot occur. *)
Theorem mismatch_only_at_half_range src types actions p expected got :
  let d := decoder (run (start (new src types)) actions).2 in
  EvError (MessageIdMismatch expected got) ∈ emitted (decode_packet d p)
  ↔ accepted d p = true ∧ got = packet_message_id p
    ∧ (∃ a, _accumulators d !! packet_type p = Some a
            ∧ message_id a = expected)
    ∧ (got - expected) mod 65536 = 32768.
Proof.
  intros d.
  assert (map_Forall (λ _, accumulator_bounded) (_accumulators d)) as Hb.
  { apply (run_invariant
             (λ d, map_Forall (λ _, accumulator_bounded) (_accumulators d))).
    - apply decode_packet_bounded.
    - intros. by apply reset_Forall.
    - intros. by apply reassemble_Forall.
    - apply map_Forall_empty. }
  split.
  - intros Hin. destruct (accepted d p) eqn:E.
    2: { destruct (decode_packet_rejected d p E)
           as (_ & _ & _ & [He|(e & He & Hk)]); rewrite He in Hin.
         - by apply elem_of_nil in Hin.
         - apply list_elem_of_singleton in Hin. injection Hin as <-.
           destruct Hk as [?|[(?&?)|(?&?&?&?)]]; done. }
    destruct (accepted_bounds d p E) as (_ & _ & Hid & _).
    rewrite decode_packet_accepted in Hin by done.
    destruct (accumulate_cases d (packet_type p) (packet_message_id p)
                (packet_fragment_index p) (packet_fragment_count p)
                (packet_payload p))
      as [(a & ? & ? & Heq)|[(a & Hl & Hne & Hold & Hnew & Heq)
         |[(a & ? & ? & ? & Heq)|(evs & a & He & ? & Heq)]]];
      rewrite Heq in Hin; cbn [emitted ignored] in Hin.
    + by apply elem_of_nil in Hin.
    + apply list_elem_of_singleton in Hin. injection Hin as -> ->.
      split; [done|]. split; [done|]. split; [by exists a|].
      destruct (Hb _ _ Hl) as (Ha & _).
      apply is_newer_false in Hold, Hnew.
      unfold MAX_MESSAGE_ID in *.
      assert ((packet_message_id p - message_id a) mod 65536 ≠ 0) as Hnz.
      { intros H0. apply Z.mod_divide in H0 as [q Hq]; [|done]. lia. }
      rewrite (circular_distance_sym _ _ Hnz) in Hold.
      pose proof (Z.mod_pos_bound (packet_message_id p - message_id a) 65536
                    eq_refl).
      lia.
    + by apply list_elem_of_singleton in Hin.
    + apply stored_errors in Hin as [(?&?&?)|(?&?)]; try done.
      by eapply entry_lifecycle.
  - intros (Hacc & -> & (a & Hl & <-) & Hd).
    rewrite (antipodal_mismatch d p a Hacc Hl Hd). cbn. by left.
Qed.
